(** * SUNDIALS linear-solver layer: KLU sparse direct solver and KINBAND

    A shallow embedding of
      - [src/sunlinsol_klu/sunlinsol_klu.c]  (the KLU SUNLinearSolver),
      - [kinsol/source/kinsol_band.c]        (the KINBAND solver and its
        banded difference-quotient Jacobian),
      - the [jok] protocol documented in [cvode/include/cvode_spils.h],
    together with the properties the specification states about them.

    Conventions.  C [int]/[long int] values are integers of [Z] (signed
    overflow is undefined in C and no index computation below leaves the range
    of the vectors it indexes).  [realtype] is a type class, because
    [sundials_types.h] selects it at configuration time; the instance given
    is IEEE binary64, the default.  A pointer that may be [NULL] is an
    [option].  Calls into the external KLU kernel and into the user's
    residual function are recorded in a call log returned next to the
    result. *)

From Stdlib Require Import ZArith Lia Floats.
From stdpp Require Import base option list gmap.

Local Open Scope Z_scope.

(** ** [realtype] and the macros of [sundials_math.h] *)

(** The arithmetic of [realtype] that the two translation units use. *)
Class RealType (R : Type) := {
  RofZ : Z -> R;            (* RCONST(k.0) for an integral literal *)
  Radd : R -> R -> R;
  Rsub : R -> R -> R;
  Rmul : R -> R -> R;
  Rdiv : R -> R -> R;
  Ropp : R -> R;
  Rltb : R -> R -> bool     (* the C comparison [a < b] *)
}.

(** [UNIT_ROUNDOFF] of [sundials_types.h], the literal [TWOTHIRDS] and the
    library function [SUNRpowerR] ([sundials_math.h], not among the sources). *)
Class Roundoff (R : Type) := {
  UNIT_ROUNDOFF : R;
  TWOTHIRDS : R;
  SUNRpowerR : R -> R -> R
}.

Section Macros.
Context {R : Type} `{RealType R}.

Definition ZERO : R := RofZ 0.
Definition ONE : R := RofZ 1.
Definition TWO : R := RofZ 2.
(** [kinsol_band.c] defines [MIN_INC_MULT] and never refers to it. *)
Definition MIN_INC_MULT : R := RofZ 1000.

(** [#define ABS(A) ((A < 0) ? -(A) : (A))] *)
Definition ABS (a : R) : R := if Rltb a ZERO then Ropp a else a.
(** [#define MAX(A,B) ((A) > (B) ? (A) : (B))] *)
Definition MAX (a b : R) : R := if Rltb b a then a else b.
End Macros.

(** [MIN] and [MAX] on [long int]. *)
Definition MINZ (a b : Z) : Z := if a <? b then a else b.
Definition MAXZ (a b : Z) : Z := if b <? a then a else b.

(** ** The KLU linear solver ([sunlinsol_klu.c]) *)

(** Return codes of [sundials_linearsolver.h] (the header is not among the
    sources; the values are those of the SUNDIALS release). *)
Definition SUNLS_SUCCESS : Z := 0.
Definition SUNLS_MEM_NULL : Z := -1.
Definition SUNLS_ILL_INPUT : Z := -2.
Definition SUNLS_MEM_FAIL : Z := -3.
Definition SUNLS_PACKAGE_FAIL_UNREC : Z := -7.
Definition SUNLS_PACKAGE_FAIL_REC : Z := 6.

Inductive SUNMatrix_ID :=
  SUNMATRIX_DENSE | SUNMATRIX_BAND | SUNMATRIX_SPARSE | SUNMATRIX_CUSTOM.

Definition is_SUNMATRIX_SPARSE (i : SUNMatrix_ID) : bool :=
  match i with SUNMATRIX_SPARSE => true | _ => false end.

Definition CSC_MAT : Z := 0.
Definition CSR_MAT : Z := 1.

(** [struct _SUNMatrixContent_Sparse] of [sunmatrix_sparse.h]. *)
Record SUNMatrixContent_Sparse (R : Type) := {
  SM_ROWS : Z;
  SM_COLUMNS : Z;
  SM_NNZ : Z;
  SM_NP : Z;
  SM_DATA : list R;
  SM_SPARSETYPE : Z;
  SM_INDEXVALS : list Z;
  SM_INDEXPTRS : list Z
}.
Arguments SM_ROWS {R}. Arguments SM_COLUMNS {R}. Arguments SM_NNZ {R}.
Arguments SM_NP {R}. Arguments SM_DATA {R}. Arguments SM_SPARSETYPE {R}.
Arguments SM_INDEXVALS {R}. Arguments SM_INDEXPTRS {R}.

(** A generic [SUNMatrix]: its identifier and the content the sparse
    accessors read through the [SM_CONTENT_S] cast. *)
Record SUNMatrix (R : Type) := {
  mat_id : SUNMatrix_ID;
  mat_content : SUNMatrixContent_Sparse R
}.
Arguments mat_id {R}. Arguments mat_content {R}.

Definition SUNMatGetID {R} (A : SUNMatrix R) : SUNMatrix_ID := mat_id A.
Definition SUNSparseMatrix_NP {R} (A : SUNMatrix R) := SM_NP (mat_content A).
Definition SUNSparseMatrix_Data {R} (A : SUNMatrix R) := SM_DATA (mat_content A).
Definition SUNSparseMatrix_IndexValues {R} (A : SUNMatrix R) :=
  SM_INDEXVALS (mat_content A).
Definition SUNSparseMatrix_IndexPointers {R} (A : SUNMatrix R) :=
  SM_INDEXPTRS (mat_content A).

(** An [N_Vector] as the solver sees it: its entries, and whether the vector
    module exposes them as an array, in which case [N_VGetArrayPointer] gives
    the array and otherwise [NULL]. *)
Record N_Vector (R : Type) := { nv_content : list R; nv_has_array : bool }.
Arguments nv_content {R}. Arguments nv_has_array {R}.

Definition N_VGetArrayPointer {R} (x : N_Vector R) : option (list R) :=
  if nv_has_array x then Some (nv_content x) else None.

(** Modelled from the spec: the vector operation [N_VScale] belongs to the
    external vector capability; called as [N_VScale(ONE, b, x)] it copies the
    right-hand side into the solution buffer. *)
Definition N_VScale_ONE {R} (b x : N_Vector R) : N_Vector R :=
  {| nv_content := nv_content b; nv_has_array := nv_has_array x |}.

(** The vector after the array [N_VGetArrayPointer] gave has been written. *)
Definition nv_written {R} (x : N_Vector R) (xdata : list R) : N_Vector R :=
  {| nv_content := xdata; nv_has_array := nv_has_array x |}.

(** The calls a solver operation makes into the KLU package, in order. *)
Inductive klu_call :=
  | CallFreeSymbolic | CallFreeNumeric
  | CallAnalyze | CallFactor | CallRefactor
  | CallRcond | CallCondest | CallSolve.

Global Instance klu_call_eq_dec : EqDecision klu_call.
Proof. solve_decision. Defined.

(** The two solve entry points the constructor chooses between. *)
Inductive klu_solver_fn := KLU_SOLVE | KLU_TSOLVE.

(** The KLU package ([sun_klu_*] are macros for its entry points): opaque
    symbolic and numeric objects, the [klu_common] block with the three
    fields the solver touches, and the entry points.  A [NULL] object is
    [None]; an [int] result is TRUE/FALSE as a [Z]. *)
Class KLUPackage (R : Type) := {
  klu_symbolic : Type;
  klu_numeric : Type;
  klu_common : Type;
  common_rcond : klu_common -> R;
  common_condest : klu_common -> R;
  common_set_ordering : Z -> klu_common -> klu_common;
  sun_klu_analyze : Z -> list Z -> list Z -> klu_common ->
                    option klu_symbolic * klu_common;
  sun_klu_factor : list Z -> list Z -> list R -> option klu_symbolic ->
                   klu_common -> option klu_numeric * klu_common;
  sun_klu_refactor : list Z -> list Z -> list R -> option klu_symbolic ->
                     option klu_numeric -> klu_common ->
                     Z * option klu_numeric * klu_common;
  sun_klu_rcond : option klu_symbolic -> option klu_numeric -> klu_common ->
                  Z * klu_common;
  sun_klu_condest : list Z -> list R -> option klu_symbolic ->
                    option klu_numeric -> klu_common -> Z * klu_common;
  sun_klu_free_symbolic : option klu_symbolic -> klu_common -> klu_common;
  sun_klu_free_numeric : option klu_numeric -> klu_common -> klu_common;
  klu_solve_entry : klu_solver_fn -> option klu_symbolic ->
                    option klu_numeric -> Z -> Z -> list R -> klu_common ->
                    Z * list R * klu_common
}.

(** Modelled from the spec: the KLU kernels behind the [sun_klu_*] macros are
    an external package and not among the sources.  Section 3
    (FactorizationState) says that the numeric-factorization data are
    "values, dependent on matrix entries", held next to symbolic data that
    depend only on the sparsity pattern; section 4.2 says that a
    re-factorization re-uses "the existing symbolic ordering" and that solve
    runs "the stored numeric-factorization's backward/forward substitution".
    As laws of the package: what a call computes from the matrix entries and
    the stored objects does not depend on what the [klu_common] block holds
    when it is called (the numeric object of a factorization or a
    re-factorization and its return value, the return value of an estimate
    and, when it reports success, the estimate, the flag and the solution of
    a solve); a re-factorization of the entries a numeric object was
    factorized from succeeds and leaves that object; a re-factorization of
    the entries a numeric object was re-factorized from answers as before
    and leaves that object; and with no numeric object a re-factorization
    fails and produces none. *)
Class KLUFactorLaws (R : Type) `{KLUPackage R} := {
  factor_of_entries : forall ap ai ax sy c c',
    (sun_klu_factor ap ai ax sy c).1 = (sun_klu_factor ap ai ax sy c').1;
  refactor_of_entries : forall ap ai ax sy nu c c',
    (sun_klu_refactor ap ai ax sy nu c).1 =
    (sun_klu_refactor ap ai ax sy nu c').1;
  rcond_of_factors : forall sy nu c c',
    (sun_klu_rcond sy nu c).1 = (sun_klu_rcond sy nu c').1 /\
    ((sun_klu_rcond sy nu c).1 <> 0 ->
     common_rcond (sun_klu_rcond sy nu c).2 =
     common_rcond (sun_klu_rcond sy nu c').2);
  condest_of_factors : forall ap ax sy nu c c',
    (sun_klu_condest ap ax sy nu c).1 = (sun_klu_condest ap ax sy nu c').1 /\
    ((sun_klu_condest ap ax sy nu c).1 <> 0 ->
     common_condest (sun_klu_condest ap ax sy nu c).2 =
     common_condest (sun_klu_condest ap ax sy nu c').2);
  solve_stored_factors : forall fn sy nu n nrhs x c c',
    (klu_solve_entry fn sy nu n nrhs x c).1 =
    (klu_solve_entry fn sy nu n nrhs x c').1;
  refactor_after_factor : forall ap ai ax sy c nu,
    (sun_klu_factor ap ai ax sy c).1 = Some nu ->
    exists r,
      (sun_klu_refactor ap ai ax sy (Some nu) c).1 = (r, Some nu) /\ r <> 0;
  refactor_again : forall ap ai ax sy nu c,
    (sun_klu_refactor ap ai ax sy
       (sun_klu_refactor ap ai ax sy nu c).1.2 c).1 =
    (sun_klu_refactor ap ai ax sy nu c).1;
  refactor_nothing : forall ap ai ax sy c,
    (sun_klu_refactor ap ai ax sy None c).1 = (0, None)
}.

Section KLU.
Context {R : Type} `{RealType R} `{Roundoff R} `{KLUPackage R}.

(** [struct _SUNLinearSolverContent_KLU]. *)
Record SUNLinearSolverContent_KLU := {
  last_flag : Z;
  first_factorize : Z;
  symbolic : option klu_symbolic;
  numeric : option klu_numeric;
  common : klu_common;
  klu_solver : klu_solver_fn
}.

Definition set_last_flag (f : Z) (S : SUNLinearSolverContent_KLU) :=
  {| last_flag := f; first_factorize := first_factorize S;
     symbolic := symbolic S; numeric := numeric S; common := common S;
     klu_solver := klu_solver S |}.

Definition set_first_factorize (v : Z) (S : SUNLinearSolverContent_KLU) :=
  {| last_flag := last_flag S; first_factorize := v;
     symbolic := symbolic S; numeric := numeric S; common := common S;
     klu_solver := klu_solver S |}.

Definition set_symbolic (s : option klu_symbolic) (S : SUNLinearSolverContent_KLU) :=
  {| last_flag := last_flag S; first_factorize := first_factorize S;
     symbolic := s; numeric := numeric S; common := common S;
     klu_solver := klu_solver S |}.

Definition set_numeric (n : option klu_numeric) (S : SUNLinearSolverContent_KLU) :=
  {| last_flag := last_flag S; first_factorize := first_factorize S;
     symbolic := symbolic S; numeric := n; common := common S;
     klu_solver := klu_solver S |}.

Definition set_common (c : klu_common) (S : SUNLinearSolverContent_KLU) :=
  {| last_flag := last_flag S; first_factorize := first_factorize S;
     symbolic := symbolic S; numeric := numeric S; common := c;
     klu_solver := klu_solver S |}.

(** What an operation hands back: the returned flag, the solver content
    after the call, and the KLU calls it made. *)
Record op_result := {
  op_flag : Z;
  op_state : SUNLinearSolverContent_KLU;
  op_calls : list klu_call
}.

(** [LASTFLAG(S) = f; return(LASTFLAG(S));] *)
Definition return_flag (f : Z) (S : SUNLinearSolverContent_KLU)
    (calls : list klu_call) : op_result :=
  {| op_flag := f; op_state := set_last_flag f S; op_calls := calls |}.

(** [SUNKLUSetOrdering]: the flag and, for a non-[NULL] handle, the content
    after the call. *)
Definition SUNKLUSetOrdering (S : option SUNLinearSolverContent_KLU)
    (ordering_choice : Z) : Z * option SUNLinearSolverContent_KLU :=
  if (ordering_choice <? 0) || (2 <? ordering_choice) then (SUNLS_ILL_INPUT, S)
  else
    match S with
    | None => (SUNLS_MEM_NULL, None)
    | Some S' =>
        let S1 := set_common (common_set_ordering ordering_choice (common S')) S' in
        (SUNLS_SUCCESS, Some (set_last_flag SUNLS_SUCCESS S1))
    end.

Definition SUNLinSolInitialize_KLU (S : SUNLinearSolverContent_KLU) : op_result :=
  return_flag SUNLS_SUCCESS (set_first_factorize 1 S) [].

(** The three configuration operations of iterative solvers; their extra
    arguments are ignored by the source and omitted here. *)
Definition SUNLinSolSetATimes_KLU (S : SUNLinearSolverContent_KLU) : op_result :=
  return_flag SUNLS_ILL_INPUT S [].
Definition SUNLinSolSetPreconditioner_KLU (S : SUNLinearSolverContent_KLU) : op_result :=
  return_flag SUNLS_ILL_INPUT S [].
Definition SUNLinSolSetScalingVectors_KLU (S : SUNLinearSolverContent_KLU) : op_result :=
  return_flag SUNLS_ILL_INPUT S [].

Definition SUNLinSolLastFlag_KLU (S : SUNLinearSolverContent_KLU) : Z := last_flag S.

(** [if (SYMBOLIC(S)) sun_klu_free_symbolic(&SYMBOLIC(S), &COMMON(S));] *)
Definition free_symbolic_if_set (S : SUNLinearSolverContent_KLU)
    : SUNLinearSolverContent_KLU * list klu_call :=
  match symbolic S with
  | Some _ =>
      (set_symbolic None
         (set_common (sun_klu_free_symbolic (symbolic S) (common S)) S),
       [CallFreeSymbolic])
  | None => (S, [])
  end.

(** [if (NUMERIC(S)) sun_klu_free_numeric(&NUMERIC(S), &COMMON(S));] *)
Definition free_numeric_if_set (S : SUNLinearSolverContent_KLU)
    : SUNLinearSolverContent_KLU * list klu_call :=
  match numeric S with
  | Some _ =>
      (set_numeric None
         (set_common (sun_klu_free_numeric (numeric S) (common S)) S),
       [CallFreeNumeric])
  | None => (S, [])
  end.

(** [sun_klu_free_numeric(&NUMERIC(S), &COMMON(S))] without the test, as in
    the ill-conditioned branch of setup. *)
Definition free_numeric_always (S : SUNLinearSolverContent_KLU)
    : SUNLinearSolverContent_KLU :=
  set_numeric None (set_common (sun_klu_free_numeric (numeric S) (common S)) S).

(** [NUMERIC(S) = sun_klu_factor(...)] *)
Definition do_factor (A : SUNMatrix R) (S : SUNLinearSolverContent_KLU)
    : SUNLinearSolverContent_KLU :=
  let '(nu, c) := sun_klu_factor (SUNSparseMatrix_IndexPointers A)
                    (SUNSparseMatrix_IndexValues A) (SUNSparseMatrix_Data A)
                    (symbolic S) (common S) in
  set_numeric nu (set_common c S).

(** The first-factorization branch of setup. *)
Definition setup_first (A : SUNMatrix R) (S : SUNLinearSolverContent_KLU)
    : op_result :=
  let '(S1, l1) := free_symbolic_if_set S in
  let '(sy, c) := sun_klu_analyze (SUNSparseMatrix_NP A)
                    (SUNSparseMatrix_IndexPointers A)
                    (SUNSparseMatrix_IndexValues A) (common S1) in
  let S2 := set_symbolic sy (set_common c S1) in
  let l2 := l1 ++ [CallAnalyze] in
  match symbolic S2 with
  | None => return_flag SUNLS_PACKAGE_FAIL_UNREC S2 l2
  | Some _ =>
      let '(S3, l3) := free_numeric_if_set S2 in
      let S4 := do_factor A S3 in
      let l4 := l2 ++ l3 ++ [CallFactor] in
      match numeric S4 with
      | None => return_flag SUNLS_PACKAGE_FAIL_UNREC S4 l4
      | Some _ => return_flag SUNLS_SUCCESS (set_first_factorize 0 S4) l4
      end
  end.

(** The branch taken when this is not the first decomposition. *)
Definition setup_refactor (A : SUNMatrix R) (S : SUNLinearSolverContent_KLU)
    : op_result :=
  let uround_twothirds := SUNRpowerR UNIT_ROUNDOFF TWOTHIRDS in
  let '(retval, nu, c) :=
    sun_klu_refactor (SUNSparseMatrix_IndexPointers A)
      (SUNSparseMatrix_IndexValues A) (SUNSparseMatrix_Data A)
      (symbolic S) (numeric S) (common S) in
  let S1 := set_numeric nu (set_common c S) in
  let l1 := [CallRefactor] in
  if retval =? 0 then return_flag SUNLS_PACKAGE_FAIL_REC S1 l1
  else
    let '(retval, c) := sun_klu_rcond (symbolic S1) (numeric S1) (common S1) in
    let S2 := set_common c S1 in
    let l2 := l1 ++ [CallRcond] in
    if retval =? 0 then return_flag SUNLS_PACKAGE_FAIL_REC S2 l2
    else if Rltb (common_rcond (common S2)) uround_twothirds then
      let '(retval, c) :=
        sun_klu_condest (SUNSparseMatrix_IndexPointers A)
          (SUNSparseMatrix_Data A) (symbolic S2) (numeric S2) (common S2) in
      let S3 := set_common c S2 in
      let l3 := l2 ++ [CallCondest] in
      if retval =? 0 then return_flag SUNLS_PACKAGE_FAIL_REC S3 l3
      else if Rltb (Rdiv ONE uround_twothirds) (common_condest (common S3)) then
        let S4 := do_factor A (free_numeric_always S3) in
        let l4 := l3 ++ [CallFreeNumeric; CallFactor] in
        match numeric S4 with
        | None => return_flag SUNLS_PACKAGE_FAIL_UNREC S4 l4
        | Some _ => return_flag SUNLS_SUCCESS S4 l4
        end
      else return_flag SUNLS_SUCCESS S3 l3
    else return_flag SUNLS_SUCCESS S2 l2.

Definition SUNLinSolSetup_KLU (S : SUNLinearSolverContent_KLU) (A : SUNMatrix R)
    : op_result :=
  if negb (is_SUNMATRIX_SPARSE (SUNMatGetID A)) then
    return_flag SUNLS_ILL_INPUT S []
  else if negb (first_factorize S =? 0) then setup_first A S
  else setup_refactor A S.

(** What solve hands back: the flag, the solver content (of a non-[NULL]
    handle), the solution vector after the call and the KLU calls made. *)
Record solve_result := {
  sv_flag : Z;
  sv_state : option SUNLinearSolverContent_KLU;
  sv_x : option (N_Vector R);
  sv_calls : list klu_call
}.

Definition SUNLinSolSolve_KLU (S : option SUNLinearSolverContent_KLU)
    (A : option (SUNMatrix R)) (x b : option (N_Vector R)) (tol : R)
    : solve_result :=
  match A, S, x, b with
  | Some A', Some S', Some x', Some b' =>
      (* copy b into x *)
      let x1 := N_VScale_ONE b' x' in
      (* access x data array *)
      match N_VGetArrayPointer x1 with
      | None =>
          {| sv_flag := SUNLS_MEM_FAIL;
             sv_state := Some (set_last_flag SUNLS_MEM_FAIL S');
             sv_x := Some x1; sv_calls := [] |}
      | Some xdata =>
          (* Call KLU to solve the linear system *)
          let '(flag, xdata', c) :=
            klu_solve_entry (klu_solver S') (symbolic S') (numeric S')
              (SUNSparseMatrix_NP A') 1 xdata (common S') in
          let S1 := set_common c S' in
          let x2 := nv_written x1 xdata' in
          if flag =? 0 then
            {| sv_flag := SUNLS_PACKAGE_FAIL_REC;
               sv_state := Some (set_last_flag SUNLS_PACKAGE_FAIL_REC S1);
               sv_x := Some x2; sv_calls := [CallSolve] |}
          else
            {| sv_flag := SUNLS_SUCCESS;
               sv_state := Some (set_last_flag SUNLS_SUCCESS S1);
               sv_x := Some x2; sv_calls := [CallSolve] |}
      end
  | _, _, _, _ =>
      {| sv_flag := SUNLS_MEM_NULL; sv_state := S; sv_x := x; sv_calls := [] |}
  end.

End KLU.

Arguments SUNLinearSolverContent_KLU R {_}.
Arguments op_result R {_}.
Arguments solve_result R {_}.

(** ** The KINBAND linear solver ([kinsol_band.c]) *)

(** Return codes of [kinsol_band.h] (the header is not among the sources;
    the values are those of the SUNDIALS release). *)
Definition KINBAND_SUCCESS : Z := 0.
Definition KINBAND_MEM_NULL : Z := -1.
Definition KINBAND_LMEM_NULL : Z := -2.
Definition KINBAND_ILL_INPUT : Z := -3.
Definition KINBAND_MEM_FAIL : Z := -4.

(** [for (i = i0; cond(i); i += step) body].  The result is [None] when the
    body is undefined (an access outside an array) or when [fuel] iterations
    did not reach the exit test. *)
Fixpoint for_loop {St : Type} (fuel : nat) (cond : Z -> bool) (step : Z)
    (body : Z -> St -> option St) (i : Z) (s : St) : option St :=
  if cond i then
    match fuel with
    | O => None
    | S fuel' =>
        match body i s with
        | Some s' => for_loop fuel' cond step body (i + step) s'
        | None => None
        end
    end
  else Some s.

(** [N_Vector] arguments are pointers: identifiers into a store of data
    arrays, so that two arguments may name the same vector. *)
Definition vec_id := nat.

(** The store of vector data arrays. *)
Abbreviation vstore R := (gmap nat (list R)).

Section KINBAND.
Context {R : Type} `{RealType R}.

(** [v_data[j]] as an rvalue; undefined outside the array. *)
Definition vget (v : list R) (j : Z) : option R :=
  if j <? 0 then None else v !! Z.to_nat j.

(** [v_data[j] = x]; undefined outside the array. *)
Definition vset (v : list R) (j : Z) (x : R) : option (list R) :=
  if (0 <=? j) && (j <? Z.of_nat (length v)) then Some (<[Z.to_nat j := x]> v)
  else None.

Definition sget (st : vstore R) (v : vec_id) (j : Z) : option R :=
  st !! v ≫= λ d, vget d j.

Definition sset (st : vstore R) (v : vec_id) (j : Z) (x : R) : option (vstore R) :=
  st !! v ≫= λ d, vset d j x ≫= λ d', Some (<[v := d']> st).

(** [BandMat] of [band.h]: the dimension, the half-bandwidths, the storage
    upper bandwidth and the entries; [BAND_COL_ELEM(BAND_COL(J,j),i,j)]
    names the entry in row [i] of column [j]. *)
Record BandMat := {
  band_size : Z;
  band_mu : Z;
  band_ml : Z;
  band_smu : Z;
  band_data : gmap (Z * Z) R
}.

Definition band_with_data (J : BandMat) (d : gmap (Z * Z) R) : BandMat :=
  {| band_size := band_size J; band_mu := band_mu J; band_ml := band_ml J;
     band_smu := band_smu J; band_data := d |}.

(** Which Jacobian routine [b_jac] points to, and what [b_J_data] is. *)
Inductive jac_fn := JAC_NULL | JAC_KINBandDQJac | JAC_user.
Inductive jac_data_ptr := JDATA_kinmem | JDATA_user.

(** [KINBandMemRec] of [kinsol_band_impl.h]. *)
Record KINBandMemRec := {
  b_n : Z;
  b_jac : jac_fn;
  b_J : option BandMat;
  b_mu : Z;
  b_ml : Z;
  b_storage_mu : Z;
  b_pivots : option (list Z);
  b_nje : Z;
  b_nfeB : Z;
  b_J_data : jac_data_ptr;
  b_last_flag : Z
}.

(** The four linear-solver routines a module attaches to [kin_mem]. *)
Inductive lin_module := LIN_KINBAND | LIN_OTHER.

(** The fields of [KINMemRec] ([kinsol_impl.h]) that [kinsol_band.c] uses. *)
Record KINMem := {
  kin_func : list R -> list R;
  kin_uscale : vec_id;
  kin_sqrt_relfunc : R;
  kin_vtemp1_has_getarraypointer : bool;
  kin_linit : option lin_module;
  kin_lsetup : option lin_module;
  kin_lsolve : option lin_module;
  kin_lfree : option lin_module;
  kin_lmem : option KINBandMemRec;
  kin_inexact_ls : bool;
  kin_setupNonNull : bool
}.

Definition set_kin_routines (m : lin_module) (km : KINMem) : KINMem :=
  {| kin_func := kin_func km; kin_uscale := kin_uscale km;
     kin_sqrt_relfunc := kin_sqrt_relfunc km;
     kin_vtemp1_has_getarraypointer := kin_vtemp1_has_getarraypointer km;
     kin_linit := Some m; kin_lsetup := Some m; kin_lsolve := Some m;
     kin_lfree := Some m; kin_lmem := kin_lmem km;
     kin_inexact_ls := kin_inexact_ls km;
     kin_setupNonNull := kin_setupNonNull km |}.

Definition set_kin_setupNonNull (v : bool) (km : KINMem) : KINMem :=
  {| kin_func := kin_func km; kin_uscale := kin_uscale km;
     kin_sqrt_relfunc := kin_sqrt_relfunc km;
     kin_vtemp1_has_getarraypointer := kin_vtemp1_has_getarraypointer km;
     kin_linit := kin_linit km; kin_lsetup := kin_lsetup km;
     kin_lsolve := kin_lsolve km; kin_lfree := kin_lfree km;
     kin_lmem := kin_lmem km; kin_inexact_ls := kin_inexact_ls km;
     kin_setupNonNull := v |}.

Definition set_kin_inexact_ls (v : bool) (km : KINMem) : KINMem :=
  {| kin_func := kin_func km; kin_uscale := kin_uscale km;
     kin_sqrt_relfunc := kin_sqrt_relfunc km;
     kin_vtemp1_has_getarraypointer := kin_vtemp1_has_getarraypointer km;
     kin_linit := kin_linit km; kin_lsetup := kin_lsetup km;
     kin_lsolve := kin_lsolve km; kin_lfree := kin_lfree km;
     kin_lmem := kin_lmem km; kin_inexact_ls := v;
     kin_setupNonNull := kin_setupNonNull km |}.

Definition set_kin_lmem (l : option KINBandMemRec) (km : KINMem) : KINMem :=
  {| kin_func := kin_func km; kin_uscale := kin_uscale km;
     kin_sqrt_relfunc := kin_sqrt_relfunc km;
     kin_vtemp1_has_getarraypointer := kin_vtemp1_has_getarraypointer km;
     kin_linit := kin_linit km; kin_lsetup := kin_lsetup km;
     kin_lsolve := kin_lsolve km; kin_lfree := kin_lfree km;
     kin_lmem := l; kin_inexact_ls := kin_inexact_ls km;
     kin_setupNonNull := kin_setupNonNull km |}.

(** What the allocator answers during one call of [KINBand]: the block
    [malloc] returns for the [KINBandMemRec] (its content is indeterminate)
    or [NULL], and whether [BandAllocMat] and [BandAllocPiv] succeed. *)
Record alloc_outcome := {
  malloc_KINBandMemRec : option KINBandMemRec;
  BandAllocMat_ok : bool;
  BandAllocPiv_ok : bool
}.

Definition BandAllocMat (ok : bool) (N mu ml smu : Z) : option BandMat :=
  if ok then
    Some {| band_size := N; band_mu := mu; band_ml := ml; band_smu := smu;
            band_data := ∅ |}
  else None.

Definition BandAllocPiv (ok : bool) (N : Z) : option (list Z) :=
  if ok then Some (replicate (Z.to_nat N) 0) else None.

Section KINBand.
(** [lfree] of a linear-solver module other than this one. *)
Variable foreign_lfree : KINMem -> KINMem.

(** [KINBandFree] releases the band matrix, the pivots and the record and
    leaves every field of [kin_mem] as it is. *)
Definition KINBandFree (km : KINMem) : KINMem := km.

(** [if (lfree != NULL) lfree(kin_mem);] *)
Definition call_lfree (km : KINMem) : KINMem :=
  match kin_lfree km with
  | None => km
  | Some LIN_KINBAND => KINBandFree km
  | Some LIN_OTHER => foreign_lfree km
  end.

(** [KINBand(kinmem, N, mupper, mlower)]: the flag and the solver memory
    after the call.  The messages written to [errfp] are left out. *)
Definition KINBand (kinmem : option KINMem) (al : alloc_outcome)
    (N mupper mlower : Z) : Z * option KINMem :=
  match kinmem with
  | None => (KINBAND_MEM_NULL, None)
  | Some kin_mem =>
      if negb (kin_vtemp1_has_getarraypointer kin_mem) then
        (KINBAND_ILL_INPUT, Some kin_mem)
      else
        let kin_mem := call_lfree kin_mem in
        let kin_mem := set_kin_routines LIN_KINBAND kin_mem in
        match malloc_KINBandMemRec al with
        | None => (KINBAND_MEM_FAIL, Some kin_mem)
        | Some fresh =>
            let kin_mem := set_kin_setupNonNull true kin_mem in
            let n := N in
            let ml := mlower in
            let mu := mupper in
            if (ml <? 0) || (mu <? 0) || (N <=? ml) || (N <=? mu) then
              (KINBAND_ILL_INPUT, Some kin_mem)
            else
              let storage_mu := MINZ (N - 1) (mu + ml) in
              match BandAllocMat (BandAllocMat_ok al) N mu ml storage_mu with
              | None => (KINBAND_MEM_FAIL, Some kin_mem)
              | Some J =>
                  match BandAllocPiv (BandAllocPiv_ok al) N with
                  | None => (KINBAND_MEM_FAIL, Some kin_mem)
                  | Some pivots =>
                      let kinband_mem :=
                        {| b_n := n; b_jac := JAC_KINBandDQJac;
                           b_J := Some J; b_mu := mu; b_ml := ml;
                           b_storage_mu := storage_mu;
                           b_pivots := Some pivots;
                           b_nje := b_nje fresh; b_nfeB := b_nfeB fresh;
                           b_J_data := JDATA_kinmem;
                           b_last_flag := KINBAND_SUCCESS |} in
                      let kin_mem := set_kin_inexact_ls false kin_mem in
                      let kin_mem := set_kin_lmem (Some kinband_mem) kin_mem in
                      (KINBAND_SUCCESS, Some kin_mem)
                  end
              end
        end
  end.
End KINBand.

End KINBAND.

Arguments BandMat R : clear implicits.
Arguments KINBandMemRec R : clear implicits.
Arguments KINMem R : clear implicits.
Arguments alloc_outcome R : clear implicits.

Section KINBandDQJac.
Context {R : Type} `{RealType R}.

(** [inc = sqrt_relfunc*MAX(ABS(u_data[j]), ABS(uscale_data[j]))] *)
Definition dq_inc (kin_mem : KINMem R) (st : vstore R) (u : vec_id) (j : Z)
    : option R :=
  uj ← sget st u j;
  sj ← sget st (kin_uscale kin_mem) j;
  Some (Rmul (kin_sqrt_relfunc kin_mem) (MAX (ABS uj) (ABS sj))).

(** What the routine works on: the entries of [J], the vector store and the
    arguments the residual function has been called with, oldest first. *)
Record dq_state := {
  dq_J : gmap (Z * Z) R;
  dq_store : vstore R;
  dq_evals : list (list R)
}.

(** [func(utemp, futemp, f_data)]: the residual function reads its first
    argument and writes its second. *)
Definition call_func (kin_mem : KINMem R) (utemp futemp : vec_id)
    (s : dq_state) : option dq_state :=
  ut ← dq_store s !! utemp;
  _ ← dq_store s !! futemp;
  Some {| dq_J := dq_J s;
          dq_store := <[futemp := kin_func kin_mem ut]> (dq_store s);
          dq_evals := dq_evals s ++ [ut] |}.

Section Body.
Variables (n mupper mlower : Z) (u fu : vec_id) (kin_mem : KINMem R)
          (futemp utemp : vec_id).

Let fuel : nat := Z.to_nat n.
Let width : Z := mlower + mupper + 1.

(** [inc = ...; utemp_data[j] += inc;] *)
Definition increment_column (j : Z) (st : vstore R) : option (vstore R) :=
  inc ← dq_inc kin_mem st u j;
  t ← sget st utemp j;
  sset st utemp j (Radd t inc).

(** [BAND_COL_ELEM(col_j,i,j) = inc_inv * (futemp_data[i] - fu_data[i]);] *)
Definition load_entry (st : vstore R) (inc_inv : R) (j i : Z)
    (J : gmap (Z * Z) R) : option (gmap (Z * Z) R) :=
  a ← sget st futemp i;
  b ← sget st fu i;
  Some (<[(i, j) := Rmul inc_inv (Rsub a b)]> J).

(** The body of the second loop over the columns of a group. *)
Definition restore_and_load (j : Z) (s : dq_state) : option dq_state :=
  uj ← sget (dq_store s) u j;
  st ← sset (dq_store s) utemp j uj;
  inc ← dq_inc kin_mem st u j;
  let inc_inv := Rdiv ONE inc in
  let i1 := MAXZ 0 (j - mupper) in
  let i2 := MINZ (j + mlower) (n - 1) in
  J ← for_loop fuel (λ i, i <=? i2) 1 (load_entry st inc_inv j) i1 (dq_J s);
  Some {| dq_J := J; dq_store := st; dq_evals := dq_evals s |}.

(** The body of the loop over the groups. *)
Definition do_group (group : Z) (s : dq_state) : option dq_state :=
  st ← for_loop fuel (λ j, j <? n) width increment_column (group - 1)
         (dq_store s);
  s1 ← call_func kin_mem utemp futemp
         {| dq_J := dq_J s; dq_store := st; dq_evals := dq_evals s |};
  for_loop fuel (λ j, j <? n) width restore_and_load (group - 1) s1.
End Body.

(** What the routine hands back: its [int] result, the band matrix, the
    vector store, [kin_mem] (whose [lmem] carries the counter [nfeB]) and
    the arguments of the residual calls. *)
Record dq_result := {
  dqr_flag : Z;
  dqr_J : BandMat R;
  dqr_store : vstore R;
  dqr_kin_mem : KINMem R;
  dqr_evals : list (list R)
}.

Definition add_nfeB (k : Z) (m : KINBandMemRec R) : KINBandMemRec R :=
  {| b_n := b_n m; b_jac := b_jac m; b_J := b_J m; b_mu := b_mu m;
     b_ml := b_ml m; b_storage_mu := b_storage_mu m; b_pivots := b_pivots m;
     b_nje := b_nje m; b_nfeB := b_nfeB m + k; b_J_data := b_J_data m;
     b_last_flag := b_last_flag m |}.

(** [KINBandDQJac(n, mupper, mlower, J, u, fu, jac_data, tmp1, tmp2)] with
    [jac_data] pointing to [kin_mem], run on the store [st].  [KINBandSetup]
    calls it with [u = uu], [fu = fval], [tmp1 = vtemp1] and
    [tmp2 = vtemp2], four distinct vectors of [kin_mem].  Every loop of the
    routine moves a counter forward inside [0, n], so [n] passes are fuel
    enough for each of them; the result is [None] only for an access outside
    an array or a [NULL] [lmem]. *)
Definition KINBandDQJac (n mupper mlower : Z) (J : BandMat R) (u fu : vec_id)
    (kin_mem : KINMem R) (tmp1 tmp2 : vec_id) (st : vstore R)
    : option dq_result :=
  kinband_mem ← kin_lmem kin_mem;
  (* Rename work vectors for use as temporary values of u and fu *)
  let futemp := tmp1 in
  let utemp := tmp2 in
  (* Load utemp with u: N_VScale(ONE, u, utemp), defined for vectors of
     one length *)
  ud ← st !! u;
  td ← st !! utemp;
  if negb (length td =? length ud)%nat then None else
  let st := <[utemp := ud]> st in
  (* Set bandwidth and number of column groups for band differencing *)
  let width := mlower + mupper + 1 in
  let ngroups := MINZ width n in
  s ← for_loop (Z.to_nat n) (λ group, group <=? ngroups) 1
        (do_group n mupper mlower u fu kin_mem futemp utemp) 1
        {| dq_J := band_data J; dq_store := st; dq_evals := [] |};
  (* Increment counter nfeB *)
  Some {| dqr_flag := 0;
          dqr_J := band_with_data J (dq_J s);
          dqr_store := dq_store s;
          dqr_kin_mem := set_kin_lmem (Some (add_nfeB ngroups kinband_mem)) kin_mem;
          dqr_evals := dq_evals s |}.

End KINBandDQJac.

(** ** The preconditioner-setup protocol ([cvode_spils.h]) *)

(** One call of a [CVSpilsPrecSetupFn]: the input flag [jok] and the value
    the function returned (0 success, positive recoverable, negative not). *)
Record PrecSetupCall := { call_jok : bool; call_ret : Z }.

(** A from-scratch call that succeeded. *)
Definition fresh_success (c : PrecSetupCall) : bool :=
  negb (call_jok c) && (call_ret c =? 0).

(** The contract of the header, "a Precset call with jok == TRUE can only
    occur after a call with jok == FALSE", in the form the specification
    gives it (the earlier call has succeeded), as a check of a sequence of
    calls: [cached] tells whether a from-scratch call has succeeded so far. *)
Fixpoint jok_contract_from (cached : bool) (calls : list PrecSetupCall) : bool :=
  match calls with
  | [] => true
  | c :: rest =>
      (implb (call_jok c) cached) &&
      jok_contract_from (cached || fresh_success c) rest
  end.

Definition jok_contract (calls : list PrecSetupCall) : bool :=
  jok_contract_from false calls.

(** Modelled from the spec: the solver layer that issues the
    preconditioner-setup calls (the setup routine of the CVSPILS solvers) is
    not among the sources.  Following section 4.4, each time a setup is due
    the layer either asks for a recomputation or for reuse, and it requests
    reuse only when something has been cached, that is after a call with
    [jok = false] succeeded.  A request is the nonlinear iteration's wish to
    reuse together with the user callback's answer to the flag it is given. *)
Record setup_request := {
  wants_reuse : bool;
  prec_setup : bool -> Z
}.

Definition issue_jok (cached : bool) (rq : setup_request) : bool :=
  wants_reuse rq && cached.

Fixpoint issue_calls (cached : bool) (rqs : list setup_request)
    : list PrecSetupCall :=
  match rqs with
  | [] => []
  | rq :: rest =>
      let jok := issue_jok cached rq in
      let c := {| call_jok := jok; call_ret := prec_setup rq jok |} in
      c :: issue_calls (cached || fresh_success c) rest
  end.

(** A run of the solver layer starts with nothing cached. *)
Definition solver_layer_calls (rqs : list setup_request) : list PrecSetupCall :=
  issue_calls false rqs.

(** ** The binary64 instance of [realtype] *)

(** IEEE binary64, the [double] of the default configuration. *)
Definition float_of_Z (z : Z) : float :=
  if z <? 0 then PrimFloat.opp (PrimFloat.of_uint63 (Uint63.of_Z (- z)))
  else PrimFloat.of_uint63 (Uint63.of_Z z).

Global Instance RealType_double : RealType float := {
  RofZ := float_of_Z;
  Radd := PrimFloat.add;
  Rsub := PrimFloat.sub;
  Rmul := PrimFloat.mul;
  Rdiv := PrimFloat.div;
  Ropp := PrimFloat.opp;
  Rltb := PrimFloat.ltb
}.

(** [DBL_EPSILON], the literal [TWOTHIRDS] rounded to binary64, and the value
    of [pow] at the one pair of arguments setup calls [SUNRpowerR] with
    (not-a-number stands for every other power). *)
Definition DBL_EPSILON : float := 0x1p-52%float.
Definition TWOTHIRDS_double : float := 0x1.5555555555555p-1%float.

Global Instance Roundoff_double : Roundoff float := {
  UNIT_ROUNDOFF := DBL_EPSILON;
  TWOTHIRDS := TWOTHIRDS_double;
  SUNRpowerR := λ b e,
    if PrimFloat.eqb b DBL_EPSILON && PrimFloat.eqb e TWOTHIRDS_double
    then 0x1.428a2f98d7292p-35%float else nan
}.

(** ** A dense 2x2 stand-in for the KLU package

    The package itself is an external library.  To run the solver on concrete
    matrices we use a direct solver for dense 2x2 systems stored in
    compressed-column form, with the interface of the package: the pivot row
    is chosen by [factor] and kept by [refactor], which therefore fails when
    the kept pivot has become zero. *)
Section Dense2.
Context {R : Type} `{RealType R}.

Record d2_numeric := { d2_swap : bool; d2_vals : list R }.
Record d2_common := { d2_ordering : Z; d2_rcond : R; d2_condest : R }.

Definition d2_is_zero (x : R) : bool := negb (Rltb x ZERO) && negb (Rltb ZERO x).

Definition d2_pattern (n : Z) (ap ai : list Z) : bool :=
  (n =? 2) && bool_decide (ap = [0; 2; 4]) && bool_decide (ai = [0; 1; 0; 1]).

(** The diagonal of U for the column-major values [a00; a10; a01; a11]. *)
Definition d2_udiag (swap : bool) (ax : list R) : option (R * R) :=
  match ax with
  | [a00; a10; a01; a11] =>
      if swap then Some (a10, Rsub a01 (Rmul (Rdiv a00 a10) a11))
      else Some (a00, Rsub a11 (Rmul (Rdiv a10 a00) a01))
  | _ => None
  end.

Definition d2_pivots_ok (swap : bool) (ax : list R) : bool :=
  match d2_udiag swap ax with
  | Some (u0, u1) => negb (d2_is_zero u0) && negb (d2_is_zero u1)
  | None => false
  end.

Definition d2_choose_swap (ax : list R) : bool :=
  match ax with
  | a00 :: a10 :: _ => Rltb (ABS a00) (ABS a10)
  | _ => false
  end.

Definition d2_analyze (n : Z) (ap ai : list Z) (c : d2_common)
    : option unit * d2_common :=
  (if d2_pattern n ap ai then Some tt else None, c).

Definition d2_factor (ap ai : list Z) (ax : list R) (sy : option unit)
    (c : d2_common) : option d2_numeric * d2_common :=
  match sy with
  | Some _ =>
      if d2_pivots_ok (d2_choose_swap ax) ax
      then (Some {| d2_swap := d2_choose_swap ax; d2_vals := ax |}, c)
      else (None, c)
  | None => (None, c)
  end.

Definition d2_refactor (ap ai : list Z) (ax : list R) (sy : option unit)
    (nu : option d2_numeric) (c : d2_common)
    : Z * option d2_numeric * d2_common :=
  match sy, nu with
  | Some _, Some m =>
      if d2_pivots_ok (d2_swap m) ax
      then (1, Some {| d2_swap := d2_swap m; d2_vals := ax |}, c)
      else (0, nu, c)
  | _, _ => (0, nu, c)
  end.

Definition MINR (a b : R) : R := if Rltb a b then a else b.

(** min |U_ii| / max |U_ii|, as [klu_rcond] estimates it. *)
Definition d2_rcond_fn (sy : option unit) (nu : option d2_numeric)
    (c : d2_common) : Z * d2_common :=
  match nu with
  | Some m =>
      match d2_udiag (d2_swap m) (d2_vals m) with
      | Some (u0, u1) =>
          (1, {| d2_ordering := d2_ordering c;
                 d2_rcond := Rdiv (MINR (ABS u0) (ABS u1)) (MAX (ABS u0) (ABS u1));
                 d2_condest := d2_condest c |})
      | None => (0, c)
      end
  | None => (0, c)
  end.

(** The 1-norm condition number of the matrix. *)
Definition d2_condest_fn (ap : list Z) (ax : list R) (sy : option unit)
    (nu : option d2_numeric) (c : d2_common) : Z * d2_common :=
  match nu, ax with
  | Some _, [a00; a10; a01; a11] =>
      let det := Rsub (Rmul a00 a11) (Rmul a01 a10) in
      let na := MAX (Radd (ABS a00) (ABS a10)) (Radd (ABS a01) (ABS a11)) in
      let ni := Rdiv (MAX (Radd (ABS a11) (ABS a10)) (Radd (ABS a01) (ABS a00)))
                     (ABS det) in
      (1, {| d2_ordering := d2_ordering c; d2_rcond := d2_rcond c;
             d2_condest := Rmul na ni |})
  | _, _ => (0, c)
  end.

(** Solve with the factorized matrix (or its transpose). *)
Definition d2_solve (fn : klu_solver_fn) (sy : option unit)
    (nu : option d2_numeric) (n nrhs : Z) (x : list R) (c : d2_common)
    : Z * list R * d2_common :=
  match nu, x with
  | Some m, [b0; b1] =>
      match d2_vals m, fn with
      | [a00; a10; a01; a11], KLU_SOLVE =>
          let det := Rsub (Rmul a00 a11) (Rmul a01 a10) in
          (1, [Rdiv (Rsub (Rmul b0 a11) (Rmul a01 b1)) det;
               Rdiv (Rsub (Rmul a00 b1) (Rmul a10 b0)) det], c)
      | [a00; a10; a01; a11], KLU_TSOLVE =>
          let det := Rsub (Rmul a00 a11) (Rmul a01 a10) in
          (1, [Rdiv (Rsub (Rmul b0 a11) (Rmul a10 b1)) det;
               Rdiv (Rsub (Rmul a00 b1) (Rmul a01 b0)) det], c)
      | _, _ => (0, x, c)
      end
  | _, _ => (0, x, c)
  end.

#[export] Instance Dense2_KLU : KLUPackage R := {
  klu_symbolic := unit;
  klu_numeric := d2_numeric;
  klu_common := d2_common;
  common_rcond := d2_rcond;
  common_condest := d2_condest;
  common_set_ordering := λ o c,
    {| d2_ordering := o; d2_rcond := d2_rcond c; d2_condest := d2_condest c |};
  sun_klu_analyze := d2_analyze;
  sun_klu_factor := d2_factor;
  sun_klu_refactor := d2_refactor;
  sun_klu_rcond := d2_rcond_fn;
  sun_klu_condest := d2_condest_fn;
  sun_klu_free_symbolic := λ _ c, c;
  sun_klu_free_numeric := λ _ c, c;
  klu_solve_entry := d2_solve
}.

(** The dense 2x2 matrix with columns [(a00, a10)] and [(a01, a11)] in
    compressed-sparse-column form. *)
Definition dense2 (a00 a10 a01 a11 : R) : SUNMatrix R :=
  {| mat_id := SUNMATRIX_SPARSE;
     mat_content := {| SM_ROWS := 2; SM_COLUMNS := 2; SM_NNZ := 4; SM_NP := 2;
                       SM_DATA := [a00; a10; a01; a11];
                       SM_SPARSETYPE := CSC_MAT;
                       SM_INDEXVALS := [0; 1; 0; 1];
                       SM_INDEXPTRS := [0; 2; 4] |} |}.

(** The content the constructor [SUNKLU] fills in for a CSC matrix: no
    flag, a first factorization due, no symbolic and no numeric object, the
    default ordering ([SUNKLU_ORDERING_DEFAULT] is 1) and the plain solve
    entry. *)
Definition dense2_new : SUNLinearSolverContent_KLU R :=
  {| last_flag := 0; first_factorize := 1; symbolic := None; numeric := None;
     common := {| d2_ordering := 1; d2_rcond := ZERO; d2_condest := ZERO |};
     klu_solver := KLU_SOLVE |}.
End Dense2.

(** ** The difference quotients in the words of the specification *)

Section DQ_Spec.
Context {R : Type} `{RealType R}.

(** [v[k]], with [ZERO] outside the vector. *)
Definition vnth (v : list R) (k : Z) : R := default ZERO (vget v k).

Variables (sqrt_relfunc : R) (F : list R -> list R) (n mupper mlower : Z).
Variables (u fu uscale : vec_id) (ud sd fud : list R).

(** The perturbation size of column [k]. *)
Definition inc_spec (k : Z) : R :=
  Rmul sqrt_relfunc (MAX (ABS (vnth ud k)) (ABS (vnth sd k))).

(** [u] with every column of group [g] perturbed, column [k] belonging to
    group [k mod (mlower + mupper + 1)]. *)
Definition perturbed (g : Z) : list R :=
  imap (λ k x, if Z.of_nat k mod (mlower + mupper + 1) =? g
               then Radd x (inc_spec (Z.of_nat k)) else x) ud.

(** Row [i] lies in the band of column [j]. *)
Definition in_band (i j : Z) : bool :=
  (Z.max 0 (j - mupper) <=? i) && (i <=? Z.min (j + mlower) (n - 1)).

(** The difference quotient for entry [(i,j)], formed as the routine forms
    it: the reciprocal of the increment times the difference. *)
Definition dq_entry (i j : Z) : R :=
  Rmul (Rdiv ONE (inc_spec j))
       (Rsub (vnth (F (perturbed (j mod (mlower + mupper + 1)))) i) (vnth fud i)).

(** The store holds the three vectors the routine only reads: [u], [fu]
    and the scaling vector. *)
Definition holds_inputs (S : vstore R) : Prop :=
  S !! u = Some ud /\ S !! fu = Some fud /\ S !! uscale = Some sd.

(** [u] with the columns of group [g] below [i] perturbed, and with the
    columns of group [g] from [i] on perturbed: the work vector during the
    first and during the second loop over a group. *)
Definition bumped (g i : Z) : list R :=
  imap (λ k x, if (Z.of_nat k mod (mlower + mupper + 1) =? g) && (Z.of_nat k <? i)
               then Radd x (inc_spec (Z.of_nat k)) else x) ud.

Definition unrestored (g i : Z) : list R :=
  imap (λ k x, if (Z.of_nat k mod (mlower + mupper + 1) =? g)
                  && negb (Z.of_nat k <? i)
               then Radd x (inc_spec (Z.of_nat k)) else x) ud.
End DQ_Spec.

(** ** What the statements about the KLU solver speak of *)

Section KLU_Spec.
Context {R : Type} `{RealType R} `{Roundoff R} `{KLUPackage R}.

Implicit Types (S : SUNLinearSolverContent_KLU R) (A : SUNMatrix R).

(** An operation that only records a flag leaves the rest of the content
    as it found it and calls nothing. *)
Definition only_sets_flag (f : Z) S (r : op_result R) : Prop :=
  op_flag r = f /\ SUNLinSolLastFlag_KLU (op_state r) = f /\
  first_factorize (op_state r) = first_factorize S /\
  symbolic (op_state r) = symbolic S /\
  numeric (op_state r) = numeric S /\
  common (op_state r) = common S /\
  klu_solver (op_state r) = klu_solver S /\
  op_calls r = [].

(** What the refactor entry point answers for the content [S] and the
    matrix [A]. *)
Definition refactor_of S A :=
  sun_klu_refactor (SUNSparseMatrix_IndexPointers A)
    (SUNSparseMatrix_IndexValues A) (SUNSparseMatrix_Data A)
    (symbolic S) (numeric S) (common S).

(** The states in which a first factorization has succeeded, with the KLU
    calls made so far: the content a successful first setup leaves, and
    every content reached from it by further setups, on whatever matrix,
    and by solves. *)
Inductive first_factorization_done
    : SUNLinearSolverContent_KLU R -> list klu_call -> Prop :=
  | ffd_first S0 A :
      first_factorize S0 <> 0 ->
      op_flag (SUNLinSolSetup_KLU S0 A) = SUNLS_SUCCESS ->
      first_factorization_done (op_state (SUNLinSolSetup_KLU S0 A))
        (op_calls (SUNLinSolSetup_KLU S0 A))
  | ffd_setup S log A :
      first_factorization_done S log ->
      first_factorization_done (op_state (SUNLinSolSetup_KLU S A))
        (log ++ op_calls (SUNLinSolSetup_KLU S A))
  | ffd_solve S log (M : option (SUNMatrix R))
        (x b : option (N_Vector R)) (tol : R) S' :
      first_factorization_done S log ->
      sv_state (SUNLinSolSolve_KLU (Some S) M x b tol) = Some S' ->
      first_factorization_done S'
        (log ++ sv_calls (SUNLinSolSolve_KLU (Some S) M x b tol)).

(** What a solve shows to its caller: the flag and the solution vector. *)
Definition solve_outcome (r : solve_result R) : Z * option (N_Vector R) :=
  (sv_flag r, sv_x r).

(** The flag solve derives from the [int] the KLU solve entry returns. *)
Definition solve_flag_of (flag : Z) : Z :=
  if flag =? 0 then SUNLS_PACKAGE_FAIL_REC else SUNLS_SUCCESS.
End KLU_Spec.

(** ** Concrete inputs in binary64 *)

Section KLU_Inputs.
Local Open Scope float_scope.

(** [[1 2; 3 4]]: the factorization pivots on the second row. *)
Definition A_1234 : SUNMatrix float := dense2 1 3 2 4.
(** [[1 2; 0 4]]: the second row can no longer serve as the pivot row,
    the first can. *)
Definition A_1204 : SUNMatrix float := dense2 1 0 2 4.
(** [diag(1, 2^-50)], ill-conditioned. *)
Definition A_ill : SUNMatrix float := dense2 1 0 0 0x1p-50.
(** [diag(4, 4)]. *)
Definition A_44 : SUNMatrix float := dense2 4 0 0 4.

(** The content after a first, successful setup on each of them. *)
Definition S_1234 : SUNLinearSolverContent_KLU float :=
  op_state (SUNLinSolSetup_KLU dense2_new A_1234).
Definition S_ill : SUNLinearSolverContent_KLU float :=
  op_state (SUNLinSolSetup_KLU dense2_new A_ill).

(** The [klu_common] block after the cheap and after the accurate
    condition estimate of [diag(1, 2^-50)]. *)
Definition common_ill_rcond : d2_common :=
  {| d2_ordering := 1; d2_rcond := 0x1p-50; d2_condest := 0 |}.
Definition common_ill_condest : d2_common :=
  {| d2_ordering := 1; d2_rcond := 0x1p-50; d2_condest := 0x1p+50 |}.

(** A vector that exposes its entries as an array, and one of a vector
    module that does not. *)
Definition nvec (l : list float) : N_Vector float :=
  {| nv_content := l; nv_has_array := true |}.
Definition nvec_opaque (l : list float) : N_Vector float :=
  {| nv_content := l; nv_has_array := false |}.
End KLU_Inputs.

Section KINBAND_Inputs.
Local Open Scope float_scope.

(** The vectors of a run: [u], [fu], [uscale], and the work vectors
  [tmp1] (used as [futemp]) and [tmp2] (used as [utemp]). *)
Definition id_u : vec_id := 0%nat.
Definition id_fu : vec_id := 1%nat.
Definition id_uscale : vec_id := 2%nat.
Definition id_tmp1 : vec_id := 3%nat.
Definition id_tmp2 : vec_id := 4%nat.

(** [v[k]] of a list of doubles, zero outside. *)
Definition nth_double (v : list float) (k : Z) : float :=
if (k <? 0)%Z then 0 else nth (Z.to_nat k) v 0.

(** The linear residual [F(v)_i = 2 v_i - v_(i-1) - v_(i+1)], whose Jacobian
  is the tridiagonal matrix [-1, 2, -1]. *)
Definition tridiag (v : list float) : list float :=
imap (λ k x, 2 * x - nth_double v (Z.of_nat k - 1)
             - nth_double v (Z.of_nat k + 1)) v.

Definition band_rec (N mu ml smu : Z) : KINBandMemRec float :=
{| b_n := N; b_jac := JAC_KINBandDQJac; b_J := None; b_mu := mu; b_ml := ml;
   b_storage_mu := smu; b_pivots := None; b_nje := 0; b_nfeB := 0;
   b_J_data := JDATA_kinmem; b_last_flag := KINBAND_SUCCESS |}.

Definition kin_mem_of (F : list float -> list float) (lm : KINBandMemRec float)
  : KINMem float :=
{| kin_func := F; kin_uscale := id_uscale; kin_sqrt_relfunc := 0x1p-26;
   kin_vtemp1_has_getarraypointer := true;
   kin_linit := Some LIN_KINBAND; kin_lsetup := Some LIN_KINBAND;
   kin_lsolve := Some LIN_KINBAND; kin_lfree := Some LIN_KINBAND;
   kin_lmem := Some lm; kin_inexact_ls := false; kin_setupNonNull := true |}.

Definition store_of (ud fud sd t1 t2 : list float) : vstore float :=
<[id_u := ud]> (<[id_fu := fud]> (<[id_uscale := sd]>
  (<[id_tmp1 := t1]> (<[id_tmp2 := t2]> ∅)))).

(** Dimension 10 with [ml = mu = 1], at [u = (1, ..., 1)] with unit scaling. *)
Definition ones10 : list float := replicate 10 1.
Definition zeros10 : list float := replicate 10 0.
Definition kin_mem10 : KINMem float := kin_mem_of tridiag (band_rec 10 1 1 2).
Definition store10 : vstore float :=
store_of ones10 (tridiag ones10) ones10 zeros10 zeros10.
Definition J10 : BandMat float :=
{| band_size := 10; band_mu := 1; band_ml := 1; band_smu := 2; band_data := ∅ |}.

(** Dimension 1 at [u = 0] with a zero scale factor, for the residual
  [F(v) = v]. *)
Definition kin_mem1 : KINMem float := kin_mem_of (λ v, v) (band_rec 1 0 0 0).
Definition store1 : vstore float := store_of [0] [0] [0] [0] [0].
Definition J1 : BandMat float :=
{| band_size := 1; band_mu := 0; band_ml := 0; band_smu := 0; band_data := ∅ |}.
(** The same at a subnormal scale factor. *)
Definition store_tiny : vstore float := store_of [0] [0] [0x1p-1060] [0] [0].

(** A solver memory before any linear solver is attached, and an allocator
  that succeeds. *)
Definition kin_mem_bare : KINMem float :=
{| kin_func := λ v, v; kin_uscale := id_uscale; kin_sqrt_relfunc := 0x1p-26;
   kin_vtemp1_has_getarraypointer := true;
   kin_linit := None; kin_lsetup := None; kin_lsolve := None;
   kin_lfree := None; kin_lmem := None; kin_inexact_ls := true;
   kin_setupNonNull := false |}.
Definition alloc_ok : alloc_outcome float :=
{| malloc_KINBandMemRec := Some (band_rec 0 0 0 0);
   BandAllocMat_ok := true; BandAllocPiv_ok := true |}.
End KINBAND_Inputs.

(** ** The remaining operations of the KLU solver *)

(** The identifiers [N_VGetVectorID] answers ([sundials_nvector.h]). *)
Inductive N_Vector_ID :=
  | SUNDIALS_NVEC_SERIAL | SUNDIALS_NVEC_PARALLEL | SUNDIALS_NVEC_OPENMP
  | SUNDIALS_NVEC_PTHREADS | SUNDIALS_NVEC_PARHYP | SUNDIALS_NVEC_PETSC
  | SUNDIALS_NVEC_CUSTOM.

(** [SUNKLU_ORDERING_DEFAULT] of [sunlinsol_klu.h] (COLAMD). *)
Definition SUNKLU_ORDERING_DEFAULT : Z := 1.

(** [SUNLinearSolver_Type] of [sundials_linearsolver.h]. *)
Inductive SUNLinearSolver_Type :=
  | SUNLINEARSOLVER_DIRECT | SUNLINEARSOLVER_ITERATIVE | SUNLINEARSOLVER_CUSTOM.

(** Which of the optional vector modules the library was built with. *)
Record klu_build := {
  SUNDIALS_OPENMP_ENABLED : bool;
  SUNDIALS_PTHREADS_ENABLED : bool
}.

(** Whether each of the three [malloc] calls of the constructor succeeds. *)
Record SUNKLU_alloc := {
  malloc_S : bool;
  malloc_ops : bool;
  malloc_content : bool
}.

Section KLU_More.
Context {R : Type} `{RealType R} `{Roundoff R} `{KLUPackage R}.

(** The chain of tests on [N_VGetVectorID(y)]: the length of [y] when its
    module is one the constructor knows, nothing otherwise. *)
Definition SUNKLU_VecLength (cfg : klu_build) (y_id : N_Vector_ID)
    (y : N_Vector R) : option Z :=
  match y_id with
  | SUNDIALS_NVEC_SERIAL => Some (Z.of_nat (length (nv_content y)))
  | SUNDIALS_NVEC_OPENMP =>
      if SUNDIALS_OPENMP_ENABLED cfg
      then Some (Z.of_nat (length (nv_content y))) else None
  | SUNDIALS_NVEC_PTHREADS =>
      if SUNDIALS_PTHREADS_ENABLED cfg
      then Some (Z.of_nat (length (nv_content y))) else None
  | _ => None
  end.

(** [SUNKLU(y, A)]: the content of the new solver, or [NULL].  [y_id] is
    what [N_VGetVectorID(y)] answers and [defaults] what
    [sun_klu_defaults] answers for the [klu_common] block of the fresh
    content: its flag and the block it filled. *)
Definition SUNKLU (cfg : klu_build) (al : SUNKLU_alloc)
    (defaults : Z * klu_common) (y_id : N_Vector_ID) (y : N_Vector R)
    (A : SUNMatrix R) : option (SUNLinearSolverContent_KLU R) :=
  (* Check compatibility with supplied SUNMatrix and N_Vector *)
  if negb (is_SUNMATRIX_SPARSE (SUNMatGetID A)) then None
  else
    let MatrixRows := SM_ROWS (mat_content A) in
    let MatrixCols := SM_COLUMNS (mat_content A) in
    match SUNKLU_VecLength cfg y_id y with
    | None => None
    | Some VecLength =>
        if negb (MatrixRows =? MatrixCols) || negb (MatrixRows =? VecLength)
        then None
        else if negb (malloc_S al) then None
        else if negb (malloc_ops al) then None
        else if negb (malloc_content al) then None
        else
          let '(flag, c) := defaults in
          if flag =? 0 then None
          else
            Some {| last_flag := 0; first_factorize := 1;
                    symbolic := None; numeric := None;
                    common := common_set_ordering SUNKLU_ORDERING_DEFAULT c;
                    klu_solver :=
                      if SM_SPARSETYPE (mat_content A) =? CSC_MAT
                      then KLU_SOLVE else KLU_TSOLVE |}
    end.

(** What a re-initialization hands back: the flag, the content of a
    non-[NULL] handle, whether the caller's matrix has been destroyed, the
    matrix the parameter [A] names when the function returns, and the KLU
    calls made. *)
Record reinit_result := {
  ri_flag : Z;
  ri_state : option (SUNLinearSolverContent_KLU R);
  ri_destroyed : bool;
  ri_A : option (SUNMatrix R);
  ri_calls : list klu_call
}.

(** [SUNKLUReInit(S, A, nnz, reinit_type)].  [SUNSparseMatrix] is the
    allocator of the matrix module: [SUNSparseMatrix n n nnz type] is the
    new matrix or [NULL]. *)
Definition SUNKLUReInit
    (SUNSparseMatrix : Z -> Z -> Z -> Z -> option (SUNMatrix R))
    (S : option (SUNLinearSolverContent_KLU R)) (A : option (SUNMatrix R))
    (nnz reinit_type : Z) : reinit_result :=
  match S, A with
  | Some S', Some A' =>
      if negb (is_SUNMATRIX_SPARSE (SUNMatGetID A')) then
        {| ri_flag := SUNLS_ILL_INPUT; ri_state := S; ri_destroyed := false;
           ri_A := A; ri_calls := [] |}
      else if negb (reinit_type =? 1) && negb (reinit_type =? 2) then
        {| ri_flag := SUNLS_ILL_INPUT; ri_state := S; ri_destroyed := false;
           ri_A := A; ri_calls := [] |}
      else
        let n := SM_ROWS (mat_content A') in
        let type := SM_SPARSETYPE (mat_content A') in
        let newA := if reinit_type =? 1 then SUNSparseMatrix n n nnz type
                    else A in
        let destroyed := reinit_type =? 1 in
        match newA with
        | None =>
            {| ri_flag := SUNLS_MEM_FAIL; ri_state := S;
               ri_destroyed := destroyed; ri_A := None; ri_calls := [] |}
        | Some _ =>
            (* Free the prior factorization and reset for first factorization *)
            let '(S1, l1) := free_symbolic_if_set S' in
            let '(S2, l2) := free_numeric_if_set S1 in
            let S3 := set_first_factorize 1 S2 in
            {| ri_flag := SUNLS_SUCCESS;
               ri_state := Some (set_last_flag SUNLS_SUCCESS S3);
               ri_destroyed := destroyed; ri_A := newA;
               ri_calls := l1 ++ l2 |}
        end
  | _, _ =>
      {| ri_flag := SUNLS_MEM_NULL; ri_state := S; ri_destroyed := false;
         ri_A := A; ri_calls := [] |}
  end.

Definition SUNLinSolGetType_KLU (S : SUNLinearSolverContent_KLU R)
    : SUNLinearSolver_Type := SUNLINEARSOLVER_DIRECT.
Definition SUNLinSolNumIters_KLU (S : SUNLinearSolverContent_KLU R) : Z := 0.
Definition SUNLinSolResNorm_KLU (S : SUNLinearSolverContent_KLU R) : R := ZERO.
Definition SUNLinSolNumPSolves_KLU (S : SUNLinearSolverContent_KLU R) : Z := 0.

(** [SUNLinSolFree_KLU(S)] for a handle that is [NULL], or has no content,
    or has one: the flag and the KLU calls made. *)
Definition SUNLinSolFree_KLU
    (S : option (option (SUNLinearSolverContent_KLU R))) : Z * list klu_call :=
  match S with
  | None => (SUNLS_SUCCESS, [])
  | Some None => (SUNLS_SUCCESS, [])
  | Some (Some S') =>
      let '(S1, l1) := free_numeric_if_set S' in
      let '(S2, l2) := free_symbolic_if_set S1 in
      (SUNLS_SUCCESS, l1 ++ l2)
  end.

(** What a caller may ask of a solver it holds. *)
Inductive klu_request :=
  | Req_Initialize
  | Req_Setup (A : SUNMatrix R)
  | Req_Solve (A : option (SUNMatrix R)) (x b : option (N_Vector R)) (tol : R)
  | Req_SetATimes | Req_SetPreconditioner | Req_SetScalingVectors
  | Req_SetOrdering (ordering_choice : Z)
  | Req_ReInit (alloc : Z -> Z -> Z -> Z -> option (SUNMatrix R))
               (A : option (SUNMatrix R)) (nnz reinit_type : Z).

(** The content after one request, and the KLU calls the request made. *)
Definition serve (S : SUNLinearSolverContent_KLU R) (q : klu_request)
    : SUNLinearSolverContent_KLU R * list klu_call :=
  let of_op (r : op_result R) := (op_state r, op_calls r) in
  match q with
  | Req_Initialize => of_op (SUNLinSolInitialize_KLU S)
  | Req_Setup A => of_op (SUNLinSolSetup_KLU S A)
  | Req_Solve A x b tol =>
      let r := SUNLinSolSolve_KLU (Some S) A x b tol in
      (default S (sv_state r), sv_calls r)
  | Req_SetATimes => of_op (SUNLinSolSetATimes_KLU S)
  | Req_SetPreconditioner => of_op (SUNLinSolSetPreconditioner_KLU S)
  | Req_SetScalingVectors => of_op (SUNLinSolSetScalingVectors_KLU S)
  | Req_SetOrdering oc => (default S (SUNKLUSetOrdering (Some S) oc).2, [])
  | Req_ReInit alloc A nnz ty =>
      let r := SUNKLUReInit alloc (Some S) A nnz ty in
      (default S (ri_state r), ri_calls r)
  end.

(** The content after a sequence of requests, and all KLU calls in order. *)
Fixpoint serve_all (S : SUNLinearSolverContent_KLU R) (qs : list klu_request)
    : SUNLinearSolverContent_KLU R * list klu_call :=
  match qs with
  | [] => (S, [])
  | q :: rest =>
      let '(S1, l1) := serve S q in
      let '(S2, l2) := serve_all S1 rest in
      (S2, l1 ++ l2)
  end.
End KLU_More.

Arguments reinit_result R {_}.
Arguments klu_request R : clear implicits.

(** ** The remaining routines of the KINBAND solver *)

(** The band routines of [band.h] that setup and solve call; the band module
    is a library of its own.  [BandFactor] overwrites the matrix with its
    factors and fills the pivot array; [BandBacksolve] overwrites the
    right-hand side. *)
Class BandKernel (R : Type) := {
  BandZero : BandMat R -> BandMat R;
  BandFactor : BandMat R -> list Z -> Z * BandMat R * list Z;
  BandBacksolve : BandMat R -> list Z -> list R -> list R
}.

(** The operations of the vector module that solve calls, on data arrays:
    [N_VProd(x, y, z)] gives the new content of [z]. *)
Class NVectorKernel (R : Type) := {
  N_VProd : list R -> list R -> list R;
  N_VWL2Norm : list R -> list R -> R;
  N_VDotProd : list R -> list R -> R
}.

(** Arithmetic on [long int].  The type holds the integers from
    [-LONG_MAX - 1] to [LONG_MAX], where [LONG_MAX] is [2^31 - 1] or
    [2^63 - 1] with the platform; a sum or product outside of that range is
    undefined in C and has no value here. *)
Section Long_Int.
Variable LONG_MAX : Z.

Definition in_long (z : Z) : bool := (- LONG_MAX - 1 <=? z) && (z <=? LONG_MAX).

Definition long_add (a b : Z) : option Z :=
  if in_long (a + b) then Some (a + b) else None.

Definition long_mul (a b : Z) : option Z :=
  if in_long (a * b) then Some (a * b) else None.
End Long_Int.

Section KINBAND_More.
Context {R : Type} `{RealType R} `{BandKernel R} `{NVectorKernel R}.

(** The vectors of [kin_mem] that setup and solve name. *)
Record KINVectors := {
  kin_uu : vec_id;
  kin_fval : vec_id;
  kin_fscale : vec_id;
  kin_vtemp1 : vec_id;
  kin_vtemp2 : vec_id
}.

Definition set_b_jac (f : jac_fn) (m : KINBandMemRec R) : KINBandMemRec R :=
  {| b_n := b_n m; b_jac := f; b_J := b_J m; b_mu := b_mu m;
     b_ml := b_ml m; b_storage_mu := b_storage_mu m; b_pivots := b_pivots m;
     b_nje := b_nje m; b_nfeB := b_nfeB m; b_J_data := b_J_data m;
     b_last_flag := b_last_flag m |}.

Definition set_b_J_data (d : jac_data_ptr) (m : KINBandMemRec R)
    : KINBandMemRec R :=
  {| b_n := b_n m; b_jac := b_jac m; b_J := b_J m; b_mu := b_mu m;
     b_ml := b_ml m; b_storage_mu := b_storage_mu m; b_pivots := b_pivots m;
     b_nje := b_nje m; b_nfeB := b_nfeB m; b_J_data := d;
     b_last_flag := b_last_flag m |}.

Definition set_b_counters (nje nfeB : Z) (m : KINBandMemRec R)
    : KINBandMemRec R :=
  {| b_n := b_n m; b_jac := b_jac m; b_J := b_J m; b_mu := b_mu m;
     b_ml := b_ml m; b_storage_mu := b_storage_mu m; b_pivots := b_pivots m;
     b_nje := nje; b_nfeB := nfeB; b_J_data := b_J_data m;
     b_last_flag := b_last_flag m |}.

Definition set_b_last_flag (f : Z) (m : KINBandMemRec R) : KINBandMemRec R :=
  {| b_n := b_n m; b_jac := b_jac m; b_J := b_J m; b_mu := b_mu m;
     b_ml := b_ml m; b_storage_mu := b_storage_mu m; b_pivots := b_pivots m;
     b_nje := b_nje m; b_nfeB := b_nfeB m; b_J_data := b_J_data m;
     b_last_flag := f |}.

Definition set_b_factors (J : BandMat R) (p : list Z) (m : KINBandMemRec R)
    : KINBandMemRec R :=
  {| b_n := b_n m; b_jac := b_jac m; b_J := Some J; b_mu := b_mu m;
     b_ml := b_ml m; b_storage_mu := b_storage_mu m; b_pivots := Some p;
     b_nje := b_nje m; b_nfeB := b_nfeB m; b_J_data := b_J_data m;
     b_last_flag := b_last_flag m |}.

(** [KINBandSetJacFn(kinmem, bjac, jac_data)]: the flag and the solver
    memory after the call. *)
Definition KINBandSetJacFn (kinmem : option (KINMem R)) (bjac : jac_fn)
    (jac_data : jac_data_ptr) : Z * option (KINMem R) :=
  match kinmem with
  | None => (KINBAND_MEM_NULL, None)
  | Some kin_mem =>
      match kin_lmem kin_mem with
      | None => (KINBAND_LMEM_NULL, Some kin_mem)
      | Some kinband_mem =>
          let kinband_mem := set_b_jac bjac kinband_mem in
          let kinband_mem :=
            match bjac with
            | JAC_NULL => kinband_mem
            | _ => set_b_J_data jac_data kinband_mem
            end in
          (KINBAND_SUCCESS, Some (set_kin_lmem (Some kinband_mem) kin_mem))
      end
  end.

(** The common frame of the four [Get] routines: the flag and what is
    written through the output pointers, if anything. *)
Definition KINBandGet {X : Type} (kinmem : option (KINMem R))
    (read : KINBandMemRec R -> X) : Z * option X :=
  match kinmem with
  | None => (KINBAND_MEM_NULL, None)
  | Some kin_mem =>
      match kin_lmem kin_mem with
      | None => (KINBAND_LMEM_NULL, None)
      | Some kinband_mem => (KINBAND_SUCCESS, Some (read kinband_mem))
      end
  end.

(** [KINBandGetWorkSpace]: the flag and [(lenrwB, leniwB)].  The frame is
    that of the other [Get] routines;
    [*lenrwB = n*(storage_mu + mu + 2*ml + 2)] is computed in [long int],
    and the call has no defined result when a step of it overflows. *)
Definition KINBandGetWorkSpace (LONG_MAX : Z) (kinmem : option (KINMem R))
    : option (Z * option (Z * Z)) :=
  match kinmem with
  | None => Some (KINBAND_MEM_NULL, None)
  | Some kin_mem =>
      match kin_lmem kin_mem with
      | None => Some (KINBAND_LMEM_NULL, None)
      | Some kinband_mem =>
          t1 ← long_add LONG_MAX (b_storage_mu kinband_mem) (b_mu kinband_mem);
          t2 ← long_mul LONG_MAX 2 (b_ml kinband_mem);
          t3 ← long_add LONG_MAX t1 t2;
          t4 ← long_add LONG_MAX t3 2;
          lenrwB ← long_mul LONG_MAX (b_n kinband_mem) t4;
          Some (KINBAND_SUCCESS, Some (lenrwB, b_n kinband_mem))
      end
  end.

Definition KINBandGetNumJacEvals (kinmem : option (KINMem R)) : Z * option Z :=
  KINBandGet kinmem b_nje.

Definition KINBandGetNumFuncEvals (kinmem : option (KINMem R)) : Z * option Z :=
  KINBandGet kinmem b_nfeB.

Definition KINBandGetLastFlag (kinmem : option (KINMem R)) : Z * option Z :=
  KINBandGet kinmem b_last_flag.

(** [KINBandInit(kin_mem)]; it reads [lmem] without testing it. *)
Definition KINBandInit (kin_mem : KINMem R) : option (Z * KINMem R) :=
  kinband_mem ← kin_lmem kin_mem;
  let kinband_mem := set_b_counters 0 0 kinband_mem in
  let kinband_mem :=
    match b_jac kinband_mem with
    | JAC_NULL =>
        set_b_J_data JDATA_kinmem (set_b_jac JAC_KINBandDQJac kinband_mem)
    | _ => kinband_mem
    end in
  let kinband_mem := set_b_last_flag KINBAND_SUCCESS kinband_mem in
  Some (0, set_kin_lmem (Some kinband_mem) kin_mem).

(** What setup and solve hand back: the [int] result, the solver memory,
    the vector store and, for setup, the arguments of the residual calls
    the difference-quotient routine made. *)
Record kb_result := {
  kb_ret : Z;
  kb_kin_mem : KINMem R;
  kb_store : vstore R;
  kb_evals : list (list R)
}.

Section Setup.
(** A Jacobian routine of the user: the [int] it returns, the matrix and
    the vectors as it leaves them. *)
Variable user_jac : Z -> Z -> Z -> BandMat R -> vec_id -> vec_id ->
                    vec_id -> vec_id -> vstore R ->
                    Z * BandMat R * vstore R.

(** [jac(n, mu, ml, J, uu, fval, J_data, vtemp1, vtemp2)]: the matrix,
    the solver memory, the store and the residual calls afterwards.  The
    value the routine returns is dropped by the caller.  Calling a [NULL]
    routine, or the difference-quotient routine with data that is not
    [kin_mem], is undefined. *)
Definition call_jac (kin_mem : KINMem R) (kinband_mem : KINBandMemRec R)
    (J : BandMat R) (v : KINVectors) (st : vstore R)
    : option (BandMat R * KINMem R * vstore R * list (list R)) :=
  match b_jac kinband_mem with
  | JAC_NULL => None
  | JAC_KINBandDQJac =>
      match b_J_data kinband_mem with
      | JDATA_kinmem =>
          r ← KINBandDQJac (b_n kinband_mem) (b_mu kinband_mem)
                (b_ml kinband_mem) J (kin_uu v) (kin_fval v) kin_mem
                (kin_vtemp1 v) (kin_vtemp2 v) st;
          Some (dqr_J r, dqr_kin_mem r, dqr_store r, dqr_evals r)
      | JDATA_user => None
      end
  | JAC_user =>
      let '(_, J', st') :=
        user_jac (b_n kinband_mem) (b_mu kinband_mem) (b_ml kinband_mem) J
          (kin_uu v) (kin_fval v) (kin_vtemp1 v) (kin_vtemp2 v) st in
      Some (J', kin_mem, st', [])
  end.

(** [KINBandSetup(kin_mem)]. *)
Definition KINBandSetup (kin_mem : KINMem R) (v : KINVectors)
    (st : vstore R) : option kb_result :=
  kinband_mem ← kin_lmem kin_mem;
  (* nje++ *)
  let kinband_mem :=
    set_b_counters (b_nje kinband_mem + 1) (b_nfeB kinband_mem) kinband_mem in
  let kin_mem := set_kin_lmem (Some kinband_mem) kin_mem in
  J ← b_J kinband_mem;
  pivots ← b_pivots kinband_mem;
  let J := BandZero J in
  '(J, kin_mem, st, evals) ← call_jac kin_mem kinband_mem J v st;
  kinband_mem ← kin_lmem kin_mem;
  (* Do LU factorization of J *)
  let '(ier, J, pivots) := BandFactor J pivots in
  (* Return 0 if the LU was complete; otherwise return 1 *)
  let kinband_mem := set_b_last_flag ier (set_b_factors J pivots kinband_mem) in
  Some {| kb_ret := if 0 <? ier then 1 else 0;
          kb_kin_mem := set_kin_lmem (Some kinband_mem) kin_mem;
          kb_store := st; kb_evals := evals |}.
End Setup.

(** The two terms solve leaves in [kin_mem] for the global strategy. *)
Record kb_solve_result := {
  ks_ret : Z;
  ks_kin_mem : KINMem R;
  ks_store : vstore R;
  ks_sJpnorm : R;
  ks_sfdotJp : R
}.

(** [N_VScale(ONE, b, x)] on the store, for vectors of one length. *)
Definition N_VScale_ONE_store (st : vstore R) (b x : vec_id)
    : option (vstore R) :=
  bd ← st !! b;
  xd ← st !! x;
  if negb (length xd =? length bd)%nat then None else Some (<[x := bd]> st).

(** [N_VProd(x, y, z)] on the store. *)
Definition N_VProd_store (st : vstore R) (x y z : vec_id) : option (vstore R) :=
  xd ← st !! x;
  yd ← st !! y;
  _ ← st !! z;
  Some (<[z := N_VProd xd yd]> st).

(** [KINBandSolve(kin_mem, x, b, res_norm)]; [res_norm] is not used. *)
Definition KINBandSolve (kin_mem : KINMem R) (v : KINVectors)
    (x b : vec_id) (st : vstore R) : option kb_solve_result :=
  kinband_mem ← kin_lmem kin_mem;
  (* Copy the right-hand side into x *)
  st ← N_VScale_ONE_store st b x;
  xd ← st !! x;
  (* Back-solve and get solution in x *)
  J ← b_J kinband_mem;
  pivots ← b_pivots kinband_mem;
  let st := <[x := BandBacksolve J pivots xd]> st in
  bd ← st !! b;
  fs ← st !! kin_fscale v;
  let sJpnorm := N_VWL2Norm bd fs in
  st ← N_VProd_store st b (kin_fscale v) b;
  st ← N_VProd_store st b (kin_fscale v) b;
  fv ← st !! kin_fval v;
  bd ← st !! b;
  let sfdotJp := N_VDotProd fv bd in
  let kinband_mem := set_b_last_flag KINBAND_SUCCESS kinband_mem in
  Some {| ks_ret := 0;
          ks_kin_mem := set_kin_lmem (Some kinband_mem) kin_mem;
          ks_store := st; ks_sJpnorm := sJpnorm; ks_sfdotJp := sfdotJp |}.

(** What the nonlinear solver and its user ask of the band solver, and
    the solver memory and the store after each request; [None] where the
    C code is undefined. *)
Inductive kb_request :=
  | Kb_KINBand (al : alloc_outcome R) (N mupper mlower : Z)
  | Kb_SetJacFn (bjac : jac_fn) (jac_data : jac_data_ptr)
  | Kb_Init
  | Kb_Setup
  | Kb_Solve (x b : vec_id).

(** A setup request. *)
Definition is_Kb_Setup (q : kb_request) : bool :=
  match q with Kb_Setup => true | _ => false end.

Section Requests.
Variable foreign_lfree : KINMem R -> KINMem R.
Variable user_jac : Z -> Z -> Z -> BandMat R -> vec_id -> vec_id ->
                    vec_id -> vec_id -> vstore R ->
                    Z * BandMat R * vstore R.
Variable v : KINVectors.

Definition kb_serve (s : KINMem R * vstore R) (q : kb_request)
    : option (KINMem R * vstore R) :=
  let '(kin_mem, st) := s in
  match q with
  | Kb_KINBand al N mupper mlower =>
      km ← (KINBand foreign_lfree (Some kin_mem) al N mupper mlower).2;
      Some (km, st)
  | Kb_SetJacFn bjac jac_data =>
      km ← (KINBandSetJacFn (Some kin_mem) bjac jac_data).2;
      Some (km, st)
  | Kb_Init =>
      r ← KINBandInit kin_mem; Some (r.2, st)
  | Kb_Setup =>
      r ← KINBandSetup user_jac kin_mem v st;
      Some (kb_kin_mem r, kb_store r)
  | Kb_Solve x b =>
      r ← KINBandSolve kin_mem v x b st;
      Some (ks_kin_mem r, ks_store r)
  end.

Fixpoint kb_serve_all (s : KINMem R * vstore R) (qs : list kb_request)
    : option (KINMem R * vstore R) :=
  match qs with
  | [] => Some s
  | q :: rest => s' ← kb_serve s q; kb_serve_all s' rest
  end.
End Requests.
End KINBAND_More.

Arguments kb_result R : clear implicits.
Arguments kb_solve_result R : clear implicits.
Arguments kb_request R : clear implicits.

(** ** Stand-ins for the band and vector modules

    Both modules are libraries of their own.  To run setup and solve on
    concrete data we use the band routines restricted to matrices of
    bandwidth zero, where the factorization is the diagonal itself, and the
    loops of the serial vector module. *)
Section Diag_Serial.
Context {R : Type} `{RealType R}.

Definition diag_is_zero (x : R) : bool :=
  negb (Rltb x ZERO) && negb (Rltb ZERO x).

Definition diag_entry (J : BandMat R) (k : Z) : R :=
  default ZERO (band_data J !! (k, k)).

(** The one-based index of the first zero pivot among columns [k, ...],
    or zero. *)
Fixpoint diag_first_zero (J : BandMat R) (k : Z) (fuel : nat) : Z :=
  match fuel with
  | O => 0
  | S fuel' =>
      if diag_is_zero (diag_entry J k) then k + 1
      else diag_first_zero J (k + 1) fuel'
  end.

#[export] Instance Diag_Band : BandKernel R := {
  BandZero := λ J,
    band_with_data J
      (foldr (λ k d, <[(Z.of_nat k, Z.of_nat k) := ZERO]> d) ∅
             (seq 0 (Z.to_nat (band_size J))));
  BandFactor := λ J p,
    (diag_first_zero J 0 (Z.to_nat (band_size J)), J,
     imap (λ k _, Z.of_nat k) p);
  BandBacksolve := λ J p x,
    imap (λ k xk, Rdiv xk (diag_entry J (Z.of_nat k))) x
}.

Section Sqrt.
Variable RSqrt : R -> R.

(** [N_VProd], [N_VWL2Norm] and [N_VDotProd] of the serial module. *)
Definition Serial_NVector : NVectorKernel R := {|
  N_VProd := λ x y, zip_with Rmul x y;
  N_VWL2Norm := λ x w,
    RSqrt (foldl (λ sum p, Radd sum (Rmul p p)) ZERO (zip_with Rmul x w));
  N_VDotProd := λ x y, foldl Radd ZERO (zip_with Rmul x y)
|}.
End Sqrt.
End Diag_Serial.

#[export] Instance Serial_NVector_double : NVectorKernel float :=
  Serial_NVector PrimFloat.sqrt.

(** ** Band-local residuals *)

Section DQ_Spec_More.
Context {R : Type} `{RealType R}.

Variables (sqrt_relfunc : R) (F : list R -> list R) (n mupper mlower : Z).
Variables (ud sd : list R).

(** [u] with column [j] alone perturbed. *)
Definition perturbed_one (j : Z) : list R :=
  imap (λ k x, if Z.of_nat k =? j
               then Radd x (inc_spec sqrt_relfunc ud sd (Z.of_nat k)) else x) ud.

(** Component [i] of the residual reads its argument only in the columns
    [i - mlower .. i + mupper], those of the band of row [i]. *)
Definition band_local : Prop :=
  forall (a b : list R) (i : Z),
    Z.of_nat (length a) = n -> Z.of_nat (length b) = n -> 0 <= i < n ->
    (forall k, 0 <= k < n -> i - mlower <= k <= i + mupper ->
               vnth a k = vnth b k) ->
    vnth (F a) i = vnth (F b) i.
End DQ_Spec_More.

(** ** Further concrete inputs in binary64 *)

Section KLU_More_Inputs.
Local Open Scope float_scope.

(** [[1 0.3; 3 0.9]] in binary64: the two columns are parallel up to
    rounding.  With the first row kept as the pivot row the second pivot is
    2^-53; with the second row, which a fresh factorization picks, it is
    zero. *)
Definition A_near : SUNMatrix float :=
  dense2 1 3 0x1.3333333333333p-2 0x1.ccccccccccccdp-1.

(** The content after a first, successful setup on [diag(4, 4)], which
    pivots on the first row. *)
Definition S_44 : SUNLinearSolverContent_KLU float :=
  op_state (SUNLinSolSetup_KLU dense2_new A_44).

(** A build without the optional vector modules, allocations that succeed,
    and the [klu_common] block [klu_defaults] fills. *)
Definition build_serial : klu_build :=
  {| SUNDIALS_OPENMP_ENABLED := false; SUNDIALS_PTHREADS_ENABLED := false |}.
Definition malloc_ok : SUNKLU_alloc :=
  {| malloc_S := true; malloc_ops := true; malloc_content := true |}.
Definition d2_defaults : Z * d2_common :=
  (1%Z, {| d2_ordering := 0; d2_rcond := 0; d2_condest := 0 |}).
End KLU_More_Inputs.

Section KINBAND_More_Inputs.
Local Open Scope float_scope.

(** Three more vectors: [fscale], and the solution and right-hand side of
    a solve. *)
Definition id_fscale : vec_id := 5%nat.
Definition id_x : vec_id := 6%nat.
Definition id_b : vec_id := 7%nat.

(** The vectors of [kin_mem] as setup and solve name them. *)
Definition kin_vecs : KINVectors :=
  {| kin_uu := id_u; kin_fval := id_fu; kin_fscale := id_fscale;
     kin_vtemp1 := id_tmp1; kin_vtemp2 := id_tmp2 |}.

(** A Jacobian routine of the user that leaves everything as it is and
    reports a failure. *)
Definition jac_noop (N mupper mlower : Z) (J : BandMat float)
    (u fu tmp1 tmp2 : vec_id) (st : vstore float)
    : Z * BandMat float * vstore float := (1%Z, J, st).

(** Dimension 3 with bandwidth zero for the residual [F(v) = v], at
    [u = (1, 2, 4)] with unit scaling; the right-hand side of the solve is
    [(2, 4, 8)] and [fscale = (1, 2, 3)]. *)
Definition store3 : vstore float :=
  <[id_fscale := [1; 2; 3]]> (<[id_x := [0; 0; 0]]> (<[id_b := [2; 4; 8]]>
    (store_of [1; 2; 4] [1; 2; 4] [1; 1; 1] [0; 0; 0] [0; 0; 0]))).

(** The solver memory after [KINBand] with [N = 5], [mupper = mlower = 1],
    and after [KINBand] with [N = 3], [mupper = mlower = 0] and
    [KINBandInit]. *)
Definition kin_mem5 : KINMem float :=
  default kin_mem_bare (KINBand (λ km, km) (Some kin_mem_bare) alloc_ok 5 1 1).2.
Definition state3 : KINMem float * vstore float :=
  default (kin_mem_bare, store3)
    (kb_serve_all (λ km, km) jac_noop kin_vecs (kin_mem_bare, store3)
       [Kb_KINBand alloc_ok 3 0 0; Kb_Init]).
Definition rec3 : KINBandMemRec float :=
  default (band_rec 0 0 0 0) (kin_lmem state3.1).
Definition J3 : BandMat float :=
  {| band_size := 3; band_mu := 0; band_ml := 0; band_smu := 0;
     band_data := ∅ |}.

(** The same after a setup. *)
Definition state3_setup : KINMem float * vstore float :=
  default state3 (kb_serve (λ km, km) jac_noop kin_vecs state3 Kb_Setup).
Definition rec3_setup : KINBandMemRec float :=
  default (band_rec 0 0 0 0) (kin_lmem state3_setup.1).

(** An allocator whose block for the record holds stale counters. *)
Definition alloc_stale : alloc_outcome float :=
  {| malloc_KINBandMemRec :=
       Some {| b_n := 0; b_jac := JAC_NULL; b_J := None; b_mu := 0;
               b_ml := 0; b_storage_mu := 0; b_pivots := None;
               b_nje := 17; b_nfeB := 99; b_J_data := JDATA_user;
               b_last_flag := -1 |};
     BandAllocMat_ok := true; BandAllocPiv_ok := true |}.
Definition kin_mem5_stale : KINMem float :=
  default kin_mem_bare
    (KINBand (λ km, km) (Some kin_mem_bare) alloc_stale 5 1 1).2.

(** A Jacobian routine of the user that leaves everything as it is and
    reports success, and the dimension-3 solver memory with a routine of
    the user set. *)
Definition jac_noop_ok (N mupper mlower : Z) (J : BandMat float)
    (u fu tmp1 tmp2 : vec_id) (st : vstore float)
    : Z * BandMat float * vstore float := (0%Z, J, st).
Definition kin_mem3_user : KINMem float :=
  default state3.1 (KINBandSetJacFn (Some state3.1) JAC_user JDATA_user).2.
Definition rec3_user : KINBandMemRec float :=
  default (band_rec 0 0 0 0) (kin_lmem kin_mem3_user).
End KINBAND_More_Inputs.

(** * Properties *)

(** ** The KLU solver *)

Section KLU_Properties.
Context {R : Type} `{RealType R} `{Roundoff R} `{KLUPackage R}.

Implicit Types (S : SUNLinearSolverContent_KLU R) (A : SUNMatrix R).

Lemma return_flag_only_sets_flag f S : only_sets_flag f S (return_flag f S []).
Proof. unfold only_sets_flag; simpl; tauto. Qed.

(** C10.  For every KLU solver content, SetATimes, SetPreconditioner and
    SetScalingVectors each return SUNLS_ILL_INPUT, record it as the last
    flag and change nothing else of the solver (and call nothing of KLU). *)
Theorem iterative_setters_rejected S :
  only_sets_flag SUNLS_ILL_INPUT S (SUNLinSolSetATimes_KLU S) /\
  only_sets_flag SUNLS_ILL_INPUT S (SUNLinSolSetPreconditioner_KLU S) /\
  only_sets_flag SUNLS_ILL_INPUT S (SUNLinSolSetScalingVectors_KLU S).
Proof.
  split; [|split]; apply return_flag_only_sets_flag.
Qed.

Lemma setup_not_first S A :
  is_SUNMATRIX_SPARSE (SUNMatGetID A) = true -> first_factorize S = 0 ->
  SUNLinSolSetup_KLU S A = setup_refactor A S.
Proof.
  intros Hsp Hff. unfold SUNLinSolSetup_KLU. rewrite Hsp, Hff. reflexivity.
Qed.

Lemma setup_is_first S A :
  is_SUNMATRIX_SPARSE (SUNMatGetID A) = true -> first_factorize S <> 0 ->
  SUNLinSolSetup_KLU S A = setup_first A S.
Proof.
  intros Hsp Hff. unfold SUNLinSolSetup_KLU. rewrite Hsp. simpl.
  destruct (first_factorize S =? 0) eqn:E; [apply Z.eqb_eq in E; lia | reflexivity].
Qed.

(** C1 (as amended).  On a non-first setup whose numeric re-factorization
    reports failure, setup records and returns the recoverable failure at
    once: the only KLU call made is the refactor, so no symbolic analysis
    and no full factorization is attempted, and the symbolic object and the
    first-factorization flag stay as they were. *)
Theorem refactor_failure_returns_recoverable S A :
  is_SUNMATRIX_SPARSE (SUNMatGetID A) = true ->
  first_factorize S = 0 ->
  (refactor_of S A).1.1 = 0 ->
  let r := SUNLinSolSetup_KLU S A in
  op_flag r = SUNLS_PACKAGE_FAIL_REC /\
  SUNLinSolLastFlag_KLU (op_state r) = SUNLS_PACKAGE_FAIL_REC /\
  op_calls r = [CallRefactor] /\
  symbolic (op_state r) = symbolic S /\
  first_factorize (op_state r) = 0.
Proof.
  intros Hsp Hff Hre. rewrite (setup_not_first _ _ Hsp Hff).
  unfold setup_refactor, refactor_of in *.
  destruct (sun_klu_refactor _ _ _ _ _ _) as [[rv nu] c]. simpl in Hre.
  subst rv. simpl. auto.
Qed.

(** C2.  On every non-first setup whose re-factorization succeeds, the
    numeric factorization is freed and computed anew by [factor] exactly
    when the cheap estimate is computed (the [rcond] call reports success)
    and has [rcond < uround^(2/3)] and the accurate estimate is computed
    (the [condest] call reports success) and has
    [condest > 1/uround^(2/3)].  In every other case the re-factorized
    numeric object is kept and nothing is freed: when [rcond] is not below
    the threshold the accurate estimate is not computed and setup succeeds;
    when the accurate estimate is not above the reciprocal setup succeeds;
    and when an estimate call reports failure there is no estimate to
    compare and setup returns the recoverable failure at once. *)
Theorem refactor_recomputes_iff_ill_conditioned S A :
  is_SUNMATRIX_SPARSE (SUNMatGetID A) = true ->
  first_factorize S = 0 ->
  (refactor_of S A).1.1 <> 0 ->
  let thr := SUNRpowerR UNIT_ROUNDOFF TWOTHIRDS in
  let nu1 := (refactor_of S A).1.2 in
  let rc := sun_klu_rcond (symbolic S) nu1 (refactor_of S A).2 in
  let ce := sun_klu_condest (SUNSparseMatrix_IndexPointers A)
              (SUNSparseMatrix_Data A) (symbolic S) nu1 rc.2 in
  let low := rc.1 <> 0 /\ Rltb (common_rcond rc.2) thr = true in
  let high := ce.1 <> 0 /\ Rltb (Rdiv ONE thr) (common_condest ce.2) = true in
  let r := SUNLinSolSetup_KLU S A in
  (CallFactor ∈ op_calls r <-> low /\ high) /\
  (low /\ high ->
     op_calls r = [CallRefactor; CallRcond; CallCondest; CallFreeNumeric; CallFactor] /\
     numeric (op_state r) =
       (sun_klu_factor (SUNSparseMatrix_IndexPointers A)
          (SUNSparseMatrix_IndexValues A) (SUNSparseMatrix_Data A)
          (symbolic S) (sun_klu_free_numeric nu1 ce.2)).1) /\
  (~ (low /\ high) ->
     numeric (op_state r) = nu1 /\ (CallFreeNumeric ∉ op_calls r)) /\
  (rc.1 <> 0 -> Rltb (common_rcond rc.2) thr = false ->
     op_calls r = [CallRefactor; CallRcond] /\ op_flag r = SUNLS_SUCCESS) /\
  (low -> ce.1 <> 0 -> Rltb (Rdiv ONE thr) (common_condest ce.2) = false ->
     op_calls r = [CallRefactor; CallRcond; CallCondest] /\
     op_flag r = SUNLS_SUCCESS) /\
  (rc.1 = 0 ->
     op_calls r = [CallRefactor; CallRcond] /\
     op_flag r = SUNLS_PACKAGE_FAIL_REC) /\
  (low -> ce.1 = 0 ->
     op_calls r = [CallRefactor; CallRcond; CallCondest] /\
     op_flag r = SUNLS_PACKAGE_FAIL_REC).
Proof.
  intros Hsp Hff Hr1 thr nu1 rc ce low high r.
  subst r. rewrite (setup_not_first _ _ Hsp Hff).
  unfold setup_refactor. subst low high ce rc nu1. unfold refactor_of in *.
  destruct (sun_klu_refactor _ _ _ _ _ _) as [[r1 nu1] c1]. simpl in *.
  apply Z.eqb_neq in Hr1. rewrite Hr1. simpl.
  destruct (sun_klu_rcond (symbolic S) nu1 c1) as [r2 c2]. simpl.
  fold thr.
  assert (Hnot3 : forall l : list klu_call,
            l = [CallRefactor; CallRcond] \/
            l = [CallRefactor; CallRcond; CallCondest] ->
            (CallFactor ∉ l) /\ (CallFreeNumeric ∉ l)).
  { intros l [->| ->]; split; intros Hin;
      rewrite !elem_of_cons, elem_of_nil in Hin; intuition discriminate. }
  destruct (r2 =? 0) eqn:E2; simpl.
  { apply Z.eqb_eq in E2.
    destruct (Hnot3 _ (or_introl eq_refl)) as [Hnf Hnn].
    split; [split; [intros Hin; contradiction | intros [[Hne _] _]; contradiction]|].
    split; [intros [[Hne _] _]; contradiction|].
    split; [auto|]. split; [intros Hne; contradiction|].
    split; [intros [Hne _]; contradiction|].
    split; [auto|]. intros [Hne _]; contradiction. }
  apply Z.eqb_neq in E2.
  destruct (Rltb (common_rcond c2) thr) eqn:Elt; simpl.
  2:{ destruct (Hnot3 _ (or_introl eq_refl)) as [Hnf Hnn].
      split; [split; [intros Hin; contradiction | intros [[_ [=]] _]]|].
      split; [intros [[_ [=]] _]|].
      split; [auto|]. split; [auto|].
      split; [intros [_ [=]]|].
      split; [intros Hz; contradiction|]. intros [_ [=]]. }
  destruct (sun_klu_condest _ _ _ _ _) as [r3 c3]. simpl.
  destruct (r3 =? 0) eqn:E3; simpl.
  { apply Z.eqb_eq in E3.
    destruct (Hnot3 _ (or_intror eq_refl)) as [Hnf Hnn].
    split; [split; [intros Hin; contradiction | intros [_ [Hne _]]; contradiction]|].
    split; [intros [_ [Hne _]]; contradiction|].
    split; [auto|]. split; [intros _ [=]|].
    split; [intros _ Hne; contradiction|].
    split; [intros Hz; contradiction|]. auto. }
  apply Z.eqb_neq in E3.
  destruct (Rltb (Rdiv ONE thr) (common_condest c3)) eqn:Ece; simpl.
  - unfold do_factor, free_numeric_always. simpl.
    destruct (sun_klu_factor _ _ _ _ _) as [nu4 c4] eqn:Ef. simpl.
    assert (Hin : CallFactor ∈
              [CallRefactor; CallRcond; CallCondest; CallFreeNumeric; CallFactor])
      by (rewrite !elem_of_cons; tauto).
    assert (Hall : (r2 <> 0 /\ true = true) /\ r3 <> 0 /\ true = true) by auto.
    destruct nu4; simpl;
      (split; [split; [intros _; exact Hall | intros _; exact Hin]|]);
      (split; [intros _; split; reflexivity|]);
      (split; [intros Hn; contradiction|]);
      (split; [intros _ [=]|]);
      (split; [intros _ _ [=]|]);
      (split; [intros Hz; contradiction | intros _ Hz; contradiction]).
  - destruct (Hnot3 _ (or_intror eq_refl)) as [Hnf Hnn].
    split; [split; [intros Hin; contradiction | intros [_ [_ [=]]]]|].
    split; [intros [_ [_ [=]]]|].
    split; [auto|]. split; [intros _ [=]|].
    split; [auto|].
    split; [intros Hz; contradiction | intros _ Hz; contradiction].
Qed.

End KLU_Properties.
Section KLU_Idempotence.
Context {R : Type} `{RealType R} `{Roundoff R} `{KLUPackage R}.

Implicit Types (S : SUNLinearSolverContent_KLU R) (A : SUNMatrix R).

Lemma setup_success_sparse S A :
  op_flag (SUNLinSolSetup_KLU S A) = SUNLS_SUCCESS ->
  is_SUNMATRIX_SPARSE (SUNMatGetID A) = true.
Proof.
  unfold SUNLinSolSetup_KLU.
  destruct (is_SUNMATRIX_SPARSE (SUNMatGetID A)); [reflexivity | discriminate].
Qed.

(** A successful first setup runs one analysis and clears the
    first-factorization flag. *)
Lemma setup_first_one_analysis S A :
  first_factorize S <> 0 ->
  op_flag (SUNLinSolSetup_KLU S A) = SUNLS_SUCCESS ->
  first_factorize (op_state (SUNLinSolSetup_KLU S A)) = 0 /\
  count_occ klu_call_eq_dec (op_calls (SUNLinSolSetup_KLU S A)) CallAnalyze
    = 1%nat.
Proof.
  intros Hff Hok. pose proof (setup_success_sparse _ _ Hok) as Hsp.
  revert Hok. rewrite (setup_is_first _ _ Hsp Hff).
  unfold setup_first, free_symbolic_if_set.
  set (P := match symbolic S with
            | Some _ => _ | None => _ end).
  assert (HP : count_occ klu_call_eq_dec P.2 CallAnalyze = 0%nat).
  { subst P. destruct (symbolic S); simpl; auto. }
  destruct P as [S1 l1]. simpl in HP.
  destruct (sun_klu_analyze _ _ _ _) as [sy c]. simpl.
  destruct sy as [sy|]; simpl; [|discriminate].
  unfold free_numeric_if_set. simpl.
  destruct (numeric S1) as [nu0|]; simpl; unfold do_factor; simpl;
    destruct (sun_klu_factor _ _ _ _ _) as [nu c'] eqn:Ef; simpl;
    (destruct nu as [nu|]; simpl; [|discriminate]);
    intros _; (split; [reflexivity|]);
    rewrite !count_occ_app, HP; reflexivity.
Qed.

(** With the flag cleared setup runs no analysis, whatever the package
    answers: on a sparse matrix it goes to the refactor at once, and a
    matrix that is not sparse is turned away before any call.  The flag
    stays cleared, and the symbolic object and the solve entry stay. *)
Lemma setup_reuse_path S A :
  first_factorize S = 0 ->
  first_factorize (op_state (SUNLinSolSetup_KLU S A)) = 0 /\
  symbolic (op_state (SUNLinSolSetup_KLU S A)) = symbolic S /\
  klu_solver (op_state (SUNLinSolSetup_KLU S A)) = klu_solver S /\
  count_occ klu_call_eq_dec (op_calls (SUNLinSolSetup_KLU S A)) CallAnalyze
    = 0%nat /\
  (is_SUNMATRIX_SPARSE (SUNMatGetID A) = true ->
   head (op_calls (SUNLinSolSetup_KLU S A)) = Some CallRefactor) /\
  (is_SUNMATRIX_SPARSE (SUNMatGetID A) = false ->
   op_calls (SUNLinSolSetup_KLU S A) = [] /\
   numeric (op_state (SUNLinSolSetup_KLU S A)) = numeric S).
Proof.
  intros Hff.
  destruct (is_SUNMATRIX_SPARSE (SUNMatGetID A)) eqn:Hsp.
  - rewrite (setup_not_first _ _ Hsp Hff). unfold setup_refactor.
    destruct (sun_klu_refactor _ _ _ _ _ _) as [[rv nu] c]. simpl.
    destruct (rv =? 0); simpl; [by auto 10|].
    destruct (sun_klu_rcond _ _ _) as [rv2 c2]. simpl.
    destruct (rv2 =? 0); simpl; [by auto 10|].
    destruct (Rltb _ _); simpl; [|by auto 10].
    destruct (sun_klu_condest _ _ _ _ _) as [rv3 c3]. simpl.
    destruct (rv3 =? 0); simpl; [by auto 10|].
    destruct (Rltb _ _); simpl; [|by auto 10].
    unfold do_factor, free_numeric_always. simpl.
    destruct (sun_klu_factor _ _ _ _ _) as [[nu4|] c4]; simpl; by auto 10.
  - unfold SUNLinSolSetup_KLU. rewrite Hsp. simpl. by auto 10.
Qed.

(** What a solve leaves of the content. *)
Lemma solve_same_factors S (M : option (SUNMatrix R))
    (x b : option (N_Vector R)) (tol : R) S' :
  sv_state (SUNLinSolSolve_KLU (Some S) M x b tol) = Some S' ->
  symbolic S' = symbolic S /\ numeric S' = numeric S /\
  first_factorize S' = first_factorize S /\
  count_occ klu_call_eq_dec (sv_calls (SUNLinSolSolve_KLU (Some S) M x b tol))
    CallAnalyze = 0%nat.
Proof.
  unfold SUNLinSolSolve_KLU.
  destruct M as [M|], x as [x|], b as [b|];
    try (intros [= <-]; auto; fail).
  destruct (N_VGetArrayPointer (N_VScale_ONE b x)) as [xd|];
    [|intros [= <-]; auto].
  destruct (klu_solve_entry _ _ _ _ _ _ _) as [[flag xd'] c].
  destruct (flag =? 0); intros [= <-]; auto.
Qed.

(** The states in which a first factorization has succeeded have the flag
    cleared and one analysis behind them. *)
Lemma first_factorization_done_flag S log :
  first_factorization_done S log ->
  first_factorize S = 0 /\
  count_occ klu_call_eq_dec log CallAnalyze = 1%nat.
Proof.
  induction 1 as [S0 A Hff Hok|S log A Hd IH|S log M x b tol S' Hd IH Hs].
  - exact (setup_first_one_analysis _ _ Hff Hok).
  - destruct IH as (Hz & Hc).
    destruct (setup_reuse_path S A Hz) as (Hz' & _ & _ & Hc' & _).
    split; [assumption|].
    rewrite count_occ_app, Hc, Hc'. reflexivity.
  - destruct IH as (Hz & Hc).
    destruct (solve_same_factors _ _ _ _ _ _ Hs) as (_ & _ & Hff & Hc').
    split; [congruence|].
    rewrite count_occ_app, Hc, Hc'. reflexivity.
Qed.

Section With_Laws.
Context `{!KLUFactorLaws R}.

(** What the second run of a call answers, from what the first
    answered. *)
Ltac same_refactor Hag E :=
  match goal with
  | |- context [sun_klu_refactor ?ap ?ai ?ax ?sy ?nu ?c] =>
      let Hq := fresh "Hq" in
      pose proof (Hag c) as Hq;
      destruct (sun_klu_refactor ap ai ax sy nu c) as [[? ?] ?] eqn:E;
      simpl in Hq; injection Hq as -> ->
  end.

Ltac same_rcond Erc Hrv Hest :=
  match goal with
  | |- context [sun_klu_rcond ?sy ?nu ?c] =>
      match type of Erc with
      | sun_klu_rcond _ _ ?c0 = _ =>
          destruct (rcond_of_factors sy nu c0 c) as [Hrv Hest];
          rewrite Erc in Hrv, Hest;
          destruct (sun_klu_rcond sy nu c) as [? ?];
          simpl in Hrv, Hest; subst
      end
  end.

Ltac same_condest Ece Hrv Hest :=
  match goal with
  | |- context [sun_klu_condest ?ap ?ax ?sy ?nu ?c] =>
      match type of Ece with
      | sun_klu_condest _ _ _ _ ?c0 = _ =>
          destruct (condest_of_factors ap ax sy nu c0 c) as [Hrv Hest];
          rewrite Ece in Hrv, Hest;
          destruct (sun_klu_condest ap ax sy nu c) as [? ?];
          simpl in Hrv, Hest; subst
      end
  end.

(** A second run of the reuse branch on the same matrix leaves the
    numeric object the first run left. *)
Lemma setup_refactor_again S A :
  numeric (op_state (setup_refactor A (op_state (setup_refactor A S)))) =
  numeric (op_state (setup_refactor A S)).
Proof.
  unfold setup_refactor at 2 3.
  pose proof (refactor_again (SUNSparseMatrix_IndexPointers A)
                (SUNSparseMatrix_IndexValues A) (SUNSparseMatrix_Data A)
                (symbolic S) (numeric S) (common S)) as Hag0.
  remember (sun_klu_refactor (SUNSparseMatrix_IndexPointers A)
              (SUNSparseMatrix_IndexValues A) (SUNSparseMatrix_Data A)
              (symbolic S) (numeric S) (common S)) as t eqn:Ere in *.
  destruct t as [[rv nu1] c1]. simpl in Hag0.
  assert (Hag : forall c',
            (sun_klu_refactor (SUNSparseMatrix_IndexPointers A)
               (SUNSparseMatrix_IndexValues A) (SUNSparseMatrix_Data A)
               (symbolic S) nu1 c').1 = (rv, nu1)).
  { intros c'. rewrite <- Hag0. apply refactor_of_entries. }
  clear Hag0. cbn [fst snd].
  destruct (rv =? 0) eqn:Erv.
  { unfold setup_refactor. simpl. same_refactor Hag E2.
    rewrite Erv. reflexivity. }
  cbn [symbolic numeric common set_numeric set_common].
  destruct (sun_klu_rcond (symbolic S) nu1 c1) as [rv2 c2] eqn:Erc.
  cbn [fst snd symbolic numeric common set_numeric set_common].
  destruct (rv2 =? 0) eqn:Erv2.
  { unfold setup_refactor. simpl. same_refactor Hag E2.
    rewrite Erv. simpl. same_rcond Erc Hrv Hest.
    rewrite Erv2. reflexivity. }
  apply Z.eqb_neq in Erv2.
  destruct (Rltb (common_rcond c2) _) eqn:Elow.
  2:{ unfold setup_refactor. simpl. same_refactor Hag E2.
      rewrite Erv. simpl. same_rcond Erc Hrv Hest.
      apply Z.eqb_neq in Erv2. rewrite Erv2.
      rewrite <- (Hest ltac:(by apply Z.eqb_neq)), Elow. reflexivity. }
  destruct (sun_klu_condest _ _ (symbolic S) nu1 c2) as [rv3 c3] eqn:Ece.
  cbn [fst snd symbolic numeric common set_numeric set_common].
  destruct (rv3 =? 0) eqn:Erv3.
  { unfold setup_refactor. simpl. same_refactor Hag E2.
    rewrite Erv. simpl. same_rcond Erc Hrv Hest.
    apply Z.eqb_neq in Erv2. rewrite Erv2.
    rewrite <- (Hest ltac:(by apply Z.eqb_neq)), Elow. simpl.
    same_condest Ece Hrv3 Hest3. rewrite Erv3. reflexivity. }
  apply Z.eqb_neq in Erv3.
  destruct (Rltb _ (common_condest c3)) eqn:Ehigh.
  2:{ unfold setup_refactor. simpl. same_refactor Hag E2.
      rewrite Erv. simpl. same_rcond Erc Hrv Hest.
      apply Z.eqb_neq in Erv2. rewrite Erv2.
      rewrite <- (Hest ltac:(by apply Z.eqb_neq)), Elow. simpl.
      same_condest Ece Hrv3 Hest3.
      apply Z.eqb_neq in Erv3. rewrite Erv3.
      rewrite <- (Hest3 ltac:(by apply Z.eqb_neq)), Ehigh. reflexivity. }
  (* the first run computed the factorization anew *)
  unfold do_factor, free_numeric_always.
  cbn [symbolic numeric common set_numeric set_common].
  set (cF := sun_klu_free_numeric nu1 c3).
  pose proof (refactor_after_factor (SUNSparseMatrix_IndexPointers A)
                (SUNSparseMatrix_IndexValues A) (SUNSparseMatrix_Data A)
                (symbolic S) cF) as Haf.
  pose proof (factor_of_entries (SUNSparseMatrix_IndexPointers A)
                (SUNSparseMatrix_IndexValues A) (SUNSparseMatrix_Data A)
                (symbolic S) cF) as Hfe.
  destruct (sun_klu_factor _ _ _ (symbolic S) cF) as [nu4 c4] eqn:Ef.
  simpl in Haf, Hfe.
  assert (Hstate : forall f l,
            numeric (op_state (setup_refactor A
              (op_state (return_flag f (set_numeric nu4
                 (set_common c4 (set_numeric None
                    (set_common cF (set_common c3 (set_common c2
                      (set_numeric nu1 (set_common c1 S)))))))) l))))
            = nu4).
  { clear Ere Hag Erv Erc Erv2 Elow Ece Erv3 Ehigh Ef.
    intros f l. unfold setup_refactor. simpl.
    destruct nu4 as [n4|].
    - destruct (Haf n4 eq_refl) as (r & Hr & Hrne).
      assert (Hag4 : forall c',
                (sun_klu_refactor (SUNSparseMatrix_IndexPointers A)
                   (SUNSparseMatrix_IndexValues A) (SUNSparseMatrix_Data A)
                   (symbolic S) (Some n4) c').1 = (r, Some n4)).
      { intros c'. rewrite <- Hr. apply refactor_of_entries. }
      same_refactor Hag4 E2.
      apply Z.eqb_neq in Hrne. rewrite Hrne. simpl.
      destruct (sun_klu_rcond _ _ _) as [q2 d2]. simpl.
      destruct (q2 =? 0); [reflexivity|].
      destruct (Rltb _ _); [|reflexivity].
      destruct (sun_klu_condest _ _ _ _ _) as [q3 d3]. simpl.
      destruct (q3 =? 0); [reflexivity|].
      destruct (Rltb _ _); [|reflexivity].
      unfold do_factor, free_numeric_always. simpl.
      match goal with
      | |- context [sun_klu_factor ?ap ?ai ?ax ?sy ?c] =>
          pose proof (Hfe c) as Hq;
          destruct (sun_klu_factor ap ai ax sy c) as [n5 c5]
      end.
      simpl in Hq. subst n5. simpl. reflexivity.
    - assert (Hag4 : forall c',
                (sun_klu_refactor (SUNSparseMatrix_IndexPointers A)
                   (SUNSparseMatrix_IndexValues A) (SUNSparseMatrix_Data A)
                   (symbolic S) None c').1 = (0, None)).
      { intros c'. apply refactor_nothing. }
      same_refactor Hag4 E2. reflexivity. }
  destruct nu4 as [n4|]; cbn [numeric set_numeric];
    rewrite Hstate; reflexivity.
Qed.

(** Two contents with the same stored objects give the same solve. *)
Lemma solve_same_stored S S' (M : option (SUNMatrix R))
    (x b : option (N_Vector R)) (tol : R) :
  symbolic S' = symbolic S -> numeric S' = numeric S ->
  klu_solver S' = klu_solver S ->
  solve_outcome (SUNLinSolSolve_KLU (Some S') M x b tol) =
  solve_outcome (SUNLinSolSolve_KLU (Some S) M x b tol).
Proof.
  intros Hsy Hnu Hk. unfold SUNLinSolSolve_KLU, solve_outcome.
  destruct M as [M|]; [|reflexivity].
  destruct x as [x|]; [|reflexivity]. destruct b as [b|]; [|reflexivity].
  destruct (N_VGetArrayPointer (N_VScale_ONE b x)) as [xd|]; [|reflexivity].
  rewrite Hk, Hsy, Hnu.
  pose proof (solve_stored_factors (klu_solver S) (symbolic S) (numeric S)
                (SUNSparseMatrix_NP M) 1 xd (common S') (common S)) as E.
  destruct (klu_solve_entry _ _ _ _ _ _ (common S')) as [[f1 x1] k1].
  destruct (klu_solve_entry _ _ _ _ _ _ (common S)) as [[f2 x2] k2].
  simpl in E. injection E as -> ->.
  destruct (f2 =? 0); reflexivity.
Qed.

(** A second setup on the same matrix leaves the objects solve works
    with as the first left them. *)
Lemma setup_twice_same_stored S A :
  first_factorize S = 0 ->
  let r1 := SUNLinSolSetup_KLU S A in
  let r2 := SUNLinSolSetup_KLU (op_state r1) A in
  symbolic (op_state r2) = symbolic (op_state r1) /\
  numeric (op_state r2) = numeric (op_state r1) /\
  klu_solver (op_state r2) = klu_solver (op_state r1).
Proof.
  intros Hz r1 r2.
  destruct (setup_reuse_path S A Hz) as (Hz1 & _ & _ & _ & _ & Hns1).
  fold r1 in Hz1, Hns1.
  destruct (setup_reuse_path (op_state r1) A Hz1)
    as (_ & Hsy & Hk & _ & _ & Hns2).
  fold r2 in Hsy, Hk, Hns2.
  split; [assumption|]. split; [|assumption].
  destruct (is_SUNMATRIX_SPARSE (SUNMatGetID A)) eqn:Hsp.
  - subst r2 r1.
    rewrite (setup_not_first _ _ Hsp Hz) in *.
    rewrite (setup_not_first _ _ Hsp Hz1).
    apply setup_refactor_again.
  - exact (proj2 (Hns2 eq_refl)).
Qed.
End With_Laws.

(** C7.  In every state in which a first factorization has succeeded
    (the flag [first_factorize] is cleared), call setup twice in
    succession on the same matrix.  Neither call runs a symbolic analysis,
    so a count of 1 stays at 1, and the second call is again a non-first
    one; on a sparse matrix each call takes the reuse path, which starts
    with the refactor.  This much holds whatever the package answers.  For
    a package whose results are determined by the matrix entries and the
    stored objects, a solve after the second setup returns the same flag
    and the same solution as a solve after the first. *)
Theorem setup_twice_same_solve S A :
  first_factorize S = 0 ->
  let r1 := SUNLinSolSetup_KLU S A in
  let r2 := SUNLinSolSetup_KLU (op_state r1) A in
  first_factorize (op_state r1) = 0 /\
  count_occ klu_call_eq_dec (op_calls r1) CallAnalyze = 0%nat /\
  count_occ klu_call_eq_dec (op_calls r2) CallAnalyze = 0%nat /\
  (forall log,
     count_occ klu_call_eq_dec log CallAnalyze = 1%nat ->
     count_occ klu_call_eq_dec (log ++ op_calls r1 ++ op_calls r2) CallAnalyze
       = 1%nat) /\
  (is_SUNMATRIX_SPARSE (SUNMatGetID A) = true ->
   head (op_calls r1) = Some CallRefactor /\
   head (op_calls r2) = Some CallRefactor) /\
  (KLUFactorLaws R ->
   forall M x b tol,
     solve_outcome (SUNLinSolSolve_KLU (Some (op_state r2)) M x b tol) =
     solve_outcome (SUNLinSolSolve_KLU (Some (op_state r1)) M x b tol)).
Proof.
  intros Hz r1 r2.
  destruct (setup_reuse_path S A Hz) as (Hz1 & _ & _ & Hc1 & Hh1 & _).
  fold r1 in Hz1, Hc1, Hh1.
  destruct (setup_reuse_path (op_state r1) A Hz1) as (_ & _ & _ & Hc2 & Hh2 & _).
  fold r2 in Hc2, Hh2.
  split; [assumption|]. split; [assumption|]. split; [assumption|].
  split; [|split].
  - intros log Hlog. rewrite !count_occ_app, Hlog, Hc1, Hc2. reflexivity.
  - auto.
  - intros L M x b tol.
    destruct (setup_twice_same_stored S A Hz) as (Hsy & Hnu & Hk).
    by apply solve_same_stored.
Qed.

End KLU_Idempotence.

Section KLU_Solve.
Context {R : Type} `{RealType R} `{Roundoff R} `{KLUPackage R}.

Implicit Types (S : SUNLinearSolverContent_KLU R) (A : SUNMatrix R)
               (x b : N_Vector R).

(** C9 (as amended).  For a non-null handle, matrix and vectors, solve
    copies [b] into [x].  If [x] exposes no data array, solve then records
    and returns SUNLS_MEM_FAIL and calls nothing of KLU.  Otherwise it runs
    the stored solve entry in place on the data of [x], which is the copy of
    [b], and records and returns the recoverable failure
    SUNLS_PACKAGE_FAIL_REC when that entry reports failure and
    SUNLS_SUCCESS when it does not. *)
Theorem solve_copies_then_substitutes S A x b tol :
  let r := SUNLinSolSolve_KLU (Some S) (Some A) (Some x) (Some b) tol in
  let run := klu_solve_entry (klu_solver S) (symbolic S) (numeric S)
               (SUNSparseMatrix_NP A) 1 (nv_content b) (common S) in
  (nv_has_array x = false ->
     sv_flag r = SUNLS_MEM_FAIL /\
     sv_state r = Some (set_last_flag SUNLS_MEM_FAIL S) /\
     sv_x r = Some (N_VScale_ONE b x) /\ sv_calls r = []) /\
  (nv_has_array x = true ->
     sv_x r = Some (nv_written x run.1.2) /\
     sv_calls r = [CallSolve] /\
     sv_flag r = solve_flag_of run.1.1 /\
     sv_state r =
       Some (set_last_flag (solve_flag_of run.1.1) (set_common run.2 S))).
Proof.
  intros r run. subst r.
  unfold SUNLinSolSolve_KLU, N_VGetArrayPointer, N_VScale_ONE. simpl.
  split; intros Hx; rewrite Hx.
  - auto.
  - fold run. destruct run as [[flag xd'] c]. simpl.
    unfold solve_flag_of, nv_written. rewrite Hx.
    destruct (flag =? 0); simpl; auto.
Qed.

End KLU_Solve.

(** ** The dense 2x2 stand-in satisfies the laws of the package *)

Section Dense2_Laws.
Context {R : Type} `{RealType R}.

Lemma d2_factor_of_entries ap ai ax sy c c' :
  (d2_factor ap ai ax sy c).1 = (d2_factor ap ai ax sy c').1.
Proof.
  unfold d2_factor. destruct sy; [|reflexivity].
  destruct (d2_pivots_ok (d2_choose_swap ax) ax); reflexivity.
Qed.

Lemma d2_refactor_of_entries ap ai ax sy nu c c' :
  (d2_refactor ap ai ax sy nu c).1 = (d2_refactor ap ai ax sy nu c').1.
Proof.
  unfold d2_refactor. destruct sy, nu as [m|]; try reflexivity.
  destruct (d2_pivots_ok (d2_swap m) ax); reflexivity.
Qed.

Lemma d2_rcond_of_factors sy nu c c' :
  (d2_rcond_fn sy nu c).1 = (d2_rcond_fn sy nu c').1 /\
  ((d2_rcond_fn sy nu c).1 <> 0 ->
   d2_rcond (d2_rcond_fn sy nu c).2 = d2_rcond (d2_rcond_fn sy nu c').2).
Proof.
  unfold d2_rcond_fn. destruct nu as [m|]; simpl; [|tauto].
  destruct (d2_udiag (d2_swap m) (d2_vals m)) as [[u0 u1]|]; simpl; tauto.
Qed.

Lemma d2_condest_of_factors ap ax sy nu c c' :
  (d2_condest_fn ap ax sy nu c).1 = (d2_condest_fn ap ax sy nu c').1 /\
  ((d2_condest_fn ap ax sy nu c).1 <> 0 ->
   d2_condest (d2_condest_fn ap ax sy nu c).2 =
   d2_condest (d2_condest_fn ap ax sy nu c').2).
Proof.
  unfold d2_condest_fn. destruct nu as [m|]; simpl; [|tauto].
  destruct ax as [|a00 [|a10 [|a01 [|a11 [|? ?]]]]]; simpl; tauto.
Qed.

Lemma d2_solve_stored_factors fn sy nu n nrhs x c c' :
  (d2_solve fn sy nu n nrhs x c).1 = (d2_solve fn sy nu n nrhs x c').1.
Proof.
  unfold d2_solve.
  destruct nu as [m|]; [|reflexivity].
  destruct x as [|b0 [|b1 [|? ?]]]; try reflexivity.
  destruct (d2_vals m) as [|a00 [|a10 [|a01 [|a11 [|? ?]]]]]; try reflexivity.
  destruct fn; reflexivity.
Qed.

Lemma d2_refactor_after_factor ap ai ax sy c nu :
  (d2_factor ap ai ax sy c).1 = Some nu ->
  exists r, (d2_refactor ap ai ax sy (Some nu) c).1 = (r, Some nu) /\ r <> 0.
Proof.
  unfold d2_factor, d2_refactor. destruct sy; [|discriminate].
  destruct (d2_pivots_ok (d2_choose_swap ax) ax) eqn:E; [|discriminate].
  intros [= <-]. simpl. rewrite E.
  eexists. split; [reflexivity | discriminate].
Qed.

Lemma d2_refactor_again ap ai ax sy nu c :
  (d2_refactor ap ai ax sy (d2_refactor ap ai ax sy nu c).1.2 c).1 =
  (d2_refactor ap ai ax sy nu c).1.
Proof.
  unfold d2_refactor. destruct sy, nu as [m|]; try reflexivity.
  destruct (d2_pivots_ok (d2_swap m) ax) eqn:E; simpl; rewrite E; reflexivity.
Qed.

Lemma d2_refactor_nothing ap ai ax sy c :
  (d2_refactor ap ai ax sy None c).1 = (0, None).
Proof. unfold d2_refactor. destruct sy; reflexivity. Qed.

Definition Dense2_laws : KLUFactorLaws R :=
  {| factor_of_entries := d2_factor_of_entries;
     refactor_of_entries := d2_refactor_of_entries;
     rcond_of_factors := d2_rcond_of_factors;
     condest_of_factors := d2_condest_of_factors;
     solve_stored_factors := d2_solve_stored_factors;
     refactor_after_factor := d2_refactor_after_factor;
     refactor_again := d2_refactor_again;
     refactor_nothing := d2_refactor_nothing |}.
End Dense2_Laws.

(** ** Runs of the solver in binary64 on the dense 2x2 stand-in *)

Section KLU_Runs.
Local Open Scope float_scope.

(** C1, counterexample.  After a first factorization of [[1 2; 3 4]], a
    setup on [[1 2; 0 4]] fails in the refactor and returns the recoverable
    failure having called nothing but the refactor, although the full
    symbolic and numeric factorization of that matrix succeeds. *)
Lemma refactor_failure_no_fallback :
  first_factorize S_1234 = 0%Z /\
  (refactor_of S_1234 A_1204).1.1 = 0%Z /\
  op_flag (SUNLinSolSetup_KLU S_1234 A_1204) = SUNLS_PACKAGE_FAIL_REC /\
  op_calls (SUNLinSolSetup_KLU S_1234 A_1204) = [CallRefactor] /\
  op_flag (setup_first A_1204 S_1234) = SUNLS_SUCCESS.
Proof. vm_compute. repeat split. Qed.

(** The same run, as an instance of the statement above. *)
Lemma refactor_failure_returns_recoverable_witness :
  is_SUNMATRIX_SPARSE (SUNMatGetID A_1204) = true /\
  first_factorize S_1234 = 0%Z /\
  (refactor_of S_1234 A_1204).1.1 = 0%Z /\
  (let r := SUNLinSolSetup_KLU S_1234 A_1204 in
   op_flag r = SUNLS_PACKAGE_FAIL_REC /\
   SUNLinSolLastFlag_KLU (op_state r) = SUNLS_PACKAGE_FAIL_REC /\
   op_calls r = [CallRefactor] /\
   symbolic (op_state r) = symbolic S_1234 /\
   first_factorize (op_state r) = 0%Z).
Proof.
  split; [reflexivity|]. split; [reflexivity|]. split; [reflexivity|].
  apply (refactor_failure_returns_recoverable S_1234 A_1204); reflexivity.
Defined.

(** The content a first factorization of [diag(4, 4)] leaves is a state
    in which a first factorization has succeeded. *)
Lemma S_44_first_factorization_done :
  first_factorization_done S_44 [CallAnalyze; CallFactor].
Proof. exact (ffd_first dense2_new A_44 ltac:(discriminate) eq_refl). Qed.

(** Two setups of [diag(4, 4)] in the state its first factorization
    left. *)
Lemma setup_twice_same_solve_witness :
  first_factorize S_44 = 0%Z /\
  (let r1 := SUNLinSolSetup_KLU S_44 A_44 in
   let r2 := SUNLinSolSetup_KLU (op_state r1) A_44 in
   op_calls r1 = [CallRefactor; CallRcond] /\
   op_calls r2 = [CallRefactor; CallRcond] /\
   count_occ klu_call_eq_dec
     ([CallAnalyze; CallFactor] ++ op_calls r1 ++ op_calls r2) CallAnalyze
     = 1%nat /\
   forall M x b tol,
     solve_outcome (SUNLinSolSolve_KLU (Some (op_state r2)) M x b tol) =
     solve_outcome (SUNLinSolSolve_KLU (Some (op_state r1)) M x b tol)).
Proof.
  split; [reflexivity|].
  destruct (setup_twice_same_solve S_44 A_44 eq_refl)
    as (_ & _ & _ & Hc & _ & Hsolve).
  split; [reflexivity|]. split; [reflexivity|].
  split; [exact (Hc [CallAnalyze; CallFactor] eq_refl)|].
  exact (Hsolve Dense2_laws).
Defined.

(** C9, counterexample.  With a solution vector that exposes no data
    array the solve returns SUNLS_MEM_FAIL, which is neither the recoverable
    failure nor success, and the factorization is not applied. *)
Lemma solve_without_data_array :
  let r := SUNLinSolSolve_KLU (Some S_1234) (Some A_1234)
             (Some (nvec_opaque [0; 0])) (Some (nvec [1; 1])) 0 in
  sv_flag r = SUNLS_MEM_FAIL /\
  sv_flag r <> SUNLS_SUCCESS /\ sv_flag r <> SUNLS_PACKAGE_FAIL_REC /\
  sv_calls r = [] /\ sv_x r = Some (nvec_opaque [1; 1]).
Proof. vm_compute. repeat split; discriminate. Qed.

(** The solve of [[1 2; 3 4] x = (1, 1)], whose solution is [(-1, 1)]. *)
Lemma solve_copies_then_substitutes_witness :
  let r := SUNLinSolSolve_KLU (Some S_1234) (Some A_1234) (Some (nvec [0; 0]))
             (Some (nvec [1; 1])) 0 in
  sv_x r = Some (nvec [-1; 1]) /\ sv_calls r = [CallSolve] /\
  sv_flag r = SUNLS_SUCCESS.
Proof.
  destruct (solve_copies_then_substitutes S_1234 A_1234 (nvec [0; 0])
              (nvec [1; 1]) 0) as [_ Hs].
  destruct (Hs eq_refl) as (Hx & Hc & Hf & _).
  repeat split; assumption.
Defined.

End KLU_Runs.

Section KLU_Runs_Ill.
Local Open Scope float_scope.

(** The setup of [diag(1, 2^-50)] after its first factorization: both
  estimates succeed, [rcond = 2^-50] is below the threshold and
  [condest = 2^50] is above its reciprocal, so the factorization is computed
  anew. *)
Lemma refactor_recomputes_iff_ill_conditioned_witness :
is_SUNMATRIX_SPARSE (SUNMatGetID A_ill) = true /\
first_factorize S_ill = 0%Z /\
(refactor_of S_ill A_ill).1.1 <> 0%Z /\
(let thr := SUNRpowerR UNIT_ROUNDOFF TWOTHIRDS in
 let r := SUNLinSolSetup_KLU S_ill A_ill in
 Rltb (common_rcond common_ill_rcond) thr = true /\
 Rltb (Rdiv ONE thr) (common_condest common_ill_condest) = true /\
 CallFactor ∈ op_calls r /\
 op_calls r =
   [CallRefactor; CallRcond; CallCondest; CallFreeNumeric; CallFactor] /\
 op_flag r = SUNLS_SUCCESS).
Proof.
assert (Hne : (refactor_of S_ill A_ill).1.1 <> 0%Z) by discriminate.
split; [reflexivity|]. split; [reflexivity|]. split; [exact Hne|].
destruct (refactor_recomputes_iff_ill_conditioned S_ill A_ill
            eq_refl eq_refl Hne) as (Hiff & Hill & _).
assert (Hboth : ((1 <> 0)%Z /\
                 Rltb (common_rcond common_ill_rcond)
                   (SUNRpowerR UNIT_ROUNDOFF TWOTHIRDS) = true) /\
                ((1 <> 0)%Z /\
                 Rltb (Rdiv ONE (SUNRpowerR UNIT_ROUNDOFF TWOTHIRDS))
                   (common_condest common_ill_condest) = true)).
{ repeat split; try discriminate; reflexivity. }
split; [reflexivity|]. split; [reflexivity|].
split; [exact (proj2 Hiff Hboth)|].
split; [exact (proj1 (Hill Hboth)) | reflexivity].
Defined.

End KLU_Runs_Ill.

(** ** The banded difference-quotient Jacobian *)

Section ForLoop.
Context {St : Type}.

(** A loop with a positive step and an upper bound runs to its exit test
    when the fuel covers the distance to the bound, and an invariant of the
    body holds at the exit. *)
Lemma for_loop_invariant (P : Z -> St -> Prop) cond step
    (body : Z -> St -> option St) hi :
  0 < step -> (forall i, cond i = (i <? hi)) ->
  (forall i s, i < hi -> P i s ->
     exists s', body i s = Some s' /\ P (i + step) s') ->
  forall fuel i s, P i s -> hi - i <= Z.of_nat fuel ->
    exists s' i', for_loop fuel cond step body i s = Some s' /\
                  hi <= i' /\ P i' s'.
Proof.
  intros Hstep Hcond Hbody fuel.
  induction fuel as [|fuel IH]; intros i s HP Hfuel; simpl; rewrite Hcond.
  - destruct (i <? hi) eqn:E; [apply Z.ltb_lt in E; lia|].
    apply Z.ltb_ge in E. eauto.
  - destruct (i <? hi) eqn:E.
    + apply Z.ltb_lt in E.
      destruct (Hbody i s E HP) as (s' & Hb & HP'). rewrite Hb.
      apply IH; [assumption | lia].
    + apply Z.ltb_ge in E. eauto.
Qed.
End ForLoop.

Section Arrays.
Context {R : Type} `{RealType R}.

Lemma vget_vnth (v : list R) (k : Z) :
  0 <= k < Z.of_nat (length v) -> vget v k = Some (vnth v k).
Proof.
  intros Hk. unfold vnth, vget.
  destruct (k <? 0) eqn:E; [apply Z.ltb_lt in E; lia|].
  destruct (lookup_lt_is_Some_2 v (Z.to_nat k)) as [x Hx]; [lia|].
  rewrite Hx. reflexivity.
Qed.

Lemma vnth_lookup (v : list R) (k : nat) (x : R) :
  v !! k = Some x -> vnth v (Z.of_nat k) = x.
Proof.
  intros Hx. unfold vnth, vget.
  destruct (Z.of_nat k <? 0) eqn:E; [apply Z.ltb_lt in E; lia|].
  rewrite Nat2Z.id, Hx. reflexivity.
Qed.

Lemma vset_insert (v : list R) (k : Z) (x : R) :
  0 <= k < Z.of_nat (length v) -> vset v k x = Some (<[Z.to_nat k := x]> v).
Proof.
  intros Hk. unfold vset.
  destruct (0 <=? k) eqn:E1; [|apply Z.leb_gt in E1; lia].
  destruct (k <? Z.of_nat (length v)) eqn:E2; [|apply Z.ltb_ge in E2; lia].
  reflexivity.
Qed.

Lemma sget_vnth (st : vstore R) (v : vec_id) (d : list R) (k : Z) :
  st !! v = Some d -> 0 <= k < Z.of_nat (length d) ->
  sget st v k = Some (vnth d k).
Proof. intros Hv Hk. unfold sget. rewrite Hv. simpl. by apply vget_vnth. Qed.

Lemma sset_insert (st : vstore R) (v : vec_id) (d : list R) (k : Z) (x : R) :
  st !! v = Some d -> 0 <= k < Z.of_nat (length d) ->
  sset st v k x = Some (<[v := <[Z.to_nat k := x]> d]> st).
Proof.
  intros Hv Hk. unfold sset. rewrite Hv. simpl.
  rewrite vset_insert by assumption. reflexivity.
Qed.
End Arrays.

Lemma mod_same_window (w a b : Z) :
  0 < w -> a mod w = b mod w -> a <= b < a + w -> b = a.
Proof.
  intros Hw Hm Hab.
  pose proof (Z.div_mod a w ltac:(lia)) as Ha.
  pose proof (Z.div_mod b w ltac:(lia)) as Hb.
  assert (b - a = w * (b / w - a / w)) by lia.
  assert (b / w - a / w = 0) by nia. lia.
Qed.

Lemma mod_shift (w a : Z) : 0 < w -> (a + w) mod w = a mod w.
Proof.
  intros Hw. replace (a + w) with (a + 1 * w) by lia. apply Z_mod_plus_full.
Qed.

Lemma MAXZ_max (a b : Z) : MAXZ a b = Z.max a b.
Proof. unfold MAXZ. destruct (b <? a) eqn:E; [apply Z.ltb_lt in E | apply Z.ltb_ge in E]; lia. Qed.

Lemma MINZ_min (a b : Z) : MINZ a b = Z.min a b.
Proof. unfold MINZ. destruct (a <? b) eqn:E; [apply Z.ltb_lt in E | apply Z.ltb_ge in E]; lia. Qed.

(** Decide the boolean tests on integers met in a goal. *)
Ltac zbool :=
  repeat match goal with
  | |- context [?a <? ?b] =>
      let E := fresh "E" in
      destruct (a <? b) eqn:E; [apply Z.ltb_lt in E | apply Z.ltb_ge in E]
  | |- context [?a <=? ?b] =>
      let E := fresh "E" in
      destruct (a <=? b) eqn:E; [apply Z.leb_le in E | apply Z.leb_gt in E]
  | |- context [?a =? ?b] =>
      let E := fresh "E" in
      destruct (a =? b) eqn:E; [apply Z.eqb_eq in E | apply Z.eqb_neq in E]
  end.

Section DQ_Proofs.
Context {R : Type} `{RealType R}.

Variables (n mupper mlower : Z) (u fu futemp utemp : vec_id) (km : KINMem R).
Variables (ud sd fud : list R).

Local Abbreviation w := (mlower + mupper + 1).
Local Abbreviation us := (kin_uscale km).
Local Abbreviation inc := (inc_spec (kin_sqrt_relfunc km) ud sd).
Local Abbreviation pert := (perturbed (kin_sqrt_relfunc km) mupper mlower ud sd).
Local Abbreviation entry := (dq_entry (kin_sqrt_relfunc km) (kin_func km) mupper mlower ud sd fud).
Local Abbreviation band := (in_band n mupper mlower).
Local Abbreviation holds := (holds_inputs u fu (kin_uscale km) ud sd fud).
Local Abbreviation bump := (bumped (kin_sqrt_relfunc km) mupper mlower ud sd).
Local Abbreviation unrest :=
  (unrestored (kin_sqrt_relfunc km) mupper mlower ud sd).

Hypothesis Hn : 0 <= n.
Hypothesis Hml : 0 <= mlower.
Hypothesis Hmu : 0 <= mupper.
Hypothesis Hlen_u : Z.of_nat (length ud) = n.
Hypothesis Hlen_s : Z.of_nat (length sd) = n.
Hypothesis Hlen_f : Z.of_nat (length fud) = n.
Hypothesis HF : forall v, Z.of_nat (length v) = n ->
                          Z.of_nat (length (kin_func km v)) = n.
Hypothesis Hut_u : utemp <> u.
Hypothesis Hut_fu : utemp <> fu.
Hypothesis Hut_us : utemp <> us.
Hypothesis Hft_u : futemp <> u.
Hypothesis Hft_fu : futemp <> fu.
Hypothesis Hft_us : futemp <> us.
Hypothesis Hft_ut : futemp <> utemp.

Lemma holds_inputs_utemp (S : vstore R) x : holds S -> holds (<[utemp := x]> S).
Proof.
  intros (Hu & Hf & Hs). unfold holds_inputs.
  rewrite !lookup_insert_ne by done. auto.
Qed.

Lemma holds_inputs_futemp (S : vstore R) x : holds S -> holds (<[futemp := x]> S).
Proof.
  intros (Hu & Hf & Hs). unfold holds_inputs.
  rewrite !lookup_insert_ne by done. auto.
Qed.

Lemma dq_inc_spec (S : vstore R) j :
  holds S -> 0 <= j < n -> dq_inc km S u j = Some (inc j).
Proof.
  intros (Hu & _ & Hs) Hj. unfold dq_inc.
  rewrite (sget_vnth _ _ _ _ Hu) by lia. simpl.
  rewrite (sget_vnth _ _ _ _ Hs) by lia. reflexivity.
Qed.

Lemma length_pert g : Z.of_nat (length (pert g)) = n.
Proof. unfold perturbed. rewrite length_imap. assumption. Qed.

Lemma imap_pointwise (f g : nat -> R -> R) (l : list R) :
  (forall k x, l !! k = Some x -> f k x = g k x) -> imap f l = imap g l.
Proof. intros Hfg. apply imap_ext. intros k x Hx. simpl. by apply Hfg. Qed.

Lemma imap_same (f : nat -> R -> R) (l : list R) :
  (forall k x, l !! k = Some x -> f k x = x) -> imap f l = l.
Proof.
  intros Hf. apply list_eq. intros k. rewrite list_lookup_imap.
  destruct (l !! k) as [x|] eqn:E; simpl; [|reflexivity]. by rewrite Hf.
Qed.

Lemma lookup_bound (k : nat) (x : R) : ud !! k = Some x -> Z.of_nat k < n.
Proof. intros Hx. apply lookup_lt_Some in Hx. lia. Qed.

Lemma bumped_start g : 0 <= g -> bump g g = ud.
Proof.
  intros Hg. apply imap_same. intros k x Hx.
  assert (Z.of_nat k mod w <= Z.of_nat k) by (apply Z.mod_le; lia).
  zbool; simpl; try reflexivity; lia.
Qed.

Lemma bumped_end g i : n <= i -> bump g i = pert g.
Proof.
  intros Hi. apply imap_pointwise. intros k x Hx. apply lookup_bound in Hx.
  zbool; simpl; try reflexivity; lia.
Qed.

Lemma unrestored_start g : 0 <= g -> unrest g g = pert g.
Proof.
  intros Hg. apply imap_pointwise. intros k x Hx.
  assert (Z.of_nat k mod w <= Z.of_nat k) by (apply Z.mod_le; lia).
  zbool; simpl; try reflexivity; lia.
Qed.

Lemma unrestored_end g i : n <= i -> unrest g i = ud.
Proof.
  intros Hi. apply imap_same. intros k x Hx. apply lookup_bound in Hx.
  zbool; simpl; try reflexivity; lia.
Qed.

Lemma vnth_bumped g i : 0 <= i < n -> vnth (bump g i) i = vnth ud i.
Proof.
  intros Hi.
  destruct (lookup_lt_is_Some_2 ud (Z.to_nat i)) as [x Hx]; [lia|].
  rewrite <- (Z2Nat.id i) by lia.
  rewrite (vnth_lookup ud _ x Hx).
  apply vnth_lookup. unfold bumped. rewrite list_lookup_imap, Hx. simpl.
  zbool; simpl; try reflexivity; lia.
Qed.

Lemma bumped_step g i :
  0 <= i < n -> i mod w = g ->
  <[Z.to_nat i := Radd (vnth ud i) (inc i)]> (bump g i) = bump g (i + w).
Proof.
  intros Hi Hg. apply list_eq. intros k.
  destruct (decide (Z.to_nat i = k)) as [<-|Hne].
  - rewrite list_lookup_insert_eq
      by (unfold bumped; rewrite length_imap; lia).
    destruct (lookup_lt_is_Some_2 ud (Z.to_nat i)) as [x Hx]; [lia|].
    unfold bumped. rewrite list_lookup_imap, Hx. simpl.
    rewrite Z2Nat.id by lia.
    rewrite <- (Z2Nat.id i) at 1 by lia. rewrite (vnth_lookup ud _ x Hx).
    zbool; simpl; try reflexivity; lia.
  - rewrite list_lookup_insert_ne by assumption.
    unfold bumped. rewrite !list_lookup_imap.
    destruct (ud !! k) as [x|] eqn:Hx; simpl; [|reflexivity].
    f_equal.
    destruct (Z.of_nat k mod w =? g) eqn:E; simpl; [|reflexivity].
    apply Z.eqb_eq in E.
    assert (Z.of_nat k < i \/ i + w <= Z.of_nat k) as [Hlt|Hge].
    { destruct (Z_lt_le_dec (Z.of_nat k) i); [auto|].
      destruct (Z_lt_le_dec (Z.of_nat k) (i + w)); [|auto].
      exfalso. apply Hne.
      assert (Z.of_nat k = i) by (apply (mod_same_window w); lia). lia. }
    + zbool; simpl; try reflexivity; lia.
    + zbool; simpl; try reflexivity; lia.
Qed.

Lemma unrestored_step g i :
  0 <= i < n -> i mod w = g ->
  <[Z.to_nat i := vnth ud i]> (unrest g i) = unrest g (i + w).
Proof.
  intros Hi Hg. apply list_eq. intros k.
  destruct (decide (Z.to_nat i = k)) as [<-|Hne].
  - rewrite list_lookup_insert_eq
      by (unfold unrestored; rewrite length_imap; lia).
    destruct (lookup_lt_is_Some_2 ud (Z.to_nat i)) as [x Hx]; [lia|].
    unfold unrestored. rewrite list_lookup_imap, Hx. simpl.
    rewrite Z2Nat.id by lia.
    rewrite <- (Z2Nat.id i) at 1 by lia. rewrite (vnth_lookup ud _ x Hx).
    zbool; simpl; try reflexivity; lia.
  - rewrite list_lookup_insert_ne by assumption.
    unfold unrestored. rewrite !list_lookup_imap.
    destruct (ud !! k) as [x|] eqn:Hx; simpl; [|reflexivity].
    f_equal.
    destruct (Z.of_nat k mod w =? g) eqn:E; simpl; [|reflexivity].
    apply Z.eqb_eq in E.
    assert (Z.of_nat k < i \/ i + w <= Z.of_nat k) as [Hlt|Hge].
    { destruct (Z_lt_le_dec (Z.of_nat k) i); [auto|].
      destruct (Z_lt_le_dec (Z.of_nat k) (i + w)); [|auto].
      exfalso. apply Hne.
      assert (Z.of_nat k = i) by (apply (mod_same_window w); lia). lia. }
    + zbool; simpl; try reflexivity; lia.
    + zbool; simpl; try reflexivity; lia.
Qed.

(** The first loop over a group: every column of the group is perturbed. *)
Lemma increment_loop (S0 : vstore R) (g : Z) :
  holds S0 -> S0 !! utemp = Some ud -> 0 <= g < w ->
  for_loop (Z.to_nat n) (λ j, j <? n) w (increment_column u km utemp) g S0
  = Some (<[utemp := pert g]> S0).
Proof.
  intros Hin Hut Hg.
  destruct (for_loop_invariant
    (λ i s, i mod w = g /\ g <= i /\ s = <[utemp := bump g i]> S0)
    (λ j, j <? n) w (increment_column u km utemp) n) with
    (fuel := Z.to_nat n) (i := g) (s := S0) as (s' & i' & Hrun & Hi' & HP).
  - lia.
  - reflexivity.
  - intros i s Hi (Hm & Hgi & ->).
    exists (<[utemp := bump g (i + w)]> S0). split.
    + unfold increment_column.
      rewrite dq_inc_spec by (try apply holds_inputs_utemp; auto; lia).
      simpl.
      rewrite (sget_vnth _ utemp (bump g i))
        by (rewrite ?lookup_insert_eq; unfold bumped;
            rewrite ?length_imap; auto; lia).
      simpl.
      rewrite (sset_insert _ utemp (bump g i))
        by (rewrite ?lookup_insert_eq; unfold bumped;
            rewrite ?length_imap; auto; lia).
      rewrite insert_insert_eq, vnth_bumped by lia.
      rewrite bumped_step by (auto; lia). reflexivity.
    + rewrite mod_shift by lia. repeat split; auto; lia.
  - repeat split; try lia.
    + apply Z.mod_small. lia.
    + rewrite bumped_start by lia. symmetry. by apply insert_id.
  - lia.
  - destruct HP as (_ & _ & ->). rewrite Hrun.
    rewrite bumped_end by assumption. reflexivity.
Qed.

(** The innermost loop: the rows of the band of column [j] are loaded. *)
Lemma load_loop (S : vstore R) (Fp : list R) (inc_inv : R) (j : Z) (Jin : gmap (Z * Z) R) :
  holds S -> S !! futemp = Some Fp -> Z.of_nat (length Fp) = n ->
  0 <= j < n ->
  exists Jout,
    for_loop (Z.to_nat n) (λ i, i <=? MINZ (j + mlower) (n - 1)) 1
      (load_entry fu futemp S inc_inv j) (MAXZ 0 (j - mupper)) Jin = Some Jout /\
    forall r c, Jout !! (r, c) =
      if (c =? j) && band r j
      then Some (Rmul inc_inv (Rsub (vnth Fp r) (vnth fud r)))
      else Jin !! (r, c).
Proof.
  intros (Hu & Hf & Hs) HFp HlFp Hj.
  rewrite MAXZ_max, MINZ_min.
  set (i1 := Z.max 0 (j - mupper)). set (i2 := Z.min (j + mlower) (n - 1)).
  assert (Hi1 : 0 <= i1 <= j) by (subst i1; lia).
  assert (Hi2 : j <= i2 <= n - 1) by (subst i2; lia).
  destruct (for_loop_invariant
    (λ r0 J, i1 <= r0 <= i2 + 1 /\
             forall r c, J !! (r, c) =
               if (c =? j) && (i1 <=? r) && (r <? r0)
               then Some (Rmul inc_inv (Rsub (vnth Fp r) (vnth fud r)))
               else Jin !! (r, c))
    (λ i, i <=? i2) 1 (load_entry fu futemp S inc_inv j) (i2 + 1)) with
    (fuel := Z.to_nat n) (i := i1) (s := Jin) as (J' & i' & Hrun & Hi' & HP).
  - lia.
  - intros i. zbool; try reflexivity; lia.
  - intros i J Hi (Hb & HJ).
    eexists. split.
    + unfold load_entry.
      rewrite (sget_vnth _ _ _ _ HFp) by lia. simpl.
      rewrite (sget_vnth _ _ _ _ Hf) by lia. simpl. reflexivity.
    + split; [lia|]. intros r c.
      rewrite lookup_insert. case_decide as Hd.
      * inversion Hd; subst r c. zbool; simpl; try reflexivity; lia.
      * rewrite HJ.
        assert (Hrc : c <> j \/ r <> i)
          by (destruct (decide (c = j)), (decide (r = i)); subst; auto;
              exfalso; apply Hd; reflexivity).
        destruct Hrc; zbool; simpl; try reflexivity; lia.
  - split; [lia|]. intros r c. zbool; simpl; try reflexivity; lia.
  - lia.
  - exists J'. split; [assumption|]. destruct HP as (Hb & HJ).
    intros r c. rewrite HJ. unfold in_band. fold i1 i2.
    zbool; simpl; try reflexivity; lia.
Qed.

(** Equalities of stores reduce to lookups. *)
Ltac store_eq :=
  apply map_eq; intros ?;
  repeat (rewrite lookup_insert; case_decide); subst;
  try reflexivity; try congruence.

(** The second loop over a group: every column of the group is restored
    and its band is loaded. *)
Lemma restore_loop (B : vstore R) (Fp : list R) (g : Z) (Jin : gmap (Z * Z) R)
    (ev : list (list R)) :
  holds B -> B !! utemp = Some ud -> Z.of_nat (length Fp) = n ->
  0 <= g < w ->
  exists Jout,
    for_loop (Z.to_nat n) (λ j, j <? n) w
      (restore_and_load n mupper mlower u fu km futemp utemp) g
      {| dq_J := Jin; dq_store := <[utemp := pert g]> (<[futemp := Fp]> B);
         dq_evals := ev |}
    = Some {| dq_J := Jout; dq_store := <[futemp := Fp]> B; dq_evals := ev |} /\
    forall r c, Jout !! (r, c) =
      if (0 <=? c) && (c <? n) && (c mod w =? g) && band r c
      then Some (Rmul (Rdiv ONE (inc c)) (Rsub (vnth Fp r) (vnth fud r)))
      else Jin !! (r, c).
Proof.
  intros Hin Hut HlFp Hg.
  destruct (for_loop_invariant
    (λ i s, i mod w = g /\ g <= i /\
            dq_store s = <[utemp := unrest g i]> (<[futemp := Fp]> B) /\
            dq_evals s = ev /\
            forall r c, dq_J s !! (r, c) =
              if (0 <=? c) && (c <? n) && (c mod w =? g) && (c <? i) && band r c
              then Some (Rmul (Rdiv ONE (inc c)) (Rsub (vnth Fp r) (vnth fud r)))
              else Jin !! (r, c))
    (λ j, j <? n) w (restore_and_load n mupper mlower u fu km futemp utemp) n)
    with (fuel := Z.to_nat n) (i := g)
         (s := {| dq_J := Jin;
                  dq_store := <[utemp := pert g]> (<[futemp := Fp]> B);
                  dq_evals := ev |})
    as (s' & i' & Hrun & Hi' & HP).
  - lia.
  - reflexivity.
  - intros i s Hi (Hm & Hgi & Hst & Hev & HJ).
    pose (st' := <[utemp := unrest g (i + w)]> (<[futemp := Fp]> B)).
    assert (Hin' : holds st')
      by (apply holds_inputs_utemp, holds_inputs_futemp, Hin).
    assert (HFp' : st' !! futemp = Some Fp).
    { unfold st'. rewrite lookup_insert_ne by auto. apply lookup_insert_eq. }
    destruct (load_loop st' Fp (Rdiv ONE (inc i)) i (dq_J s) Hin' HFp' HlFp)
      as (Jout & Hload & HJout); [lia|].
    exists {| dq_J := Jout; dq_store := st'; dq_evals := dq_evals s |}. split.
    + unfold restore_and_load. rewrite Hst.
      rewrite (sget_vnth _ u ud)
        by (try apply holds_inputs_utemp, holds_inputs_futemp, Hin; lia).
      simpl.
      rewrite (sset_insert _ utemp (unrest g i))
        by (rewrite ?lookup_insert_eq; unfold unrestored;
            rewrite ?length_imap; auto; lia).
      simpl. rewrite insert_insert_eq, unrestored_step by (auto; lia).
      fold st'. rewrite dq_inc_spec by (auto; lia). simpl.
      rewrite Hload. reflexivity.
    + simpl. rewrite mod_shift by lia. repeat split; auto; try lia.
      intros r c. rewrite HJout, HJ.
      destruct (c =? i) eqn:Eci; simpl.
      * apply Z.eqb_eq in Eci. subst c.
        destruct (band r i); simpl; [|repeat rewrite andb_false_r; reflexivity].
        zbool; simpl; try reflexivity; lia.
      * apply Z.eqb_neq in Eci.
        destruct (c mod w =? g) eqn:Ecg; simpl;
          [|repeat rewrite andb_false_r; reflexivity].
        apply Z.eqb_eq in Ecg.
        assert (0 <= c -> c < i \/ i + w <= c) as Hc.
        { intros Hc0. destruct (Z_lt_le_dec c i); [auto|].
          destruct (Z_lt_le_dec c (i + w)); [|auto].
          exfalso. apply Eci. apply (mod_same_window w); lia. }
        destruct (Z_lt_le_dec c 0).
        { zbool; simpl; try reflexivity; lia. }
        destruct Hc as [Hc|Hc]; [lia| |];
          zbool; simpl; try reflexivity; lia.
  - simpl. repeat split; try lia.
    + apply Z.mod_small. lia.
    + rewrite unrestored_start by lia. reflexivity.
    + intros r c.
      assert (c mod w = g -> 0 <= c -> g <= c).
      { intros <- Hc. apply Z.mod_le; lia. }
      zbool; simpl; try reflexivity; lia.
  - lia.
  - destruct HP as (_ & _ & Hst & Hev & HJ).
    destruct s' as [J' st' ev']. simpl in *. subst ev'.
    exists J'. split.
    + rewrite Hrun. f_equal. f_equal.
      rewrite Hst, unrestored_end by assumption.
      apply insert_id. rewrite lookup_insert_ne by auto. assumption.
    + intros r c. rewrite HJ. zbool; simpl; try reflexivity; lia.
Qed.

(** One pass of the loop over the groups. *)
Lemma do_group_spec (B : vstore R) (X : list R) (s : dq_state) (G : Z) :
  holds B -> B !! utemp = Some ud ->
  dq_store s = <[futemp := X]> B -> 0 <= G - 1 < w ->
  exists s',
    do_group n mupper mlower u fu km futemp utemp G s = Some s' /\
    dq_store s' = <[futemp := kin_func km (pert (G - 1))]> B /\
    dq_evals s' = dq_evals s ++ [pert (G - 1)] /\
    forall r c, dq_J s' !! (r, c) =
      if (0 <=? c) && (c <? n) && (c mod w =? G - 1) && band r c
      then Some (entry r c)
      else dq_J s !! (r, c).
Proof.
  intros Hin Hut Hst Hg.
  set (g := G - 1) in *. set (Fp := kin_func km (pert g)).
  assert (HlFp : Z.of_nat (length Fp) = n) by (apply HF, length_pert).
  destruct (restore_loop B Fp g (dq_J s) (dq_evals s ++ [pert g]) Hin Hut HlFp Hg)
    as (Jout & Hrun & HJ).
  eexists. split; [|split; [|split]].
  - unfold do_group. rewrite Hst. fold g.
    rewrite increment_loop
      by (try apply holds_inputs_futemp; try rewrite lookup_insert_ne; auto).
    simpl. unfold call_func. simpl.
    rewrite lookup_insert_eq. simpl.
    rewrite lookup_insert_ne, lookup_insert_eq by auto. simpl.
    fold Fp.
    replace (<[futemp := Fp]> (<[utemp := pert g]> (<[futemp := X]> B)))
      with (<[utemp := pert g]> (<[futemp := Fp]> B)) by store_eq.
    exact Hrun.
  - reflexivity.
  - reflexivity.
  - simpl. intros r c. rewrite HJ. unfold dq_entry.
    destruct (c mod w =? g) eqn:E;
      [|repeat rewrite ?andb_false_r, ?andb_false_l; reflexivity].
    apply Z.eqb_eq in E. rewrite E. reflexivity.
Qed.

(** The whole routine, for work vectors distinct from the vectors it
    reads. *)
Lemma KINBandDQJac_run (J : BandMat R) (st : vstore R)
    (lm : KINBandMemRec R) (td fd0 : list R) :
  kin_lmem km = Some lm ->
  holds_inputs u fu (kin_uscale km) ud sd fud st ->
  st !! utemp = Some td -> Z.of_nat (length td) = n ->
  st !! futemp = Some fd0 ->
  exists r,
    KINBandDQJac n mupper mlower J u fu km futemp utemp st = Some r /\
    dqr_flag r = 0 /\
    kin_lmem (dqr_kin_mem r) = Some (add_nfeB (Z.min w n) lm) /\
    length (dqr_evals r) = Z.to_nat (Z.min w n) /\
    (forall g : nat, (g < Z.to_nat (Z.min w n))%nat ->
       dqr_evals r !! g = Some (pert (Z.of_nat g))) /\
    dqr_store r !! utemp = Some ud /\
    (forall v, v <> utemp -> v <> futemp -> dqr_store r !! v = st !! v) /\
    (forall i j, band_data (dqr_J r) !! (i, j) =
       if (0 <=? j) && (j <? n) && band i j then Some (entry i j)
       else band_data J !! (i, j)).
Proof.
  intros Hlm Hin Hut Hltd Hft.
  set (B := <[utemp := ud]> st).
  assert (HinB : holds B) by (apply holds_inputs_utemp, Hin).
  assert (HutB : B !! utemp = Some ud) by apply lookup_insert_eq.
  assert (HB0 : B = <[futemp := fd0]> B).
  { symmetry. apply insert_id. unfold B. by rewrite lookup_insert_ne. }
  set (ng := Z.min w n).
  destruct (for_loop_invariant
    (λ G s, 1 <= G <= ng + 1 /\
            (exists X, dq_store s = <[futemp := X]> B) /\
            length (dq_evals s) = Z.to_nat (G - 1) /\
            (forall g : nat, (g < Z.to_nat (G - 1))%nat ->
               dq_evals s !! g = Some (pert (Z.of_nat g))) /\
            forall r c, dq_J s !! (r, c) =
              if (0 <=? c) && (c <? n) && (c mod w <? G - 1) && band r c
              then Some (entry r c) else band_data J !! (r, c))
    (λ group, group <=? MINZ w n) 1
    (do_group n mupper mlower u fu km futemp utemp) (ng + 1))
    with (fuel := Z.to_nat n) (i := 1)
         (s := {| dq_J := band_data J; dq_store := B; dq_evals := [] |})
    as (s' & G' & Hrun & HG' & HP).
  - lia.
  - intros G. rewrite MINZ_min. fold ng. zbool; try reflexivity; lia.
  - intros G s HG (Hb & (X & Hst) & Hlen & Hev & HJ).
    destruct (do_group_spec B X s G HinB HutB Hst) as (s1 & Hd & Hst1 & Hev1 & HJ1);
      [lia|].
    exists s1. split; [assumption|]. split; [lia|]. split; [eauto|].
    split; [|split].
    + rewrite Hev1, length_app, Hlen. simpl. lia.
    + intros g Hg. rewrite Hev1.
      destruct (decide (g < Z.to_nat (G - 1))%nat) as [Hlt|Hge].
      * rewrite lookup_app_l by lia. by apply Hev.
      * rewrite lookup_app_r by lia.
        replace (g - length (dq_evals s))%nat with 0%nat by lia. simpl.
        do 2 f_equal. lia.
    + intros r c. rewrite HJ1, HJ.
      replace (G + 1 - 1) with G by lia.
      pose proof (Z.mod_pos_bound c w ltac:(lia)).
      zbool; simpl; try reflexivity; lia.
  - split; [lia|]. split; [exists fd0; exact HB0|]. simpl.
    split; [reflexivity|]. split; [intros g Hg; lia|].
    intros r c. pose proof (Z.mod_pos_bound c w ltac:(lia)).
    zbool; simpl; try reflexivity; lia.
  - lia.
  - destruct HP as (Hb & (X & Hst) & Hlen & Hev & HJ).
    assert (G' = ng + 1) by lia. subst G'.
    replace (ng + 1 - 1) with ng in * by lia.
    eexists. split.
    + unfold KINBandDQJac. rewrite Hlm. simpl.
      destruct Hin as (Hu & Hfu & Hus). rewrite Hu. simpl. rewrite Hut. simpl.
      replace (length td =? length ud)%nat with true
        by (symmetry; apply Nat.eqb_eq; lia).
      simpl. fold B. rewrite Hrun. simpl. reflexivity.
    + simpl. rewrite MINZ_min. fold ng.
      split; [reflexivity|]. split; [reflexivity|]. split; [assumption|].
      split; [assumption|]. split; [|split].
      * rewrite Hst, lookup_insert_ne by auto. assumption.
      * intros v Hv1 Hv2. rewrite Hst. unfold B.
        rewrite !lookup_insert_ne by auto. reflexivity.
      * intros i j. rewrite HJ.
        destruct ((0 <=? j) && (j <? n)) eqn:Ej; simpl; [|reflexivity].
        apply andb_true_iff in Ej. destruct Ej as [E0 E1].
        apply Z.leb_le in E0. apply Z.ltb_lt in E1.
        assert (j mod w < ng).
        { pose proof (Z.mod_pos_bound j w ltac:(lia)).
          destruct (Z_lt_le_dec n w).
          - rewrite Z.mod_small by lia. lia.
          - lia. }
        zbool; simpl; try reflexivity; lia.
Qed.

(** C3.  For a dimension [n] and half-bandwidths [mlower], [mupper] that
    are not negative, one build of the banded difference-quotient Jacobian
    calls the residual function exactly min(mlower+mupper+1, n) times and
    adds that number to the counter [nfeB]; the g-th call sees [u] with
    exactly the columns [k] of group [k mod (mlower+mupper+1) = g]
    perturbed; and every entry [(i,j)] with [0 <= j < n] and
    [max(0, j-mupper) <= i <= min(j+mlower, n-1)] is set to
    [(1/inc_j) * (F(perturbed u)[i] - fu[i])] for the group of [j]. *)
Theorem KINBandDQJac_group_evaluations (J : BandMat R) (st : vstore R)
    (lm : KINBandMemRec R) (td fd0 : list R) :
  kin_lmem km = Some lm ->
  holds_inputs u fu (kin_uscale km) ud sd fud st ->
  st !! utemp = Some td -> Z.of_nat (length td) = n ->
  st !! futemp = Some fd0 ->
  exists r,
    KINBandDQJac n mupper mlower J u fu km futemp utemp st = Some r /\
    b_nfeB <$> kin_lmem (dqr_kin_mem r) = Some (b_nfeB lm + Z.min w n) /\
    length (dqr_evals r) = Z.to_nat (Z.min w n) /\
    (forall g : nat, (g < Z.to_nat (Z.min w n))%nat ->
       dqr_evals r !! g = Some (pert (Z.of_nat g))) /\
    (forall i j, 0 <= j < n ->
       Z.max 0 (j - mupper) <= i <= Z.min (j + mlower) (n - 1) ->
       band_data (dqr_J r) !! (i, j) = Some (entry i j)).
Proof.
  intros Hlm Hin Hut Hltd Hft.
  destruct (KINBandDQJac_run J st lm td fd0 Hlm Hin Hut Hltd Hft)
    as (r & Hrun & _ & Hl & Hlen & Hev & _ & _ & HJ).
  exists r. split; [assumption|]. split; [rewrite Hl; reflexivity|].
  split; [assumption|]. split; [assumption|].
  intros i j Hj Hi. rewrite HJ. unfold in_band.
  zbool; simpl; try reflexivity; lia.
Qed.

(** C5.  In one build every perturbation is undone before the next group
    is perturbed: the vector the residual function sees in the g-th group
    agrees with [u] in every column outside that group, at the end the work
    vector [utemp] equals [u], and the vectors [u], [fu] and [uscale] are
    what they were. *)
Theorem KINBandDQJac_restores_utemp (J : BandMat R) (st : vstore R)
    (lm : KINBandMemRec R) (td fd0 : list R) :
  kin_lmem km = Some lm ->
  holds_inputs u fu (kin_uscale km) ud sd fud st ->
  st !! utemp = Some td -> Z.of_nat (length td) = n ->
  st !! futemp = Some fd0 ->
  exists r,
    KINBandDQJac n mupper mlower J u fu km futemp utemp st = Some r /\
    (forall (g : nat) (p : list R), dqr_evals r !! g = Some p ->
       length p = length ud /\
       forall k : nat, Z.of_nat k mod w <> Z.of_nat g -> p !! k = ud !! k) /\
    dqr_store r !! utemp = Some ud /\
    dqr_store r !! u = Some ud /\
    dqr_store r !! fu = Some fud /\
    dqr_store r !! us = Some sd.
Proof.
  intros Hlm Hin Hut Hltd Hft.
  destruct (KINBandDQJac_run J st lm td fd0 Hlm Hin Hut Hltd Hft)
    as (r & Hrun & _ & _ & Hlen & Hev & Hu & Hfr & _).
  destruct Hin as (Hiu & Hif & His).
  exists r. split; [assumption|]. split; [|split; [assumption|]].
  - intros g p Hp.
    assert (Hg : (g < Z.to_nat (Z.min w n))%nat)
      by (rewrite <- Hlen; eapply lookup_lt_Some; eauto).
    rewrite (Hev g Hg) in Hp. injection Hp as <-.
    split; [unfold perturbed; apply length_imap|].
    intros k Hk. unfold perturbed. rewrite list_lookup_imap.
    destruct (ud !! k); simpl; [|reflexivity].
    apply Z.eqb_neq in Hk. rewrite Hk. reflexivity.
  - rewrite !Hfr by auto. auto.
Qed.

End DQ_Proofs.

(** ** The perturbation size in binary64 *)

Section Inc_double.
Local Open Scope float_scope.

(** The two zeros are the only floats that compare equal to zero. *)
Lemma is_zero_cases (x : float) :
  is_zero x = true -> x = 0 \/ x = -0.
Proof.
  unfold is_zero. rewrite FloatAxioms.eqb_spec. intros Hx.
  rewrite <- (SF2Prim_Prim2SF x).
  destruct (Prim2SF x) as [[|]|[|]| |[|] m e]; try discriminate Hx.
  - right. reflexivity.
  - left. reflexivity.
Qed.

Lemma is_zero_Prim2SF (x : float) (s : bool) :
  Prim2SF x = S754_zero s -> is_zero x = true.
Proof.
  intros Hx. unfold is_zero. rewrite FloatAxioms.eqb_spec, Hx. reflexivity.
Qed.

(** A finite float is a zero or a finite nonzero number. *)
Lemma is_finite_cases (x : float) :
  is_finite x = true ->
  (exists s, Prim2SF x = S754_zero s) \/
  (exists s m e, Prim2SF x = S754_finite s m e).
Proof.
  unfold is_finite, is_nan, is_infinity.
  rewrite negb_true_iff, orb_false_iff, negb_false_iff.
  rewrite !FloatAxioms.eqb_spec, FloatAxioms.abs_spec. intros [Hn Hi].
  destruct (Prim2SF x) as [s|s| |s m e] eqn:E.
  - left. eauto.
  - discriminate Hi.
  - discriminate Hn.
  - right. eauto.
Qed.

Lemma mul_finite_zero (s z : float) :
  is_finite s = true -> is_zero z = true -> is_zero (s * z) = true.
Proof.
  intros Hs Hz.
  assert (Hz' : exists sz, Prim2SF z = S754_zero sz).
  { destruct (is_zero_cases z Hz) as [-> | ->]; eexists; reflexivity. }
  destruct Hz' as [sz Ez].
  destruct (is_finite_cases s Hs) as [[ss Es]|(ss & m & e & Es)].
  - apply (is_zero_Prim2SF _ (xorb ss sz)). rewrite FloatAxioms.mul_spec, Es, Ez. reflexivity.
  - apply (is_zero_Prim2SF _ (xorb ss sz)). rewrite FloatAxioms.mul_spec, Es, Ez. reflexivity.
Qed.

Lemma MAX_ABS_zero (a b : float) :
  is_zero a = true -> is_zero b = true ->
  is_zero (MAX (ABS a) (ABS b)) = true.
Proof.
  intros Ha Hb.
  destruct (is_zero_cases a Ha) as [-> | ->];
    destruct (is_zero_cases b Hb) as [-> | ->]; reflexivity.
Qed.

Lemma div_one_zero (z : float) :
  is_zero z = true -> is_infinity (Rdiv ONE z) = true.
Proof.
  intros Hz. destruct (is_zero_cases z Hz) as [-> | ->]; reflexivity.
Qed.

(** C4 (as amended).  The increment of column [j] is the product
    [sqrt_relfunc * MAX(ABS(u_j), ABS(uscale_j))] as the arithmetic of
    [realtype] rounds it, with no floor under it: when [u_j] and
    [uscale_j] are both zero (and [sqrt_relfunc] is finite) the increment
    is zero and [ONE/inc] is a division by zero, which binary64 answers
    with an infinity. *)
Theorem dq_inc_no_floor (km : KINMem float) (st : vstore float) (u : vec_id)
    (j : Z) (uj sj : float) :
  sget st u j = Some uj ->
  sget st (kin_uscale km) j = Some sj ->
  exists inc,
    dq_inc km st u j = Some inc /\
    inc = kin_sqrt_relfunc km * MAX (ABS uj) (ABS sj) /\
    (is_finite (kin_sqrt_relfunc km) = true ->
     is_zero uj = true -> is_zero sj = true ->
     is_zero inc = true /\ is_infinity (Rdiv ONE inc) = true).
Proof.
  intros Hu Hs. unfold dq_inc. rewrite Hu, Hs. simpl.
  eexists. split; [reflexivity|]. split; [reflexivity|].
  intros Hf Hzu Hzs.
  assert (Hz : is_zero (kin_sqrt_relfunc km * MAX (ABS uj) (ABS sj)) = true).
  { apply mul_finite_zero; [assumption|]. by apply MAX_ABS_zero. }
  split; [exact Hz | by apply div_one_zero].
Qed.

End Inc_double.

(** ** The constructor of the band solver *)

Section KINBand_Properties.
Context {R : Type}.

End KINBand_Properties.

(** ** The preconditioner-setup protocol *)

Section Jok_Protocol.

Lemma jok_contract_from_spec (cached : bool) (calls : list PrecSetupCall) :
  jok_contract_from cached calls = true <->
  forall pre c post, calls = pre ++ c :: post -> call_jok c = true ->
    cached = true \/ exists c0, c0 ∈ pre /\ fresh_success c0 = true.
Proof.
  revert cached. induction calls as [|c1 rest IH]; intros cached; simpl.
  - split; [|reflexivity]. intros _ pre c post Hnil.
    destruct pre; discriminate.
  - rewrite andb_true_iff, IH. split.
    + intros [Himp Hrest] pre c post Heq Hjok.
      destruct pre as [|p pre]; simpl in Heq; injection Heq as -> ->.
      * rewrite Hjok in Himp. simpl in Himp. auto.
      * destruct (Hrest pre c post eq_refl Hjok) as [Hc|(c0 & Hin & Hfs)].
        -- apply orb_true_iff in Hc. destruct Hc as [Hc|Hc]; [auto|].
           right. exists p. split; [apply list_elem_of_here | assumption].
        -- right. exists c0. split; [by apply list_elem_of_further | assumption].
    + intros Hall. split.
      * destruct (call_jok c1) eqn:Ej; [|reflexivity]. simpl.
        destruct (Hall [] c1 rest eq_refl Ej) as [Hc|(c0 & Hin & _)];
          [assumption|]. by apply elem_of_nil in Hin.
      * intros pre c post -> Hjok.
        destruct (Hall (c1 :: pre) c post eq_refl Hjok) as [Hc|(c0 & Hin & Hfs)].
        -- left. rewrite Hc. reflexivity.
        -- apply elem_of_cons in Hin. destruct Hin as [->|Hin].
           ++ left. rewrite Hfs. apply orb_true_r.
           ++ right. eauto.
Qed.

Lemma issue_calls_contract (cached : bool) (rqs : list setup_request) :
  jok_contract_from cached (issue_calls cached rqs) = true.
Proof.
  revert cached. induction rqs as [|rq rest IH]; intros cached; simpl.
  - reflexivity.
  - rewrite IH, andb_true_r. unfold issue_jok.
    destruct (wants_reuse rq), cached; reflexivity.
Qed.

(** C8.  In every sequence of preconditioner-setup calls the solver layer
    issues, a call with [jok = true] comes only after an earlier call with
    [jok = false] that returned success; in particular the first call of a
    run has [jok = false]. *)
Theorem solver_layer_jok_after_fresh (rqs : list setup_request) :
  jok_contract (solver_layer_calls rqs) = true /\
  (forall pre c post,
     solver_layer_calls rqs = pre ++ c :: post -> call_jok c = true ->
     exists c0, c0 ∈ pre /\ call_jok c0 = false /\ call_ret c0 = 0) /\
  (forall c rest, solver_layer_calls rqs = c :: rest -> call_jok c = false).
Proof.
  assert (Hc : jok_contract (solver_layer_calls rqs) = true)
    by apply issue_calls_contract.
  split; [assumption|].
  assert (Hall : forall pre c post,
     solver_layer_calls rqs = pre ++ c :: post -> call_jok c = true ->
     exists c0, c0 ∈ pre /\ call_jok c0 = false /\ call_ret c0 = 0).
  { intros pre c post Heq Hjok.
    destruct (proj1 (jok_contract_from_spec _ _) Hc pre c post Heq Hjok)
      as [Hf|(c0 & Hin & Hfs)]; [discriminate|].
    exists c0. split; [assumption|]. unfold fresh_success in Hfs.
    apply andb_true_iff in Hfs. destruct Hfs as [Hj Hr].
    apply negb_true_iff in Hj. apply Z.eqb_eq in Hr. auto. }
  split; [assumption|].
  intros c rest Heq. destruct (call_jok c) eqn:Ej; [|reflexivity].
  destruct (Hall [] c rest Heq Ej) as (c0 & Hin & _).
  by apply elem_of_nil in Hin.
Qed.

(** A sequence of calls that opens with [jok = true] violates the
    contract, whatever follows. *)
Lemma jok_first_call_flagged (ret : Z) (rest : list PrecSetupCall) :
  jok_contract ({| call_jok := true; call_ret := ret |} :: rest) = false.
Proof. reflexivity. Qed.

End Jok_Protocol.

(** ** Runs of the band solver in binary64 *)

Section KINBAND_Runs.
Local Open Scope float_scope.

Lemma length_tridiag (v : list float) : length (tridiag v) = length v.
Proof. unfold tridiag. apply length_imap. Qed.

(** Dimension 10 with [ml = mu = 1]: three residual calls for the ten
  columns. *)
Lemma KINBandDQJac_group_evaluations_witness :
((0 <= 10)%Z /\ (0 <= 1)%Z /\ Z.of_nat (length ones10) = 10%Z /\
 Z.of_nat (length (tridiag ones10)) = 10%Z /\
 (forall v, Z.of_nat (length v) = 10%Z ->
            Z.of_nat (length (kin_func kin_mem10 v)) = 10%Z) /\
 id_tmp2 <> id_u /\ id_tmp2 <> id_fu /\ id_tmp2 <> kin_uscale kin_mem10 /\
 id_tmp1 <> id_u /\ id_tmp1 <> id_fu /\ id_tmp1 <> kin_uscale kin_mem10 /\
 id_tmp1 <> id_tmp2 /\
 kin_lmem kin_mem10 = Some (band_rec 10 1 1 2) /\
 holds_inputs id_u id_fu (kin_uscale kin_mem10) ones10 ones10
   (tridiag ones10) store10 /\
 store10 !! id_tmp2 = Some zeros10 /\ store10 !! id_tmp1 = Some zeros10) /\
exists r,
  KINBandDQJac 10 1 1 J10 id_u id_fu kin_mem10 id_tmp1 id_tmp2 store10 = Some r /\
  b_nfeB <$> kin_lmem (dqr_kin_mem r) = Some 3%Z /\
  length (dqr_evals r) = 3%nat /\
  (forall g : nat, (g < 3)%nat ->
     dqr_evals r !! g =
     Some (perturbed (kin_sqrt_relfunc kin_mem10) 1%Z 1%Z ones10 ones10 (Z.of_nat g))) /\
  (forall i j, (0 <= j < 10)%Z ->
     (Z.max 0 (j - 1) <= i <= Z.min (j + 1) (10 - 1))%Z ->
     band_data (dqr_J r) !! (i, j) =
     Some (dq_entry (kin_sqrt_relfunc kin_mem10) (kin_func kin_mem10) 1%Z 1%Z
             ones10 ones10 (tridiag ones10) i j)).
Proof.
assert (HF : forall v, Z.of_nat (length v) = 10%Z ->
                       Z.of_nat (length (kin_func kin_mem10 v)) = 10%Z).
{ intros v Hv. simpl. rewrite length_tridiag. exact Hv. }
split.
- repeat split; try reflexivity; try discriminate; try lia; exact HF.
- apply (KINBandDQJac_group_evaluations 10 1 1 id_u id_fu id_tmp1 id_tmp2
           kin_mem10 ones10 ones10 (tridiag ones10)
           ltac:(lia) ltac:(lia) ltac:(lia) eq_refl eq_refl eq_refl HF
           ltac:(discriminate) ltac:(discriminate) ltac:(discriminate)
           ltac:(discriminate) ltac:(discriminate) ltac:(discriminate)
           ltac:(discriminate) J10 store10 (band_rec 10 1 1 2) zeros10 zeros10
           eq_refl);
    [repeat split; reflexivity | reflexivity | reflexivity | reflexivity].
Defined.

(** The same build: the work vector ends as [u]. *)
Lemma KINBandDQJac_restores_utemp_witness :
((0 <= 10)%Z /\ (0 <= 1)%Z /\ Z.of_nat (length ones10) = 10%Z /\
 Z.of_nat (length (tridiag ones10)) = 10%Z /\
 (forall v, Z.of_nat (length v) = 10%Z ->
            Z.of_nat (length (kin_func kin_mem10 v)) = 10%Z) /\
 id_tmp2 <> id_u /\ id_tmp2 <> id_fu /\ id_tmp2 <> kin_uscale kin_mem10 /\
 id_tmp1 <> id_u /\ id_tmp1 <> id_fu /\ id_tmp1 <> kin_uscale kin_mem10 /\
 id_tmp1 <> id_tmp2 /\
 kin_lmem kin_mem10 = Some (band_rec 10 1 1 2) /\
 holds_inputs id_u id_fu (kin_uscale kin_mem10) ones10 ones10
   (tridiag ones10) store10 /\
 store10 !! id_tmp2 = Some zeros10 /\ store10 !! id_tmp1 = Some zeros10) /\
exists r,
  KINBandDQJac 10 1 1 J10 id_u id_fu kin_mem10 id_tmp1 id_tmp2 store10 = Some r /\
  (forall (g : nat) (p : list float), dqr_evals r !! g = Some p ->
     length p = length ones10 /\
     forall k : nat, (Z.of_nat k mod (1 + 1 + 1))%Z <> Z.of_nat g ->
                     p !! k = ones10 !! k) /\
  dqr_store r !! id_tmp2 = Some ones10 /\
  dqr_store r !! id_u = Some ones10 /\
  dqr_store r !! id_fu = Some (tridiag ones10) /\
  dqr_store r !! kin_uscale kin_mem10 = Some ones10.
Proof.
assert (HF : forall v, Z.of_nat (length v) = 10%Z ->
                       Z.of_nat (length (kin_func kin_mem10 v)) = 10%Z).
{ intros v Hv. simpl. rewrite length_tridiag. exact Hv. }
split.
- repeat split; try reflexivity; try discriminate; try lia; exact HF.
- apply (KINBandDQJac_restores_utemp 10 1 1 id_u id_fu id_tmp1 id_tmp2
           kin_mem10 ones10 ones10 (tridiag ones10)
           ltac:(lia) ltac:(lia) ltac:(lia) eq_refl eq_refl eq_refl HF
           ltac:(discriminate) ltac:(discriminate) ltac:(discriminate)
           ltac:(discriminate) ltac:(discriminate) ltac:(discriminate)
           ltac:(discriminate) J10 store10 (band_rec 10 1 1 2) zeros10 zeros10
           eq_refl);
    [repeat split; reflexivity | reflexivity | reflexivity | reflexivity].
Defined.

(** C4, counterexample.  With [u_0 = 0] and [uscale_0 = 0] the increment is
  zero, its reciprocal is infinite, and the entry the build stores for the
  residual [F(v) = v] is not a number. *)
Lemma dq_inc_zero_without_floor :
sget store1 id_u 0 = Some 0 /\
sget store1 (kin_uscale kin_mem1) 0 = Some 0 /\
dq_inc kin_mem1 store1 id_u 0 = Some 0 /\
Rdiv ONE 0 = infinity /\
(r ← KINBandDQJac 1 0 0 J1 id_u id_fu kin_mem1 id_tmp1 id_tmp2 store1;
 band_data (dqr_J r) !! (0%Z, 0%Z)) = Some nan.
Proof. vm_compute. repeat split. Qed.


End KINBAND_Runs.

(** A column with [u_j = 0] and a zero scale factor. *)
Lemma dq_inc_no_floor_witness :
  sget store1 id_u 0 = Some 0%float /\
  sget store1 (kin_uscale kin_mem1) 0 = Some 0%float /\
  exists inc,
    dq_inc kin_mem1 store1 id_u 0 = Some inc /\
    inc = (kin_sqrt_relfunc kin_mem1 * MAX (ABS 0) (ABS 0))%float /\
    (is_finite (kin_sqrt_relfunc kin_mem1) = true ->
     is_zero 0 = true -> is_zero 0 = true ->
     is_zero inc = true /\ is_infinity (Rdiv ONE inc) = true).
Proof.
  split; [reflexivity|]. split; [reflexivity|].
  apply (dq_inc_no_floor kin_mem1 store1 id_u 0 0%float 0%float); reflexivity.
Defined.

(** A nonzero scale factor does not keep the increment away from zero
    either: with [u_0 = 0] and [uscale_0 = 2^-1060] the product
    [2^-26 * 2^-1060] rounds to zero. *)
Lemma dq_inc_underflow :
  sget store_tiny id_u 0 = Some 0%float /\
  sget store_tiny (kin_uscale kin_mem1) 0 = Some 0x1p-1060%float /\
  is_zero 0x1p-1060 = false /\
  dq_inc kin_mem1 store_tiny id_u 0 = Some 0%float.
Proof. vm_compute. repeat split. Qed.

(** ** Further properties of the KLU solver *)

Section KLU_Extra.
Context {R : Type} `{RealType R} `{Roundoff R} `{KLUPackage R}.

Implicit Types (S : SUNLinearSolverContent_KLU R) (A : SUNMatrix R).

(** What the two branches of setup leave behind, exit by exit. *)
Lemma setup_first_exits A S :
  let r := setup_first A S in
  SUNLinSolLastFlag_KLU (op_state r) = op_flag r /\
  klu_solver (op_state r) = klu_solver S /\
  ((op_flag r = SUNLS_SUCCESS /\ first_factorize (op_state r) = 0 /\
    is_Some (symbolic (op_state r)) /\ is_Some (numeric (op_state r))) \/
   (op_flag r = SUNLS_PACKAGE_FAIL_UNREC /\
    first_factorize (op_state r) = first_factorize S)) /\
  count_occ klu_call_eq_dec (op_calls r) CallAnalyze = 1%nat /\
  count_occ klu_call_eq_dec (op_calls r) CallRefactor = 0%nat /\
  (symbolic S = None -> numeric S = None ->
   op_calls r = [CallAnalyze] \/ op_calls r = [CallAnalyze; CallFactor]) /\
  (is_Some (symbolic S) -> head (op_calls r) = Some CallFreeSymbolic).
Proof.
  unfold setup_first, free_symbolic_if_set.
  destruct (symbolic S) as [sy0|] eqn:Hs0; simpl.
  - destruct (sun_klu_analyze _ _ _ _) as [[sy|] c]; simpl.
    + unfold free_numeric_if_set. simpl.
      destruct (numeric S) as [nu0|]; simpl; unfold do_factor; simpl;
        destruct (sun_klu_factor _ _ _ _ _) as [[nu|] c']; simpl;
        repeat split; eauto; try discriminate.
    + repeat split; auto; discriminate.
  - destruct (sun_klu_analyze _ _ _ _) as [[sy|] c]; simpl.
    + unfold free_numeric_if_set. simpl.
      destruct (numeric S) as [nu0|] eqn:Hn0; simpl; unfold do_factor; simpl;
        destruct (sun_klu_factor _ _ _ _ _) as [[nu|] c']; simpl;
        repeat split; eauto; try discriminate;
        intros [? [=]].
    + repeat split; auto; intros [? [=]].
Qed.

Lemma setup_refactor_exits A S :
  let r := setup_refactor A S in
  SUNLinSolLastFlag_KLU (op_state r) = op_flag r /\
  klu_solver (op_state r) = klu_solver S /\
  symbolic (op_state r) = symbolic S /\
  first_factorize (op_state r) = first_factorize S /\
  (op_flag r = SUNLS_SUCCESS \/ op_flag r = SUNLS_PACKAGE_FAIL_REC \/
   (op_flag r = SUNLS_PACKAGE_FAIL_UNREC /\ numeric (op_state r) = None /\
    last (op_calls r) = Some CallFactor)) /\
  count_occ klu_call_eq_dec (op_calls r) CallAnalyze = 0%nat /\
  head (op_calls r) = Some CallRefactor.
Proof.
  unfold setup_refactor.
  destruct (sun_klu_refactor _ _ _ _ _ _) as [[rv nu] c]. simpl.
  destruct (rv =? 0); simpl; [repeat split; auto|].
  destruct (sun_klu_rcond _ _ _) as [rv2 c2]. simpl.
  destruct (rv2 =? 0); simpl; [repeat split; auto|].
  destruct (Rltb _ _); simpl; [|repeat split; auto].
  destruct (sun_klu_condest _ _ _ _ _) as [rv3 c3]. simpl.
  destruct (rv3 =? 0); simpl; [repeat split; auto|].
  destruct (Rltb _ _); simpl; [|repeat split; auto].
  unfold do_factor, free_numeric_always. simpl.
  destruct (sun_klu_factor _ _ _ _ _) as [[nu4|] c4]; simpl;
    repeat split; auto.
Qed.

Lemma setup_branches S A :
  (is_SUNMATRIX_SPARSE (SUNMatGetID A) = false /\
   SUNLinSolSetup_KLU S A = return_flag SUNLS_ILL_INPUT S []) \/
  (is_SUNMATRIX_SPARSE (SUNMatGetID A) = true /\ first_factorize S <> 0 /\
   SUNLinSolSetup_KLU S A = setup_first A S) \/
  (is_SUNMATRIX_SPARSE (SUNMatGetID A) = true /\ first_factorize S = 0 /\
   SUNLinSolSetup_KLU S A = setup_refactor A S).
Proof.
  destruct (is_SUNMATRIX_SPARSE (SUNMatGetID A)) eqn:Hsp.
  - destruct (Z.eq_dec (first_factorize S) 0) as [Hff|Hff].
    + right. right. auto using setup_not_first.
    + right. left. auto using setup_is_first.
  - left. split; [reflexivity|]. unfold SUNLinSolSetup_KLU. rewrite Hsp.
    reflexivity.
Qed.

(** X1.  Setup clears the first-factorization flag exactly when a first
    factorization succeeds: a setup that starts with the flag set leaves it
    cleared on success and as it was on every failure, and a setup that
    starts with the flag cleared leaves it cleared whatever it returns. *)
Theorem setup_clears_first_factorize_on_success S A :
  let r := SUNLinSolSetup_KLU S A in
  (first_factorize S = 0 -> first_factorize (op_state r) = 0) /\
  (first_factorize S <> 0 ->
     (op_flag r = SUNLS_SUCCESS -> first_factorize (op_state r) = 0) /\
     (op_flag r <> SUNLS_SUCCESS ->
        first_factorize (op_state r) = first_factorize S)).
Proof.
  intros r. subst r.
  destruct (setup_branches S A) as [[Hsp ->]|[(Hsp & Hff & ->)|(Hsp & Hff & ->)]].
  - simpl. split; [auto|]. intros _. split; [discriminate | auto].
  - destruct (setup_first_exits A S) as (_ & _ & Hex & _).
    split; [contradiction|]. intros _.
    destruct Hex as [(Hf & Hz0 & _)|(Hf & Hk)]; rewrite Hf; split; auto;
      try discriminate; intros Hne; contradiction.
  - destruct (setup_refactor_exits A S) as (_ & _ & _ & Hk & _).
    split; [intros _; rewrite Hk; assumption | contradiction].
Qed.

(** X2.  Every exit of setup records the flag it returns as the last flag.
    The flag is SUNLS_ILL_INPUT exactly for a matrix that is not sparse;
    a first factorization ends in success or in the unrecoverable package
    failure, never in the recoverable one; and a setup on the reuse path
    ends in success, the recoverable or the unrecoverable package
    failure. *)
Theorem setup_records_returned_flag S A :
  let r := SUNLinSolSetup_KLU S A in
  SUNLinSolLastFlag_KLU (op_state r) = op_flag r /\
  (op_flag r = SUNLS_ILL_INPUT <->
   is_SUNMATRIX_SPARSE (SUNMatGetID A) = false) /\
  (is_SUNMATRIX_SPARSE (SUNMatGetID A) = true -> first_factorize S <> 0 ->
   op_flag r = SUNLS_SUCCESS \/ op_flag r = SUNLS_PACKAGE_FAIL_UNREC) /\
  (is_SUNMATRIX_SPARSE (SUNMatGetID A) = true -> first_factorize S = 0 ->
   op_flag r = SUNLS_SUCCESS \/ op_flag r = SUNLS_PACKAGE_FAIL_REC \/
   op_flag r = SUNLS_PACKAGE_FAIL_UNREC).
Proof.
  intros r. subst r.
  destruct (setup_branches S A) as [[Hsp ->]|[(Hsp & Hff & ->)|(Hsp & Hff & ->)]].
  - simpl. rewrite Hsp. repeat split; auto; discriminate.
  - destruct (setup_first_exits A S) as (Hl & _ & Hex & _).
    rewrite Hsp. split; [assumption|]. split; [|split].
    + split; [|discriminate].
      destruct Hex as [(Hf & _)|(Hf & _)]; rewrite Hf; discriminate.
    + intros _ _. destruct Hex as [(Hf & _)|(Hf & _)]; auto.
    + intros _ Hz. contradiction.
  - destruct (setup_refactor_exits A S) as (Hl & _ & _ & _ & Hex & _).
    rewrite Hsp. split; [assumption|]. split; [|split].
    + split; [|discriminate].
      destruct Hex as [Hf|[Hf|(Hf & _)]]; rewrite Hf; discriminate.
    + intros _ Hz. contradiction.
    + intros _ _. destruct Hex as [Hf|[Hf|(Hf & _)]]; auto.
Qed.

(** X3.  When a setup on the reuse path ends in the unrecoverable package
    failure, the recomputation of the numeric factorization has failed: the
    last KLU call was [factor], the content is left without a numeric
    object, and the first-factorization flag stays cleared, so the next
    setup on a sparse matrix goes to the refactor again. *)
Theorem failed_recomputation_keeps_reuse_path S A A' :
  is_SUNMATRIX_SPARSE (SUNMatGetID A') = true ->
  first_factorize S = 0 ->
  op_flag (SUNLinSolSetup_KLU S A) = SUNLS_PACKAGE_FAIL_UNREC ->
  let S1 := op_state (SUNLinSolSetup_KLU S A) in
  numeric S1 = None /\ first_factorize S1 = 0 /\
  last (op_calls (SUNLinSolSetup_KLU S A)) = Some CallFactor /\
  head (op_calls (SUNLinSolSetup_KLU S1 A')) = Some CallRefactor.
Proof.
  intros Hsp' Hff Hfl.
  destruct (setup_branches S A) as [[Hsp E]|[(Hsp & Hff' & E)|(Hsp & _ & E)]].
  - rewrite E in Hfl. discriminate.
  - contradiction.
  - rewrite E in *.
    destruct (setup_refactor_exits A S) as (_ & _ & _ & Hk & Hex & _).
    destruct Hex as [Hf|[Hf|(_ & Hn & Hlast)]];
      [rewrite Hf in Hfl; discriminate | rewrite Hf in Hfl; discriminate |].
    simpl. split; [assumption|]. rewrite Hk. split; [assumption|].
    split; [assumption|].
    rewrite setup_not_first by (try rewrite Hk; assumption).
    apply setup_refactor_exits.
Qed.

(** X4.  After [SUNLinSolInitialize_KLU] the next setup on a sparse matrix
    is a full factorization: it runs the symbolic analysis once and never
    the refactor, and it frees a symbolic object the content still holds
    before analysing. *)
Theorem initialize_forces_full_factorization S A :
  is_SUNMATRIX_SPARSE (SUNMatGetID A) = true ->
  let r := SUNLinSolSetup_KLU (op_state (SUNLinSolInitialize_KLU S)) A in
  count_occ klu_call_eq_dec (op_calls r) CallAnalyze = 1%nat /\
  count_occ klu_call_eq_dec (op_calls r) CallRefactor = 0%nat /\
  (is_Some (symbolic S) -> head (op_calls r) = Some CallFreeSymbolic).
Proof.
  intros Hsp r. subst r.
  rewrite setup_is_first by (simpl; auto; discriminate).
  destruct (setup_first_exits A (op_state (SUNLinSolInitialize_KLU S)))
    as (_ & _ & _ & Ha & Hr & _ & Hh).
  auto.
Qed.

End KLU_Extra.

Section KLU_Extra_Ops.
Context {R : Type} `{RealType R} `{Roundoff R} `{KLUPackage R}.

Implicit Types (S : SUNLinearSolverContent_KLU R) (A : SUNMatrix R).

(** The part of the content a solve leaves alone, and its KLU calls. *)
Lemma solve_keeps_frame S (A : option (SUNMatrix R))
    (x b : option (N_Vector R)) (tol : R) :
  exists S',
    sv_state (SUNLinSolSolve_KLU (Some S) A x b tol) = Some S' /\
    symbolic S' = symbolic S /\ first_factorize S' = first_factorize S /\
    (sv_calls (SUNLinSolSolve_KLU (Some S) A x b tol) = [] \/
     sv_calls (SUNLinSolSolve_KLU (Some S) A x b tol) = [CallSolve]).
Proof.
  unfold SUNLinSolSolve_KLU.
  destruct A as [A|], x as [x|], b as [b|]; try (exists S; auto; fail).
  destruct (N_VGetArrayPointer (N_VScale_ONE b x)) as [xd|].
  - destruct (klu_solve_entry _ _ _ _ _ _ _) as [[flag xd'] c].
    destruct (flag =? 0); eexists; (split; [reflexivity|]); simpl; auto.
  - eexists. split; [reflexivity|]. simpl. auto.
Qed.

(** X5.  Solve leaves the factorization alone: whatever its arguments, the
    symbolic and numeric objects, the first-factorization flag and the
    solve entry of the content are what they were.  It records the flag it
    returns as the last flag, except when the matrix or a vector is [NULL]:
    then it returns SUNLS_MEM_NULL, calls nothing, and leaves the content,
    its last flag included, as it was. *)
Theorem solve_keeps_factorization S (A : option (SUNMatrix R))
    (x b : option (N_Vector R)) (tol : R) :
  let r := SUNLinSolSolve_KLU (Some S) A x b tol in
  exists S',
    sv_state r = Some S' /\
    symbolic S' = symbolic S /\ numeric S' = numeric S /\
    first_factorize S' = first_factorize S /\
    klu_solver S' = klu_solver S /\
    (A <> None -> x <> None -> b <> None ->
       SUNLinSolLastFlag_KLU S' = sv_flag r) /\
    (A = None \/ x = None \/ b = None ->
       sv_flag r = SUNLS_MEM_NULL /\ S' = S /\ sv_x r = x /\ sv_calls r = []).
Proof.
  intros r. subst r. unfold SUNLinSolSolve_KLU.
  destruct A as [A|], x as [x|], b as [b|];
    try (exists S; simpl; do 5 (split; [reflexivity|]);
         split; [intros; congruence | intros _; repeat split]).
  destruct (N_VGetArrayPointer (N_VScale_ONE b x)) as [xd|].
  - destruct (klu_solve_entry _ _ _ _ _ _ _) as [[flag xd'] c].
    destruct (flag =? 0); eexists; (split; [reflexivity|]); simpl;
      do 4 (split; [reflexivity|]);
      (split; [intros; reflexivity | intros [?|[?|?]]; discriminate]).
  - eexists. split; [reflexivity|]. simpl.
    do 4 (split; [reflexivity|]).
    split; [intros; reflexivity | intros [?|[?|?]]; discriminate].
Qed.

(** X6.  A solve reads of its matrix argument only the number of
    columns, and does not read the tolerance: it substitutes with the
    factorization the last setup stored.  Two solves on one content with
    matrices of the same number of columns, whatever their entries, and
    with any two tolerances have the same outcome. *)
Theorem solve_uses_stored_factorization S A A'
    (x b : option (N_Vector R)) (tol tol' : R) :
  SUNSparseMatrix_NP A = SUNSparseMatrix_NP A' ->
  SUNLinSolSolve_KLU (Some S) (Some A) x b tol =
  SUNLinSolSolve_KLU (Some S) (Some A') x b tol'.
Proof.
  intros Hnp. unfold SUNLinSolSolve_KLU.
  destruct x as [x|], b as [b|]; try reflexivity.
  rewrite Hnp. reflexivity.
Qed.

(** X7.  [SUNKLUSetOrdering] tests the ordering before the handle, so a
    choice outside 0..2 is SUNLS_ILL_INPUT even for a [NULL] handle and
    changes nothing.  A legal choice changes the [klu_common] block and the
    last flag only: the factorization objects and the first-factorization
    flag stay, so a solver that has factorized keeps taking the reuse path
    and its next setup runs no symbolic analysis with the new ordering. *)
Theorem set_ordering_keeps_reuse_path S (ordering_choice : Z) A :
  let r := SUNKLUSetOrdering (Some S) ordering_choice in
  let S' := default S r.2 in
  (ordering_choice < 0 \/ 2 < ordering_choice ->
     r = (SUNLS_ILL_INPUT, Some S) /\
     SUNKLUSetOrdering None ordering_choice = (SUNLS_ILL_INPUT, None)) /\
  (0 <= ordering_choice <= 2 ->
     r.1 = SUNLS_SUCCESS /\ r.2 = Some S' /\
     common S' = common_set_ordering ordering_choice (common S) /\
     SUNLinSolLastFlag_KLU S' = SUNLS_SUCCESS /\
     SUNKLUSetOrdering None ordering_choice = (SUNLS_MEM_NULL, None)) /\
  symbolic S' = symbolic S /\ numeric S' = numeric S /\
  first_factorize S' = first_factorize S /\
  (first_factorize S = 0 ->
     count_occ klu_call_eq_dec (op_calls (SUNLinSolSetup_KLU S' A))
       CallAnalyze = 0%nat).
Proof.
  intros r S'. subst S' r. unfold SUNKLUSetOrdering.
  destruct ((ordering_choice <? 0) || (2 <? ordering_choice)) eqn:E.
  - simpl. split; [auto|]. split.
    + intros Hok. apply orb_true_iff in E.
      destruct E as [E|E]; apply Z.ltb_lt in E; lia.
    + repeat split; auto. intros Hff.
      destruct (setup_branches S A) as [[_ ->]|[(_ & Hn & _)|(_ & _ & ->)]];
        [reflexivity | contradiction | apply setup_refactor_exits].
  - apply orb_false_iff in E. destruct E as [E1 E2].
    apply Z.ltb_ge in E1, E2. simpl. split; [lia|].
    split; [auto|]. repeat split; auto. intros Hff.
    set (S1 := set_last_flag _ _).
    destruct (setup_branches S1 A) as [[_ ->]|[(_ & Hn & _)|(_ & _ & ->)]];
      [reflexivity | contradiction | apply setup_refactor_exits].
Qed.

(** The exits of [SUNKLUReInit] for a handle and a matrix that are not
    [NULL]. *)
Lemma SUNKLUReInit_exits
    (alloc : Z -> Z -> Z -> Z -> option (SUNMatrix R)) S A (nnz reinit_type : Z) :
  let r := SUNKLUReInit alloc (Some S) (Some A) nnz reinit_type in
  let allocated :=
    alloc (SM_ROWS (mat_content A)) (SM_ROWS (mat_content A)) nnz
          (SM_SPARSETYPE (mat_content A)) in
  (ri_flag r = SUNLS_ILL_INPUT /\ ri_state r = Some S /\ ri_calls r = [] /\
   ri_destroyed r = false /\ ri_A r = Some A /\
   (is_SUNMATRIX_SPARSE (SUNMatGetID A) = false \/
    (reinit_type <> 1 /\ reinit_type <> 2))) \/
  (ri_flag r = SUNLS_MEM_FAIL /\ ri_state r = Some S /\ ri_calls r = [] /\
   ri_destroyed r = true /\ ri_A r = None /\
   is_SUNMATRIX_SPARSE (SUNMatGetID A) = true /\
   reinit_type = 1 /\ allocated = None) \/
  (ri_flag r = SUNLS_SUCCESS /\
   is_SUNMATRIX_SPARSE (SUNMatGetID A) = true /\
   ((reinit_type = 1 /\ ri_destroyed r = true /\ is_Some allocated /\
     ri_A r = allocated) \/
    (reinit_type = 2 /\ ri_destroyed r = false /\ ri_A r = Some A)) /\
   exists S', ri_state r = Some S' /\
     symbolic S' = None /\ numeric S' = None /\ first_factorize S' = 1 /\
     SUNLinSolLastFlag_KLU S' = SUNLS_SUCCESS /\
     klu_solver S' = klu_solver S /\
     ri_calls r = (if symbolic S is Some _ then [CallFreeSymbolic] else []) ++
                  (if numeric S is Some _ then [CallFreeNumeric] else [])).
Proof.
  intros r allocated. subst r allocated. unfold SUNKLUReInit.
  destruct (is_SUNMATRIX_SPARSE (SUNMatGetID A)) eqn:Hsp; simpl.
  2:{ left. repeat split; auto. }
  destruct (reinit_type =? 1) eqn:E1; simpl.
  - apply Z.eqb_eq in E1. subst reinit_type.
    destruct (alloc _ _ _ _) as [newA|] eqn:Ea; simpl.
    + right. right. unfold free_symbolic_if_set, free_numeric_if_set.
      destruct (symbolic S) eqn:Hsy, (numeric S) eqn:Hnu; simpl;
        rewrite ?Hnu; simpl;
        (split; [reflexivity|]); (split; [reflexivity|]);
        (split; [left; repeat split; eauto|]);
        eexists; repeat split; simpl; rewrite ?Hsy, ?Hnu; reflexivity.
    + right. left. repeat split; auto.
  - apply Z.eqb_neq in E1.
    destruct (reinit_type =? 2) eqn:E2; simpl.
    + apply Z.eqb_eq in E2. subst reinit_type.
      right. right. unfold free_symbolic_if_set, free_numeric_if_set.
      destruct (symbolic S) eqn:Hsy, (numeric S) eqn:Hnu; simpl;
        rewrite ?Hnu; simpl;
        (split; [reflexivity|]); (split; [reflexivity|]);
        (split; [right; repeat split; eauto|]);
        eexists; repeat split; simpl; rewrite ?Hsy, ?Hnu; reflexivity.
    + apply Z.eqb_neq in E2. left. repeat split; auto.
Qed.

(** X8.  [SUNKLUReInit] on a non-[NULL] handle and matrix succeeds exactly
    for a sparse matrix and a type 1 whose new matrix can be allocated or a
    type 2.  On success the content holds no symbolic and no numeric
    object, asks for a first factorization and records SUNLS_SUCCESS, with
    the solve entry it had, and the only KLU calls release the symbolic
    and then the numeric object, each if the content held it.  On every
    failure the content is untouched (the flag is not recorded) and nothing
    of KLU is called, and a failed allocation leaves the caller's matrix
    destroyed. *)
Theorem reinit_resets_or_leaves_untouched
    (alloc : Z -> Z -> Z -> Z -> option (SUNMatrix R)) S A (nnz reinit_type : Z) :
  let r := SUNKLUReInit alloc (Some S) (Some A) nnz reinit_type in
  let allocated :=
    alloc (SM_ROWS (mat_content A)) (SM_ROWS (mat_content A)) nnz
          (SM_SPARSETYPE (mat_content A)) in
  (ri_flag r = SUNLS_SUCCESS <->
   is_SUNMATRIX_SPARSE (SUNMatGetID A) = true /\
   ((reinit_type = 1 /\ is_Some allocated) \/ reinit_type = 2)) /\
  (ri_flag r = SUNLS_SUCCESS ->
   exists S', ri_state r = Some S' /\
     symbolic S' = None /\ numeric S' = None /\ first_factorize S' = 1 /\
     SUNLinSolLastFlag_KLU S' = SUNLS_SUCCESS /\
     klu_solver S' = klu_solver S /\
     ri_calls r = (if symbolic S is Some _ then [CallFreeSymbolic] else []) ++
                  (if numeric S is Some _ then [CallFreeNumeric] else [])) /\
  (ri_flag r <> SUNLS_SUCCESS ->
   ri_state r = Some S /\ ri_calls r = [] /\
   (ri_flag r = SUNLS_MEM_FAIL -> ri_destroyed r = true /\ ri_A r = None)).
Proof.
  intros r allocated. subst r allocated.
  destruct (SUNKLUReInit_exits alloc S A nnz reinit_type)
    as [(Hf & Hs & Hc & _ & _ & Hwhy)
       |[(Hf & Hs & Hc & Hd & HA & Hsp & Hty & Hal)
        |(Hf & Hsp & Hty & Hex)]].
  - rewrite Hf. split; [split; [discriminate|]|].
    + intros [Hsp Hty].
      destruct Hwhy as [Hn|[Hn1 Hn2]]; [congruence|].
      destruct Hty as [[? _]|?]; contradiction.
    + split; [discriminate|]. intros _. repeat split; auto; discriminate.
  - rewrite Hf. split; [split; [discriminate|]|].
    + intros [_ [[_ Hsome]|Hty2]]; [|lia].
      rewrite Hal in Hsome. destruct Hsome as [? [=]].
    + split; [discriminate|]. intros _. repeat split; auto.
  - split; [split; [intros _|intros _; assumption]|].
    + split; [assumption|].
      destruct Hty as [(? & _ & ? & _)|(? & _)]; auto.
    + split; [intros _; assumption | intros Hne; contradiction].
Qed.

(** What the constructor puts in a new content. *)
Lemma SUNKLU_fresh (cfg : klu_build) (al : SUNKLU_alloc)
    (defaults : Z * klu_common) (y_id : N_Vector_ID) (y : N_Vector R) A S :
  SUNKLU cfg al defaults y_id y A = Some S ->
  S = {| last_flag := 0; first_factorize := 1;
         symbolic := None; numeric := None;
         common := common_set_ordering SUNKLU_ORDERING_DEFAULT defaults.2;
         klu_solver := if SM_SPARSETYPE (mat_content A) =? CSC_MAT
                       then KLU_SOLVE else KLU_TSOLVE |}.
Proof.
  unfold SUNKLU. destruct defaults as [flag c]. simpl.
  destruct (negb (is_SUNMATRIX_SPARSE (SUNMatGetID A))); [discriminate|].
  destruct (SUNKLU_VecLength cfg y_id y); [|discriminate].
  destruct (_ || _); [discriminate|].
  destruct (negb (malloc_S al)); [discriminate|].
  destruct (negb (malloc_ops al)); [discriminate|].
  destruct (negb (malloc_content al)); [discriminate|].
  destruct (flag =? 0); [discriminate|]. intros [= <-]. reflexivity.
Qed.

(** X9.  The constructor [SUNKLU] returns a solver exactly when the matrix
    is sparse and square, the vector belongs to a module it knows (serial,
    or OpenMP or Pthreads when built in) and has as many entries as the
    matrix has rows, the three allocations succeed and [klu_defaults]
    reports success.  The new content holds no factorization, asks for a
    first factorization, has last flag 0 and the default ordering, and uses
    the plain solve entry for a CSC matrix and the transposed one for any
    other sparse type. *)
Theorem SUNKLU_accepts_compatible (cfg : klu_build) (al : SUNKLU_alloc)
    (defaults : Z * klu_common) (y_id : N_Vector_ID) (y : N_Vector R) A :
  let compatible :=
    is_SUNMATRIX_SPARSE (SUNMatGetID A) = true /\
    SM_ROWS (mat_content A) = SM_COLUMNS (mat_content A) /\
    SUNKLU_VecLength cfg y_id y = Some (SM_ROWS (mat_content A)) in
  let resources :=
    malloc_S al = true /\ malloc_ops al = true /\ malloc_content al = true /\
    defaults.1 <> 0 in
  (is_Some (SUNKLU cfg al defaults y_id y A) <-> compatible /\ resources) /\
  (forall S, SUNKLU cfg al defaults y_id y A = Some S ->
     SUNLinSolLastFlag_KLU S = 0 /\ first_factorize S = 1 /\
     symbolic S = None /\ numeric S = None /\
     common S = common_set_ordering SUNKLU_ORDERING_DEFAULT defaults.2 /\
     (klu_solver S = KLU_SOLVE <-> SM_SPARSETYPE (mat_content A) = CSC_MAT)).
Proof.
  intros compatible resources. subst compatible resources.
  unfold SUNKLU. destruct defaults as [flag c]. simpl.
  destruct (is_SUNMATRIX_SPARSE (SUNMatGetID A)) eqn:Hsp; simpl.
  2:{ split; [|intros S [=]].
      split; [intros [? [=]] | intros [[[=] _] _]]. }
  destruct (SUNKLU_VecLength cfg y_id y) as [len|] eqn:Hlen.
  2:{ split; [|intros S [=]].
      split; [intros [? [=]] | intros [(_ & _ & [=]) _]]. }
  destruct (SM_ROWS (mat_content A) =? SM_COLUMNS (mat_content A)) eqn:Esq; simpl.
  2:{ apply Z.eqb_neq in Esq. split; [|intros S [=]].
      split; [intros [? [=]] | intros [(_ & Hsq & _) _]; contradiction]. }
  apply Z.eqb_eq in Esq.
  destruct (SM_ROWS (mat_content A) =? len) eqn:El; simpl.
  2:{ apply Z.eqb_neq in El. split; [|intros S [=]].
      split; [intros [? [=]] | intros [(_ & _ & [= Hl]) _]; congruence]. }
  apply Z.eqb_eq in El. subst len.
  destruct (malloc_S al); simpl;
    [|split; [split; [intros [? [=]] | intros [_ ([=] & _)]] | intros S [=]]].
  destruct (malloc_ops al); simpl;
    [|split; [split; [intros [? [=]] | intros [_ (_ & [=] & _)]] | intros S [=]]].
  destruct (malloc_content al); simpl;
    [|split; [split; [intros [? [=]] | intros [_ (_ & _ & [=] & _)]] | intros S [=]]].
  destruct (flag =? 0) eqn:Ef.
  - apply Z.eqb_eq in Ef. split; [|intros S [=]].
    split; [intros [? [=]] | intros [_ (_ & _ & _ & Hn)]; contradiction].
  - apply Z.eqb_neq in Ef. split.
    + split; [intros _; repeat split; auto | intros _; eauto].
    + intros S [= <-]. simpl. repeat split; auto.
      * destruct (SM_SPARSETYPE (mat_content A) =? CSC_MAT) eqn:Et;
          [apply Z.eqb_eq in Et; auto | discriminate].
      * intros Et. rewrite Et. reflexivity.
Qed.

(** X10.  A solver fresh from the constructor, or from a successful
    re-initialization, meets its first setup on a sparse matrix with no
    factorization object to release: the setup calls the symbolic
    analysis, then [factor] if the analysis succeeded, and nothing else of
    KLU. *)
Theorem fresh_solver_first_setup (cfg : klu_build) (al : SUNKLU_alloc)
    (defaults : Z * klu_common) (y_id : N_Vector_ID) (y : N_Vector R)
    (alloc : Z -> Z -> Z -> Z -> option (SUNMatrix R))
    (S0 : SUNLinearSolverContent_KLU R) (A0 A : SUNMatrix R)
    (nnz reinit_type : Z) (S : SUNLinearSolverContent_KLU R) :
  is_SUNMATRIX_SPARSE (SUNMatGetID A) = true ->
  SUNKLU cfg al defaults y_id y A0 = Some S \/
  (ri_flag (SUNKLUReInit alloc (Some S0) (Some A0) nnz reinit_type)
     = SUNLS_SUCCESS /\
   ri_state (SUNKLUReInit alloc (Some S0) (Some A0) nnz reinit_type) = Some S) ->
  op_calls (SUNLinSolSetup_KLU S A) = [CallAnalyze] \/
  op_calls (SUNLinSolSetup_KLU S A) = [CallAnalyze; CallFactor].
Proof.
  intros Hsp Hfrom.
  assert (Hfresh : first_factorize S = 1 /\ symbolic S = None /\ numeric S = None).
  { destruct Hfrom as [Hc|[Hf Hs]].
    - apply SUNKLU_fresh in Hc. subst S. auto.
    - destruct (SUNKLUReInit_exits alloc S0 A0 nnz reinit_type)
        as [(Hf' & _)|[(Hf' & _)|(_ & _ & _ & S' & Hs' & ? & ? & ? & _)]];
        [rewrite Hf' in Hf; discriminate | rewrite Hf' in Hf; discriminate |].
      rewrite Hs in Hs'. injection Hs' as <-. auto. }
  destruct Hfresh as (Hff & Hsy & Hnu).
  rewrite setup_is_first by (auto; lia).
  destruct (setup_first_exits A S) as (_ & _ & _ & _ & _ & Hcalls & _).
  auto.
Qed.

(** X11.  [SUNLinSolFree_KLU] returns SUNLS_SUCCESS for a [NULL] handle,
    for a handle without content and for a handle with content, and
    releases exactly what the content holds, the numeric object first.
    After a successful first setup that is both objects; after a
    successful re-initialization it is nothing. *)
Theorem free_releases_factorization S A :
  SUNLinSolFree_KLU (R:=R) None = (SUNLS_SUCCESS, []) /\
  SUNLinSolFree_KLU (R:=R) (Some None) = (SUNLS_SUCCESS, []) /\
  SUNLinSolFree_KLU (Some (Some S)) =
    (SUNLS_SUCCESS,
     (if numeric S is Some _ then [CallFreeNumeric] else []) ++
     (if symbolic S is Some _ then [CallFreeSymbolic] else [])) /\
  (first_factorize S <> 0 ->
   op_flag (SUNLinSolSetup_KLU S A) = SUNLS_SUCCESS ->
   SUNLinSolFree_KLU (Some (Some (op_state (SUNLinSolSetup_KLU S A)))) =
     (SUNLS_SUCCESS, [CallFreeNumeric; CallFreeSymbolic])) /\
  (forall alloc A0 nnz reinit_type S',
     ri_flag (SUNKLUReInit alloc (Some S) (Some A0) nnz reinit_type)
       = SUNLS_SUCCESS ->
     ri_state (SUNKLUReInit alloc (Some S) (Some A0) nnz reinit_type)
       = Some S' ->
     SUNLinSolFree_KLU (Some (Some S')) = (SUNLS_SUCCESS, [])).
Proof.
  assert (Hfree : forall S0 : SUNLinearSolverContent_KLU R,
    SUNLinSolFree_KLU (Some (Some S0)) =
      (SUNLS_SUCCESS,
       (if numeric S0 is Some _ then [CallFreeNumeric] else []) ++
       (if symbolic S0 is Some _ then [CallFreeSymbolic] else []))).
  { intros S0. unfold SUNLinSolFree_KLU, free_numeric_if_set,
      free_symbolic_if_set.
    destruct (numeric S0), (symbolic S0) eqn:Hsy; simpl; rewrite ?Hsy;
      reflexivity. }
  split; [reflexivity|]. split; [reflexivity|]. split; [apply Hfree|].
  split.
  - intros Hff Hok. rewrite Hfree.
    destruct (setup_branches S A) as [[_ E]|[(_ & _ & E)|(_ & Hz & _)]];
      [rewrite E in Hok; discriminate | | contradiction].
    rewrite E in *.
    destruct (setup_first_exits A S) as (_ & _ & Hex & _).
    destruct Hex as [(_ & _ & [sy ->] & [nu ->])|(Hf & _)];
      [reflexivity | rewrite Hf in Hok; discriminate].
  - intros alloc A0 nnz reinit_type S' Hok Hst. rewrite Hfree.
    destruct (SUNKLUReInit_exits alloc S A0 nnz reinit_type)
      as [(Hf & _)|[(Hf & _)|(_ & _ & _ & S1 & Hs1 & Hsy & Hnu & _)]];
      [rewrite Hf in Hok; discriminate | rewrite Hf in Hok; discriminate |].
    rewrite Hst in Hs1. injection Hs1 as <-. rewrite Hsy, Hnu. reflexivity.
Qed.

End KLU_Extra_Ops.

(** ** Sequences of requests to one KLU solver *)

Section KLU_Traces.
Context {R : Type} `{RealType R} `{Roundoff R} `{KLUPackage R}.

Implicit Types (S : SUNLinearSolverContent_KLU R) (A : SUNMatrix R).

(** One request: it calls [refactor] only on the reuse path, and it can
    leave the solver on the reuse path only by staying there with the
    symbolic object it had or by a symbolic analysis that succeeded. *)
Lemma serve_step S (q : klu_request R) :
  (first_factorize S <> 0 -> ~ In CallRefactor (serve S q).2) /\
  (first_factorize (serve S q).1 = 0 ->
   (first_factorize S = 0 /\ symbolic (serve S q).1 = symbolic S) \/
   (is_Some (symbolic (serve S q).1) /\ In CallAnalyze (serve S q).2)).
Proof.
  destruct q as [|A|A x b tol| | | |oc|alloc A nnz ty];
    unfold serve; cbv zeta;
    try (simpl; split; [intros _ []|]; intros Hz; auto; fail).
  - simpl. split; [intros _ []|]. discriminate.
  - destruct (setup_branches S A) as [[_ ->]|[(_ & Hff & ->)|(_ & Hff & ->)]];
      cbn [fst snd].
    + simpl. split; [intros _ []|]. auto.
    + destruct (setup_first_exits A S) as (_ & _ & Hex & Ha & Hr & _).
      split; [intros _; apply (count_occ_not_In klu_call_eq_dec); assumption|].
      intros Hz. right.
      destruct Hex as [(_ & _ & Hsy & _)|(_ & Hk)]; [|congruence].
      split; [assumption|].
      apply (count_occ_In klu_call_eq_dec). rewrite Ha. lia.
    + destruct (setup_refactor_exits A S) as (_ & _ & Hsy & _).
      split; [contradiction|]. auto.
  - destruct (solve_keeps_frame S A x b tol) as (S' & -> & Hsy & Hff & Hc).
    simpl. split.
    + intros _ Hin. destruct Hc as [Hc|Hc]; rewrite Hc in Hin;
        simpl in Hin; intuition discriminate.
    + rewrite Hff. auto.
  - unfold SUNKLUSetOrdering. destruct (_ || _); simpl;
      (split; [intros _ []|]); auto.
  - destruct A as [A|]; [|simpl; split; [intros _ []|]; auto].
    destruct (SUNKLUReInit_exits alloc S A nnz ty)
      as [(_ & -> & -> & _)|[(_ & -> & -> & _)
         |(_ & _ & _ & S' & -> & _ & _ & Hff & _ & _ & ->)]]; simpl;
      try (split; [intros _ []|]; auto; fail).
    split; [|rewrite Hff; discriminate].
    intros _ Hin. apply in_app_or in Hin.
    destruct (symbolic S), (numeric S), Hin as [Hin|Hin];
      simpl in Hin; intuition discriminate.
Qed.

Lemma serve_all_guarded (qs : list (klu_request R)) : forall S pre,
  (first_factorize S = 0 -> is_Some (symbolic S) /\ In CallAnalyze pre) ->
  (forall l1 l2, pre = l1 ++ CallRefactor :: l2 -> In CallAnalyze l1) ->
  (first_factorize (serve_all S qs).1 = 0 ->
     is_Some (symbolic (serve_all S qs).1)) /\
  (forall l1 l2, pre ++ (serve_all S qs).2 = l1 ++ CallRefactor :: l2 ->
     In CallAnalyze l1).
Proof.
  induction qs as [|q rest IH]; intros S pre Hinv Hpre; simpl.
  - rewrite app_nil_r. split; [intros Hz; apply Hinv; assumption | assumption].
  - destruct (serve S q) as [S1 l1] eqn:Eq.
    destruct (serve_all S1 rest) as [S2 l2] eqn:Er. simpl.
    destruct (serve_step S q) as [Hno Hkeep]. rewrite Eq in Hno, Hkeep.
    simpl in Hno, Hkeep.
    specialize (IH S1 (pre ++ l1)). rewrite Er in IH. simpl in IH.
    rewrite app_assoc. apply IH.
    + intros Hz. destruct (Hkeep Hz) as [[Hz0 Hsy]|[Hsy Hin]].
      * destruct (Hinv Hz0) as [Hs Hin]. rewrite Hsy.
        split; [assumption | apply in_or_app; auto].
      * split; [assumption | apply in_or_app; auto].
    + intros k1 k2 Hsplit.
      apply app_eq_inv in Hsplit.
      destruct Hsplit as [[k [Hp Hk]]|[k [-> Hk]]].
      * destruct k as [|c k].
        -- (* the refactor is the first call of this request *)
           simpl in Hk. rewrite app_nil_r in Hp. subst k1.
           destruct (Z.eq_dec (first_factorize S) 0) as [Hz|Hz].
           ++ apply Hinv. assumption.
           ++ exfalso. apply (Hno Hz). rewrite <- Hk. left. reflexivity.
        -- (* the refactor was called before this request *)
           simpl in Hk. injection Hk as <- _.
           apply (Hpre k1 k). assumption.
      * (* the refactor is a later call of this request *)
        destruct (Z.eq_dec (first_factorize S) 0) as [Hz|Hz].
        -- apply in_or_app. left. apply Hinv. assumption.
        -- exfalso. apply (Hno Hz). rewrite Hk. apply in_elt.
Qed.

(** X12.  Whatever sequence of requests a solver serves from a content
    that still asks for its first factorization (as the constructor and a
    successful re-initialization leave it), every call of [refactor] comes
    after a call of the symbolic analysis, and whenever the content is on
    the reuse path it holds a symbolic object. *)
Theorem refactor_only_after_analysis S (qs : list (klu_request R)) :
  first_factorize S <> 0 ->
  (first_factorize (serve_all S qs).1 = 0 ->
     is_Some (symbolic (serve_all S qs).1)) /\
  (forall l1 l2, (serve_all S qs).2 = l1 ++ CallRefactor :: l2 ->
     In CallAnalyze l1).
Proof.
  intros Hff.
  apply (serve_all_guarded qs S []); [contradiction|].
  intros [|? ?] l2; discriminate.
Qed.

End KLU_Traces.

(** ** Runs of the KLU solver on the dense 2x2 kernel, in binary64 *)

Section KLU_Extra_Runs.
Local Open Scope float_scope.

(** The refactor of [A_near] with the kept pivot order succeeds and is
    ill-conditioned by both estimates; the recomputation fails. *)
Lemma failed_recomputation_keeps_reuse_path_witness :
  is_SUNMATRIX_SPARSE (SUNMatGetID A_44) = true /\
  first_factorize S_44 = 0%Z /\
  op_flag (SUNLinSolSetup_KLU S_44 A_near) = SUNLS_PACKAGE_FAIL_UNREC /\
  (let S1 := op_state (SUNLinSolSetup_KLU S_44 A_near) in
   numeric S1 = None /\ first_factorize S1 = 0%Z /\
   last (op_calls (SUNLinSolSetup_KLU S_44 A_near)) = Some CallFactor /\
   head (op_calls (SUNLinSolSetup_KLU S1 A_44)) = Some CallRefactor).
Proof.
  split; [reflexivity|]. split; [reflexivity|]. split; [reflexivity|].
  apply (failed_recomputation_keeps_reuse_path S_44 A_near A_44); reflexivity.
Defined.

Lemma initialize_forces_full_factorization_witness :
  is_SUNMATRIX_SPARSE (SUNMatGetID A_44) = true /\
  (let r := SUNLinSolSetup_KLU (op_state (SUNLinSolInitialize_KLU S_44)) A_44 in
   count_occ klu_call_eq_dec (op_calls r) CallAnalyze = 1%nat /\
   count_occ klu_call_eq_dec (op_calls r) CallRefactor = 0%nat /\
   (is_Some (symbolic S_44) -> head (op_calls r) = Some CallFreeSymbolic)).
Proof.
  split; [reflexivity|].
  apply (initialize_forces_full_factorization S_44 A_44); reflexivity.
Defined.

(** The content that has factorized [[1 2; 3 4]] solves with that
    factorization also when it is handed [diag(4, 4)]. *)
Lemma solve_uses_stored_factorization_witness :
  SUNSparseMatrix_NP A_1234 = SUNSparseMatrix_NP A_44 /\
  SUNLinSolSolve_KLU (Some S_1234) (Some A_1234) (Some (nvec [0; 0]))
    (Some (nvec [1; 1])) 0 =
  SUNLinSolSolve_KLU (Some S_1234) (Some A_44) (Some (nvec [0; 0]))
    (Some (nvec [1; 1])) 1 /\
  sv_x (SUNLinSolSolve_KLU (Some S_1234) (Some A_44) (Some (nvec [0; 0]))
          (Some (nvec [1; 1])) 1) = Some (nvec [-1; 1]).
Proof.
  split; [reflexivity|].
  split; [|vm_compute; reflexivity].
  apply (solve_uses_stored_factorization S_1234 A_1234 A_44
           (Some (nvec [0; 0])) (Some (nvec [1; 1])) 0 1); reflexivity.
Defined.

Lemma fresh_solver_first_setup_witness :
  is_SUNMATRIX_SPARSE (SUNMatGetID A_1234) = true /\
  (SUNKLU (H1 := Dense2_KLU) build_serial malloc_ok d2_defaults SUNDIALS_NVEC_SERIAL
     (nvec [0; 0]) A_44 = Some dense2_new \/
   (ri_flag (SUNKLUReInit (λ _ _ _ _, None) (Some S_44) (Some A_44) 4 2)
      = SUNLS_SUCCESS /\
    ri_state (SUNKLUReInit (λ _ _ _ _, None) (Some S_44) (Some A_44) 4 2)
      = Some dense2_new)) /\
  (op_calls (SUNLinSolSetup_KLU dense2_new A_1234) = [CallAnalyze] \/
   op_calls (SUNLinSolSetup_KLU dense2_new A_1234) = [CallAnalyze; CallFactor]).
Proof.
  split; [reflexivity|]. split; [left; reflexivity|].
  apply (fresh_solver_first_setup (H1 := Dense2_KLU) build_serial malloc_ok d2_defaults
           SUNDIALS_NVEC_SERIAL (nvec [0; 0]) (λ _ _ _ _, None)
           S_44 A_44 A_1234 4 2 dense2_new);
    [reflexivity | left; reflexivity].
Defined.

(** Two setups and a solve from the constructor's content: the refactor of
    the second setup comes after the analysis of the first. *)
Lemma refactor_only_after_analysis_witness :
  let qs := [Req_Setup A_44; Req_Setup A_44;
             Req_Solve (Some A_44) (Some (nvec [0; 0])) (Some (nvec [4; 8])) 0] in
  first_factorize (dense2_new (R:=float)) <> 0%Z /\
  (serve_all dense2_new qs).2 =
    [CallAnalyze; CallFactor] ++ CallRefactor :: [CallRcond; CallSolve] /\
  In CallAnalyze [CallAnalyze; CallFactor] /\
  is_Some (symbolic (serve_all dense2_new qs).1).
Proof.
  intros qs.
  assert (Hne : first_factorize (dense2_new (R:=float)) <> 0%Z) by discriminate.
  destruct (refactor_only_after_analysis dense2_new qs Hne) as [Hsy Hlog].
  split; [exact Hne|]. split; [reflexivity|].
  split; [apply (Hlog [CallAnalyze; CallFactor] [CallRcond; CallSolve]);
          reflexivity
         | apply Hsy; reflexivity].
Defined.

End KLU_Extra_Runs.

(** ** Further properties of the KINBAND solver *)

Section KINBAND_Extra.
Context {R : Type} `{RealType R} `{BandKernel R} `{NVectorKernel R}.

(** The solver memory a difference-quotient build hands back: the counter
    [nfeB] has grown by the number of groups and nothing else changed. *)
Lemma KINBandDQJac_kin_mem (n mupper mlower : Z) (J : BandMat R)
    (u fu : vec_id) (km : KINMem R) (tmp1 tmp2 : vec_id) (st : vstore R)
    (r : dq_result) :
  KINBandDQJac n mupper mlower J u fu km tmp1 tmp2 st = Some r ->
  exists lm, kin_lmem km = Some lm /\
    dqr_kin_mem r =
      set_kin_lmem (Some (add_nfeB (Z.min (mlower + mupper + 1) n) lm)) km /\
    band_size (dqr_J r) = band_size J /\ band_mu (dqr_J r) = band_mu J /\
    band_ml (dqr_J r) = band_ml J /\ band_smu (dqr_J r) = band_smu J.
Proof.
  unfold KINBandDQJac. intros Hr.
  destruct (kin_lmem km) as [lm|]; [|discriminate]. simpl in Hr.
  destruct (st !! u) as [ud|]; [|discriminate]. simpl in Hr.
  destruct (st !! tmp2) as [td|]; [|discriminate]. simpl in Hr.
  destruct (negb _); [discriminate|].
  destruct (for_loop _ _ _ _ _ _) as [s|]; [|discriminate].
  simpl in Hr. injection Hr as <-. simpl. rewrite MINZ_min.
  exists lm. repeat split; reflexivity.
Qed.

(** X13.  A call of [KINBand] on a solver memory whose vectors expose no
    data array returns KINBAND_ILL_INPUT and touches nothing.  Every other
    failing call has already run the previous [lfree] and attached the four
    band routines: it leaves them attached, with [lmem] and [inexact_ls]
    as the previous [lfree] left them, so the record of the failed call is
    never attached. *)
Theorem KINBand_failure_leaves_routines_attached
    (foreign_lfree : KINMem R -> KINMem R) (km : KINMem R)
    (al : alloc_outcome R) (N mupper mlower : Z) :
  let r := KINBand foreign_lfree (Some km) al N mupper mlower in
  (kin_vtemp1_has_getarraypointer km = false ->
     r = (KINBAND_ILL_INPUT, Some km)) /\
  (kin_vtemp1_has_getarraypointer km = true -> r.1 <> KINBAND_SUCCESS ->
     (r.1 = KINBAND_MEM_FAIL \/ r.1 = KINBAND_ILL_INPUT) /\
     exists km1, r.2 = Some km1 /\
       kin_linit km1 = Some LIN_KINBAND /\ kin_lsetup km1 = Some LIN_KINBAND /\
       kin_lsolve km1 = Some LIN_KINBAND /\ kin_lfree km1 = Some LIN_KINBAND /\
       kin_lmem km1 = kin_lmem (call_lfree foreign_lfree km) /\
       kin_inexact_ls km1 = kin_inexact_ls (call_lfree foreign_lfree km)).
Proof.
  intros r. subst r. unfold KINBand.
  destruct (kin_vtemp1_has_getarraypointer km); simpl.
  - split; [discriminate|]. intros _.
    destruct (malloc_KINBandMemRec al) as [fresh|]; simpl.
    + destruct (_ || _); simpl.
      * intros _. split; [auto|]. eexists. repeat split; reflexivity.
      * destruct (BandAllocMat _ _ _ _ _); simpl.
        -- destruct (BandAllocPiv _ _); simpl.
           ++ intros Hne. contradiction Hne. reflexivity.
           ++ intros _. split; [auto|]. eexists. repeat split; reflexivity.
        -- intros _. split; [auto|]. eexists. repeat split; reflexivity.
    + intros _. split; [auto|]. eexists. repeat split; reflexivity.
  - split; [reflexivity | discriminate].
Qed.

(** X14.  While no record is attached the four [Get] routines and
    [KINBandSetJacFn] answer KINBAND_LMEM_NULL and write nothing.  Once
    [KINBand] has succeeded they answer KINBAND_SUCCESS: the workspace
    reported is [N * (min(N-1, mupper+mlower) + mupper + 2 mlower + 2)]
    reals and [N] integers when that number fits a [long int], and the call
    has no defined result when it does not; the last flag is
    KINBAND_SUCCESS and the Jacobian routine is the difference-quotient one
    with the solver memory as its data. *)
Theorem KINBand_enables_getters (LONG_MAX : Z)
    (foreign_lfree : KINMem R -> KINMem R) (km : KINMem R)
    (al : alloc_outcome R) (N mupper mlower : Z) (km' : option (KINMem R)) :
  (kin_lmem km = None ->
     KINBandGetWorkSpace LONG_MAX (Some km) = Some (KINBAND_LMEM_NULL, None) /\
     KINBandGetNumJacEvals (Some km) = (KINBAND_LMEM_NULL, None) /\
     KINBandGetNumFuncEvals (Some km) = (KINBAND_LMEM_NULL, None) /\
     KINBandGetLastFlag (Some km) = (KINBAND_LMEM_NULL, None) /\
     forall bjac jac_data,
       KINBandSetJacFn (Some km) bjac jac_data = (KINBAND_LMEM_NULL, Some km)) /\
  (KINBand foreign_lfree (Some km) al N mupper mlower = (KINBAND_SUCCESS, km') ->
     let lenrw :=
       N * (Z.min (N - 1) (mupper + mlower) + mupper + 2 * mlower + 2) in
     (lenrw <= LONG_MAX ->
        KINBandGetWorkSpace LONG_MAX km' = Some (KINBAND_SUCCESS, Some (lenrw, N))) /\
     (LONG_MAX < lenrw -> KINBandGetWorkSpace LONG_MAX km' = None) /\
     (KINBandGetNumJacEvals km').1 = KINBAND_SUCCESS /\
     (KINBandGetNumFuncEvals km').1 = KINBAND_SUCCESS /\
     KINBandGetLastFlag km' = (KINBAND_SUCCESS, Some KINBAND_SUCCESS) /\
     (exists km1 m, km' = Some km1 /\ kin_lmem km1 = Some m /\
        b_jac m = JAC_KINBandDQJac /\ b_J_data m = JDATA_kinmem) /\
     (forall bjac jac_data,
        (KINBandSetJacFn km' bjac jac_data).1 = KINBAND_SUCCESS)).
Proof.
  split.
  - intros Hl.
    unfold KINBandGetWorkSpace, KINBandGetNumJacEvals, KINBandGetNumFuncEvals,
      KINBandGetLastFlag, KINBandGet, KINBandSetJacFn.
    rewrite Hl. repeat split; reflexivity.
  - unfold KINBand.
    destruct (kin_vtemp1_has_getarraypointer km); simpl; [|intros [=]].
    destruct (malloc_KINBandMemRec al) as [fresh|]; simpl; [|intros [=]].
    destruct (_ || _) eqn:Ebad; simpl; [intros [=]|].
    rewrite !orb_false_iff in Ebad. destruct Ebad as [[[E1 E2] E3] E4].
    apply Z.ltb_ge in E1, E2. apply Z.leb_gt in E3, E4.
    destruct (BandAllocMat _ _ _ _ _) as [J|] eqn:EJ; simpl; [|intros [=]].
    destruct (BandAllocPiv _ _) as [p|]; simpl; [|intros [=]].
    intros [= <-].
    unfold KINBandGetWorkSpace, KINBandGetNumJacEvals, KINBandGetNumFuncEvals,
      KINBandGetLastFlag, KINBandGet, KINBandSetJacFn. simpl.
    rewrite MINZ_min.
    set (smu := Z.min (N - 1) (mupper + mlower)).
    assert (Hsmu : 0 <= smu) by (subst smu; lia).
    split; [|split].
    + intros Hfit.
      assert (Ht4 : smu + mupper + 2 * mlower + 2
                    <= N * (smu + mupper + 2 * mlower + 2)) by nia.
      unfold long_add, long_mul, in_long.
      repeat (match goal with
              | |- context [(?a <=? ?b) && (?c <=? ?d)] =>
                  replace ((a <=? b) && (c <=? d)) with true
                    by (symmetry; apply andb_true_iff; split;
                        apply Z.leb_le; lia)
              end; simpl).
      reflexivity.
    + intros Hbig. unfold long_add, long_mul, in_long.
      repeat (match goal with
              | |- context [(?a <=? ?b) && (?c <=? ?d)] =>
                  let E := fresh "E" in
                  destruct ((a <=? b) && (c <=? d)) eqn:E; simpl;
                  [apply andb_true_iff in E; destruct E as [_ E];
                   apply Z.leb_le in E | reflexivity]
              end).
      lia.
    + repeat split; try reflexivity.
      eexists _, _. repeat split; reflexivity.
Qed.

(** X15.  [KINBandInit] zeroes both counters and records
    KINBAND_SUCCESS.  It puts the difference-quotient routine back, with
    the solver memory as its data, exactly when the routine was set to
    [NULL]; a routine the user has set stays with the data given for it, so
    that [KINBandSetJacFn] with [NULL] followed by [KINBandInit] restores
    the default and with a routine of the user followed by [KINBandInit]
    keeps that routine.  The dimensions, the matrix and the pivots are not
    touched. *)
Theorem KINBandInit_restores_default_jac (km : KINMem R)
    (m : KINBandMemRec R) (jac_data : jac_data_ptr) :
  kin_lmem km = Some m ->
  (exists km1 m1, KINBandInit km = Some (0, km1) /\ kin_lmem km1 = Some m1 /\
     b_nje m1 = 0 /\ b_nfeB m1 = 0 /\ b_last_flag m1 = KINBAND_SUCCESS /\
     (b_jac m = JAC_NULL ->
        b_jac m1 = JAC_KINBandDQJac /\ b_J_data m1 = JDATA_kinmem) /\
     (b_jac m <> JAC_NULL ->
        b_jac m1 = b_jac m /\ b_J_data m1 = b_J_data m) /\
     b_n m1 = b_n m /\ b_mu m1 = b_mu m /\ b_ml m1 = b_ml m /\
     b_storage_mu m1 = b_storage_mu m /\ b_J m1 = b_J m /\
     b_pivots m1 = b_pivots m) /\
  (exists km1 km2 m2,
     KINBandSetJacFn (Some km) JAC_NULL jac_data = (KINBAND_SUCCESS, Some km1) /\
     KINBandInit km1 = Some (0, km2) /\ kin_lmem km2 = Some m2 /\
     b_jac m2 = JAC_KINBandDQJac /\ b_J_data m2 = JDATA_kinmem) /\
  (exists km1 km2 m2,
     KINBandSetJacFn (Some km) JAC_user jac_data = (KINBAND_SUCCESS, Some km1) /\
     KINBandInit km1 = Some (0, km2) /\ kin_lmem km2 = Some m2 /\
     b_jac m2 = JAC_user /\ b_J_data m2 = jac_data).
Proof.
  intros Hl. split; [|split].
  - unfold KINBandInit. rewrite Hl. simpl.
    destruct (b_jac m) eqn:Ej; eexists _, _;
      (split; [reflexivity|]); simpl;
      repeat split; auto; try discriminate; try congruence.
  - unfold KINBandSetJacFn, KINBandInit. rewrite Hl. simpl.
    eexists _, _, _. repeat split; reflexivity.
  - unfold KINBandSetJacFn, KINBandInit. rewrite Hl. simpl.
    eexists _, _, _. repeat split; reflexivity.
Qed.

(** X16.  [KINBand] does not initialize the two counters of the record it
    allocates: until [KINBandInit] runs, [KINBandGetNumJacEvals] and
    [KINBandGetNumFuncEvals] report what the allocated block happened to
    hold; after [KINBandInit] both report zero.  A successful [KINBand]
    also marks the solver as direct and its setup routine as present. *)
Theorem KINBand_counters_wait_for_init
    (foreign_lfree : KINMem R -> KINMem R) (km : KINMem R)
    (al : alloc_outcome R) (N mupper mlower : Z) (km' : KINMem R) :
  KINBand foreign_lfree (Some km) al N mupper mlower
    = (KINBAND_SUCCESS, Some km') ->
  kin_inexact_ls km' = false /\ kin_setupNonNull km' = true /\
  kin_linit km' = Some LIN_KINBAND /\ kin_lfree km' = Some LIN_KINBAND /\
  (exists fresh, malloc_KINBandMemRec al = Some fresh /\
     KINBandGetNumJacEvals (Some km') = (KINBAND_SUCCESS, Some (b_nje fresh)) /\
     KINBandGetNumFuncEvals (Some km')
       = (KINBAND_SUCCESS, Some (b_nfeB fresh))) /\
  (exists km2, KINBandInit km' = Some (0, km2) /\
     KINBandGetNumJacEvals (Some km2) = (KINBAND_SUCCESS, Some 0) /\
     KINBandGetNumFuncEvals (Some km2) = (KINBAND_SUCCESS, Some 0) /\
     KINBandGetLastFlag (Some km2) = (KINBAND_SUCCESS, Some KINBAND_SUCCESS)).
Proof.
  unfold KINBand.
  destruct (kin_vtemp1_has_getarraypointer km); simpl; [|intros [=]].
  destruct (malloc_KINBandMemRec al) as [fresh|]; simpl; [|intros [=]].
  destruct (_ || _); simpl; [intros [=]|].
  destruct (BandAllocMat _ _ _ _ _) as [J|]; simpl; [|intros [=]].
  destruct (BandAllocPiv _ _) as [p|]; simpl; [|intros [=]].
  intros [= <-]. simpl. do 4 (split; [reflexivity|]). split.
  - exists fresh. repeat split; reflexivity.
  - eexists. split; [reflexivity|]. repeat split; reflexivity.
Qed.
End KINBAND_Extra.

(** ** Sequences of requests to the band solver *)

Section KINBAND_Sequences.
Context {R : Type} `{RealType R} `{BandKernel R} `{NVectorKernel R}.

Variable foreign_lfree : KINMem R -> KINMem R.
Variable user_jac : Z -> Z -> Z -> BandMat R -> vec_id -> vec_id ->
                    vec_id -> vec_id -> vstore R -> Z * BandMat R * vstore R.
Variable v : KINVectors.

(** What a setup that returns has done to the record. *)
Lemma KINBandSetup_lmem (km : KINMem R) (st : vstore R) (r : kb_result R) :
  KINBandSetup user_jac km v st = Some r ->
  exists m m', kin_lmem km = Some m /\
    kb_kin_mem r = set_kin_lmem (Some m') km /\
    b_jac m' = b_jac m /\ b_J_data m' = b_J_data m /\
    b_n m' = b_n m /\ b_mu m' = b_mu m /\ b_ml m' = b_ml m /\
    b_storage_mu m' = b_storage_mu m /\
    b_nje m' = b_nje m + 1 /\
    match b_jac m with
    | JAC_NULL => False
    | JAC_KINBandDQJac =>
        b_J_data m = JDATA_kinmem /\
        b_nfeB m' = b_nfeB m + Z.min (b_ml m + b_mu m + 1) (b_n m)
    | JAC_user => b_nfeB m' = b_nfeB m /\ kb_evals r = []
    end /\
    kb_ret r = (if 0 <? b_last_flag m' then 1 else 0).
Proof.
  unfold KINBandSetup. intros Hr.
  destruct (kin_lmem km) as [m|] eqn:Hl; [|discriminate]. simpl in Hr.
  destruct (b_J m) as [J|]; [|discriminate]. simpl in Hr.
  destruct (b_pivots m) as [p|]; [|discriminate]. simpl in Hr.
  unfold call_jac in Hr. simpl in Hr.
  destruct (b_jac m) eqn:Ej; [discriminate| |].
  - destruct (b_J_data m) eqn:Ed; [|discriminate].
    destruct (KINBandDQJac _ _ _ _ _ _ _ _ _ _) as [d|] eqn:Edq;
      [|discriminate].
    simpl in Hr.
    destruct (KINBandDQJac_kin_mem _ _ _ _ _ _ _ _ _ _ _ Edq)
      as (lm & Hlm & Hkm & _).
    simpl in Hlm. injection Hlm as <-. rewrite Hkm in Hr. simpl in Hr.
    destruct (BandFactor (dqr_J d) p) as [[ier J'] p'].
    injection Hr as <-. eexists _, _. split; [reflexivity|]. simpl.
    split; [reflexivity|]. rewrite Ej. repeat split; auto.
  - destruct (user_jac _ _ _ _ _ _ _ _ _) as [[ret J'] st']. simpl in Hr.
    destruct (BandFactor J' p) as [[ier J''] p'].
    injection Hr as <-. eexists _, _. split; [reflexivity|]. simpl.
    split; [reflexivity|]. rewrite Ej. repeat split; auto.
Qed.

(** What a solve that returns has done to the record. *)
Lemma KINBandSolve_lmem (km : KINMem R) (x b : vec_id) (st : vstore R)
    (r : kb_solve_result R) :
  KINBandSolve km v x b st = Some r ->
  exists m, kin_lmem km = Some m /\
    ks_kin_mem r = set_kin_lmem (Some (set_b_last_flag KINBAND_SUCCESS m)) km /\
    ks_ret r = 0.
Proof.
  unfold KINBandSolve. intros Hr.
  destruct (kin_lmem km) as [m|]; [|discriminate]. simpl in Hr.
  repeat match type of Hr with
  | (?o ≫= _) = Some _ => destruct o; [|discriminate]; simpl in Hr
  end.
  injection Hr as <-. exists m. repeat split; reflexivity.
Qed.

(** One request keeps the difference-quotient routine paired with the
    solver memory, provided the caller does not hand that routine itself
    to [KINBandSetJacFn] (it is [static]). *)
Lemma kb_serve_pairs_dq (km : KINMem R) (st : vstore R) (q : kb_request R)
    (km' : KINMem R) (st' : vstore R) :
  (forall d, q <> Kb_SetJacFn JAC_KINBandDQJac d) ->
  kb_serve foreign_lfree user_jac v (km, st) q = Some (km', st') ->
  kin_lfree km <> Some LIN_OTHER ->
  (forall m, kin_lmem km = Some m -> b_jac m = JAC_KINBandDQJac ->
             b_J_data m = JDATA_kinmem) ->
  kin_lfree km' <> Some LIN_OTHER /\
  (forall m, kin_lmem km' = Some m -> b_jac m = JAC_KINBandDQJac ->
             b_J_data m = JDATA_kinmem).
Proof.
  intros Hq Hs Hfree Hinv.
  destruct q as [al N mupper mlower|bjac jd| | |x b]; simpl in Hs.
  - unfold KINBand, call_lfree, KINBandFree in Hs.
    destruct (kin_vtemp1_has_getarraypointer km); simpl in Hs;
      [|injection Hs as <- <-; auto].
    replace (match kin_lfree km with
             | Some LIN_KINBAND => km
             | Some LIN_OTHER => foreign_lfree km
             | None => km end) with km in Hs
      by (destruct (kin_lfree km) as [[]|]; congruence).
    destruct (malloc_KINBandMemRec al) as [fresh|]; simpl in Hs;
      [|injection Hs as <- <-; simpl; split; [discriminate | exact Hinv]].
    destruct (_ || _); simpl in Hs;
      [injection Hs as <- <-; simpl; split; [discriminate | exact Hinv]|].
    destruct (BandAllocMat _ _ _ _ _); simpl in Hs;
      [|injection Hs as <- <-; simpl; split; [discriminate | exact Hinv]].
    destruct (BandAllocPiv _ _); simpl in Hs;
      [|injection Hs as <- <-; simpl; split; [discriminate | exact Hinv]].
    injection Hs as <- <-. simpl. split; [discriminate|].
    intros m [= <-] _. reflexivity.
  - unfold KINBandSetJacFn in Hs.
    destruct (kin_lmem km) as [m0|] eqn:Hl; simpl in Hs.
    + injection Hs as <- <-. simpl. split; [assumption|].
      intros m [= <-]. destruct bjac; simpl; try discriminate.
      intros _. exfalso. apply (Hq jd). reflexivity.
    + injection Hs as <- <-. split; [assumption|].
      rewrite Hl. discriminate.
  - unfold KINBandInit in Hs.
    destruct (kin_lmem km) as [m0|] eqn:Hl; [|discriminate]. simpl in Hs.
    injection Hs as <- <-. simpl. split; [assumption|].
    intros m [= <-]. specialize (Hinv m0 eq_refl).
    destruct (b_jac m0) eqn:Ej; simpl; rewrite ?Ej; auto; intros; discriminate.
  - destruct (KINBandSetup user_jac km v st) as [r|] eqn:Er; [|discriminate].
    simpl in Hs. injection Hs as <- <-.
    destruct (KINBandSetup_lmem _ _ _ Er)
      as (m & m' & Hl & -> & Hj & Hd & _).
    simpl. split; [assumption|].
    intros m1 [= <-]. rewrite Hj, Hd. apply Hinv. assumption.
  - destruct (KINBandSolve km v x b st) as [r|] eqn:Er; [|discriminate].
    simpl in Hs. injection Hs as <- <-.
    destruct (KINBandSolve_lmem _ _ _ _ _ Er) as (m & Hl & -> & _).
    simpl. split; [assumption|].
    intros m1 [= <-]. simpl. apply Hinv. assumption.
Qed.

(** X17.  From a solver memory with no linear solver attached, whatever
    requests are served (the caller cannot name the [static]
    difference-quotient routine, so it never hands it to
    [KINBandSetJacFn]), the record pairs the difference-quotient routine
    with the solver memory as its data: the cast of [jac_data] to [KINMem]
    in [KINBandDQJac] is always applied to the solver memory. *)
Theorem dq_routine_always_gets_kin_mem (qs : list (kb_request R))
    (km0 : KINMem R) (st0 : vstore R) (km : KINMem R) (st : vstore R) :
  kin_lfree km0 = None -> kin_lmem km0 = None ->
  Forall (λ q, forall d, q <> Kb_SetJacFn JAC_KINBandDQJac d) qs ->
  kb_serve_all foreign_lfree user_jac v (km0, st0) qs = Some (km, st) ->
  forall m, kin_lmem km = Some m -> b_jac m = JAC_KINBandDQJac ->
            b_J_data m = JDATA_kinmem.
Proof.
  intros Hf0 Hl0 Hqs Hrun.
  assert (Hgen : forall qs (s s' : KINMem R * vstore R),
    Forall (λ q, forall d, q <> Kb_SetJacFn JAC_KINBandDQJac d) qs ->
    kb_serve_all foreign_lfree user_jac v s qs = Some s' ->
    kin_lfree s.1 <> Some LIN_OTHER ->
    (forall m, kin_lmem s.1 = Some m -> b_jac m = JAC_KINBandDQJac ->
               b_J_data m = JDATA_kinmem) ->
    forall m, kin_lmem s'.1 = Some m -> b_jac m = JAC_KINBandDQJac ->
              b_J_data m = JDATA_kinmem).
  { clear. intros qs. induction qs as [|q rest IH]; intros s s' Hall Hrun Hfr Hinv.
    - simpl in Hrun. injection Hrun as <-. exact Hinv.
    - simpl in Hrun. inversion Hall as [|? ? Hq Hrest]; subst.
      destruct (kb_serve foreign_lfree user_jac v s q) as [s1|] eqn:E1;
        [|discriminate].
      simpl in Hrun. destruct s as [km st], s1 as [km1 st1].
      destruct (kb_serve_pairs_dq km st q km1 st1 Hq E1 Hfr Hinv) as [Hfr1 Hinv1].
      exact (IH (km1, st1) s' Hrest Hrun Hfr1 Hinv1). }
  apply (Hgen qs (km0, st0) (km, st) Hqs Hrun); simpl.
  - rewrite Hf0. discriminate.
  - rewrite Hl0. discriminate.
Qed.

(** X18.  While only setups and solves are served and the Jacobian
    routine is the difference-quotient one, [nje] counts the setups and
    [nfeB] grows by [min(mlower + mupper + 1, n)] residual evaluations for
    each of them; solves change neither counter. *)
Theorem counters_count_setups (qs : list (kb_request R))
    (km0 : KINMem R) (st0 : vstore R) (m0 : KINBandMemRec R)
    (km : KINMem R) (st : vstore R) :
  kin_lmem km0 = Some m0 -> b_jac m0 = JAC_KINBandDQJac ->
  Forall (λ q, q = Kb_Setup \/ exists x b, q = Kb_Solve x b) qs ->
  kb_serve_all foreign_lfree user_jac v (km0, st0) qs = Some (km, st) ->
  exists m, kin_lmem km = Some m /\
    let k := Z.of_nat (length (List.filter is_Kb_Setup qs)) in
    b_nje m = b_nje m0 + k /\
    b_nfeB m = b_nfeB m0 + k * Z.min (b_ml m0 + b_mu m0 + 1) (b_n m0).
Proof.
  revert km0 st0 m0. induction qs as [|q rest IH];
    intros km0 st0 m0 Hl Hj Hall Hrun.
  - simpl in Hrun. injection Hrun as <- <-. exists m0.
    split; [assumption|]. simpl. lia.
  - inversion Hall as [|? ? Hq Hrest]; subst. cbn [kb_serve_all] in Hrun.
    destruct (kb_serve foreign_lfree user_jac v (km0, st0) q) as [[km1 st1]|]
      eqn:E1; [|discriminate].
    simpl in Hrun. destruct Hq as [->|(x & b & ->)]; simpl in E1.
    + destruct (KINBandSetup user_jac km0 v st0) as [r|] eqn:Er; [|discriminate].
      simpl in E1. injection E1 as <- <-.
      destruct (KINBandSetup_lmem _ _ _ Er)
        as (m & m' & Hl' & Hkm & Hj' & _ & Hn & Hmu & Hml & _ & Hnje & Hdq & _).
      rewrite Hl in Hl'. injection Hl' as <-. rewrite Hj in Hdq.
      destruct Hdq as [_ Hnfe].
      destruct (IH (kb_kin_mem r) (kb_store r) m') as (mf & Hlf & Hc1 & Hc2);
        [rewrite Hkm; reflexivity | congruence | assumption | assumption |].
      exists mf. split; [assumption|]. simpl.
      rewrite Hn, Hmu, Hml in *. split; [lia|].
      rewrite Hc2, Hnfe. rewrite Nat2Z.inj_succ. lia.
    + destruct (KINBandSolve km0 v x b st0) as [r|] eqn:Er; [|discriminate].
      simpl in E1. injection E1 as <- <-.
      destruct (KINBandSolve_lmem _ _ _ _ _ Er) as (m & Hl' & Hkm & _).
      rewrite Hl in Hl'. injection Hl' as <-.
      destruct (IH (ks_kin_mem r) (ks_store r)
                   (set_b_last_flag KINBAND_SUCCESS m0))
        as (mf & Hlf & Hc1 & Hc2);
        [rewrite Hkm; reflexivity | assumption | assumption | assumption |].
      exists mf. split; [assumption|]. simpl in *. split; assumption.
Qed.

(** X19.  Setup drops the value the Jacobian routine returns.  With a
    routine of the user the outcome of setup is decided by the matrix and
    the vectors the routine leaves and by [BandFactor] alone: two routines
    that leave the same matrix and vectors give the same setup, whatever
    they return; the value setup returns is 1 for a positive answer of
    [BandFactor] and 0 otherwise; [nje] grows by one and [nfeB] stays. *)
Theorem KINBandSetup_drops_jac_return
    (user_jac' : Z -> Z -> Z -> BandMat R -> vec_id -> vec_id -> vec_id ->
                 vec_id -> vstore R -> Z * BandMat R * vstore R)
    (km : KINMem R) (m : KINBandMemRec R) (J : BandMat R) (p : list Z)
    (st : vstore R) :
  kin_lmem km = Some m -> b_jac m = JAC_user ->
  b_J m = Some J -> b_pivots m = Some p ->
  (forall N mu ml J0 u fu t1 t2 st0,
     (user_jac N mu ml J0 u fu t1 t2 st0).1.2
       = (user_jac' N mu ml J0 u fu t1 t2 st0).1.2 /\
     (user_jac N mu ml J0 u fu t1 t2 st0).2
       = (user_jac' N mu ml J0 u fu t1 t2 st0).2) ->
  KINBandSetup user_jac km v st = KINBandSetup user_jac' km v st /\
  exists r m',
    KINBandSetup user_jac km v st = Some r /\
    let out := user_jac (b_n m) (b_mu m) (b_ml m) (BandZero J) (kin_uu v)
                 (kin_fval v) (kin_vtemp1 v) (kin_vtemp2 v) st in
    let ier := (BandFactor out.1.2 p).1.1 in
    kb_ret r = (if 0 <? ier then 1 else 0) /\
    kb_store r = out.2 /\ kb_evals r = [] /\
    kin_lmem (kb_kin_mem r) = Some m' /\ b_last_flag m' = ier /\
    b_nje m' = b_nje m + 1 /\ b_nfeB m' = b_nfeB m.
Proof.
  intros Hl Hj HJ Hp Hsame.
  unfold KINBandSetup, call_jac. rewrite Hl. simpl. rewrite HJ, Hp, Hj. simpl.
  destruct (Hsame (b_n m) (b_mu m) (b_ml m) (BandZero J) (kin_uu v)
              (kin_fval v) (kin_vtemp1 v) (kin_vtemp2 v) st) as [E1 E2].
  destruct (user_jac _ _ _ _ _ _ _ _ _) as [[ret J1] st1].
  destruct (user_jac' _ _ _ _ _ _ _ _ _) as [[ret' J1'] st1'].
  simpl in E1, E2. subst J1' st1'. simpl.
  destruct (BandFactor J1 p) as [[ier Jf] pf]. simpl.
  split; [reflexivity|].
  eexists _, _. split; [reflexivity|]. simpl. repeat split; reflexivity.
Qed.
End KINBAND_Sequences.

(** ** Setup with the difference-quotient Jacobian, and solve *)

Section KINBAND_Setup_DQ.
Context {R : Type} `{RealType R} `{BandKernel R}.

Variable user_jac : Z -> Z -> Z -> BandMat R -> vec_id -> vec_id ->
                    vec_id -> vec_id -> vstore R -> Z * BandMat R * vstore R.
Variables (km : KINMem R) (m : KINBandMemRec R) (v : KINVectors).
Variables (J : BandMat R) (p : list Z) (ud sd fud td fd0 : list R).
Variable st : vstore R.

Local Abbreviation n := (b_n m).
Local Abbreviation w := (b_ml m + b_mu m + 1).

Hypothesis Hlmem : kin_lmem km = Some m.
Hypothesis Hjac : b_jac m = JAC_KINBandDQJac.
Hypothesis Hdata : b_J_data m = JDATA_kinmem.
Hypothesis HJ : b_J m = Some J.
Hypothesis Hp : b_pivots m = Some p.
Hypothesis Hn : 0 <= n.
Hypothesis Hml : 0 <= b_ml m.
Hypothesis Hmu : 0 <= b_mu m.
Hypothesis Hlen_u : Z.of_nat (length ud) = n.
Hypothesis Hlen_s : Z.of_nat (length sd) = n.
Hypothesis Hlen_f : Z.of_nat (length fud) = n.
Hypothesis Hlen_t : Z.of_nat (length td) = n.
Hypothesis HF : forall x, Z.of_nat (length x) = n ->
                          Z.of_nat (length (kin_func km x)) = n.
Hypothesis Hdistinct :
  kin_vtemp2 v <> kin_uu v /\ kin_vtemp2 v <> kin_fval v /\
  kin_vtemp2 v <> kin_uscale km /\ kin_vtemp1 v <> kin_uu v /\
  kin_vtemp1 v <> kin_fval v /\ kin_vtemp1 v <> kin_uscale km /\
  kin_vtemp1 v <> kin_vtemp2 v.
Hypothesis Hin : holds_inputs (kin_uu v) (kin_fval v) (kin_uscale km) ud sd fud st.
Hypothesis Hvt2 : st !! kin_vtemp2 v = Some td.
Hypothesis Hvt1 : st !! kin_vtemp1 v = Some fd0.

(** X20.  With the difference-quotient routine, a setup on vectors of
    length [n] returns.  The matrix handed to [BandFactor] is the zeroed
    matrix with every entry of the band of columns [0..n-1] overwritten by
    its difference quotient; the value returned is 1 exactly when
    [BandFactor] answers a positive index and 0 otherwise, and that answer
    becomes the last flag.  [nje] has grown by one and [nfeB] by
    [min(mlower + mupper + 1, n)], the number of residual calls made; [uu]
    and [fval] hold what they held and [vtemp2] ends as a copy of [uu]. *)
Theorem KINBandSetup_dq_builds_and_factors :
  exists r d,
    KINBandSetup user_jac km v st = Some r /\
    (forall i j, d !! (i, j) =
       if (0 <=? j) && (j <? n) && in_band n (b_mu m) (b_ml m) i j
       then Some (dq_entry (kin_sqrt_relfunc km) (kin_func km) (b_mu m)
                    (b_ml m) ud sd fud i j)
       else band_data (BandZero J) !! (i, j)) /\
    let f := BandFactor (band_with_data (BandZero J) d) p in
    kb_ret r = (if 0 <? f.1.1 then 1 else 0) /\
    (exists m', kin_lmem (kb_kin_mem r) = Some m' /\
       b_last_flag m' = f.1.1 /\ b_J m' = Some f.1.2 /\
       b_pivots m' = Some f.2 /\
       b_nje m' = b_nje m + 1 /\ b_nfeB m' = b_nfeB m + Z.min w n) /\
    length (kb_evals r) = Z.to_nat (Z.min w n) /\
    kb_store r !! kin_uu v = Some ud /\
    kb_store r !! kin_fval v = Some fud /\
    kb_store r !! kin_vtemp2 v = Some ud.
Proof.
  destruct Hdistinct as (D1 & D2 & D3 & D4 & D5 & D6 & D7).
  set (m1 := set_b_counters (b_nje m + 1) (b_nfeB m) m).
  set (km1 := set_kin_lmem (Some m1) km).
  destruct (KINBandDQJac_run n (b_mu m) (b_ml m) (kin_uu v) (kin_fval v)
              (kin_vtemp1 v) (kin_vtemp2 v) km1 ud sd fud
              Hn Hml Hmu Hlen_u Hlen_s Hlen_f HF D1 D2 D3 D4 D5 D6 D7
              (BandZero J) st m1 td fd0 eq_refl Hin Hvt2 Hlen_t Hvt1)
    as (q & Hrun & _ & Hl & Hlen & _ & Hut & Hfr & Hd).
  destruct Hin as (Hiu & Hif & _).
  unfold KINBandSetup. rewrite Hlmem. simpl. rewrite HJ, Hp. simpl.
  unfold call_jac. simpl. rewrite Hjac, Hdata.
  fold m1. fold km1. rewrite Hrun. simpl. rewrite Hl. simpl.
  assert (HJq : dqr_J q = band_with_data (BandZero J) (band_data (dqr_J q))).
  { unfold KINBandDQJac in Hrun.
    repeat match type of Hrun with
    | (?o ≫= _) = Some _ => destruct o; [|discriminate]; simpl in Hrun
    | (if ?c then _ else _) = Some _ => destruct c; [discriminate|]
    end.
    injection Hrun as <-. reflexivity. }
  destruct (BandFactor (dqr_J q) p) as [[ier Jf] pf] eqn:Ef.
  eexists _, (band_data (dqr_J q)). split; [reflexivity|].
  split; [exact Hd|]. rewrite <- HJq, Ef. simpl.
  split; [reflexivity|]. split.
  - eexists. split; [reflexivity|]. simpl. repeat split; reflexivity.
  - split; [assumption|]. rewrite !Hfr by auto. auto.
Qed.
End KINBAND_Setup_DQ.

Section KINBAND_Solve.
Context {R : Type} `{RealType R} `{BandKernel R} `{NVectorKernel R}.

Variables (km : KINMem R) (m : KINBandMemRec R) (v : KINVectors).
Variables (J : BandMat R) (p : list Z) (x b : vec_id).
Variables (xd bd fs fv : list R) (st : vstore R).

Hypothesis Hlmem : kin_lmem km = Some m.
Hypothesis HJ : b_J m = Some J.
Hypothesis Hp : b_pivots m = Some p.
Hypothesis Hx : st !! x = Some xd.
Hypothesis Hb : st !! b = Some bd.
Hypothesis Hlen : length xd = length bd.
Hypothesis Hfs : st !! kin_fscale v = Some fs.
Hypothesis Hfv : st !! kin_fval v = Some fv.
Hypothesis Hdistinct :
  x <> b /\ x <> kin_fscale v /\ x <> kin_fval v /\
  b <> kin_fscale v /\ b <> kin_fval v.

(** X21.  A solve with a solution vector [x] distinct from the right-hand
    side [b] and from [fscale] and [fval] returns 0 and records
    KINBAND_SUCCESS whatever the last flag was.  [x] receives the
    back-substitution of [b]; [sJpnorm] is the weighted norm of [b] as it
    came in; then [b] itself is overwritten, multiplied twice by [fscale],
    and [sfdotJp] is the dot product of [fval] with that.  No other vector
    and no other field of the record changes. *)
Theorem KINBandSolve_overwrites_rhs :
  exists r,
    KINBandSolve km v x b st = Some r /\
    ks_ret r = 0 /\
    kin_lmem (ks_kin_mem r) = Some (set_b_last_flag KINBAND_SUCCESS m) /\
    ks_store r !! x = Some (BandBacksolve J p bd) /\
    ks_store r !! b = Some (N_VProd (N_VProd bd fs) fs) /\
    ks_sJpnorm r = N_VWL2Norm bd fs /\
    ks_sfdotJp r = N_VDotProd fv (N_VProd (N_VProd bd fs) fs) /\
    (forall y, y <> x -> y <> b -> ks_store r !! y = st !! y).
Proof.
  destruct Hdistinct as (D1 & D2 & D3 & D4 & D5).
  assert (D1' : b <> x) by congruence.
  unfold KINBandSolve, N_VScale_ONE_store, N_VProd_store.
  rewrite Hlmem. simpl. rewrite Hb, Hx. simpl.
  rewrite Hlen, Nat.eqb_refl. simpl.
  repeat (first [ rewrite lookup_insert_eq
                | rewrite lookup_insert_ne by assumption
                | rewrite Hb | rewrite Hfs | rewrite Hfv
                | rewrite HJ | rewrite Hp ]; simpl).
  eexists. split; [reflexivity|]. simpl.
  split; [reflexivity|]. split; [reflexivity|].
  repeat (first [ rewrite lookup_insert_eq
                | rewrite lookup_insert_ne by assumption ]).
  repeat (split; [reflexivity|]).
  intros y Hy1 Hy2. rewrite !lookup_insert_ne by auto. reflexivity.
Qed.
End KINBAND_Solve.

(** ** What the difference-quotient routine writes *)

Section Arrays_More.
Context {R : Type} `{RealType R}.

Lemma vnth_imap (f : nat -> R -> R) (l : list R) (k : Z) :
  0 <= k < Z.of_nat (length l) ->
  vnth (imap f l) k = f (Z.to_nat k) (vnth l k).
Proof.
  intros Hk. unfold vnth, vget.
  destruct (k <? 0) eqn:E; [apply Z.ltb_lt in E; lia|].
  rewrite list_lookup_imap.
  destruct (l !! Z.to_nat k) as [y|] eqn:El; [reflexivity|].
  apply lookup_ge_None in El. lia.
Qed.
End Arrays_More.

Section DQ_More.
Context {R : Type} `{RealType R}.

Variables (n mupper mlower : Z) (u fu futemp utemp : vec_id) (km : KINMem R).
Variables (ud sd fud : list R).

Local Abbreviation w := (mlower + mupper + 1).

Hypothesis Hn : 0 <= n.
Hypothesis Hml : 0 <= mlower.
Hypothesis Hmu : 0 <= mupper.
Hypothesis Hlen_u : Z.of_nat (length ud) = n.
Hypothesis Hlen_s : Z.of_nat (length sd) = n.
Hypothesis Hlen_f : Z.of_nat (length fud) = n.
Hypothesis HF : forall x, Z.of_nat (length x) = n ->
                          Z.of_nat (length (kin_func km x)) = n.
Hypothesis Hdistinct :
  utemp <> u /\ utemp <> fu /\ utemp <> kin_uscale km /\
  futemp <> u /\ futemp <> fu /\ futemp <> kin_uscale km /\ futemp <> utemp.

(** X22.  A build writes the matrix only inside the band of the columns
    [0..n-1]: every other entry, the dimensions of the matrix, every
    counter but [nfeB], and every vector but the two work vectors are what
    they were; and the routine returns 0. *)
Theorem KINBandDQJac_writes_only_band (J : BandMat R) (st : vstore R)
    (lm : KINBandMemRec R) (td fd0 : list R) :
  kin_lmem km = Some lm ->
  holds_inputs u fu (kin_uscale km) ud sd fud st ->
  st !! utemp = Some td -> Z.of_nat (length td) = n ->
  st !! futemp = Some fd0 ->
  exists r,
    KINBandDQJac n mupper mlower J u fu km futemp utemp st = Some r /\
    dqr_flag r = 0 /\
    (forall i j,
       ~ (0 <= j < n /\ Z.max 0 (j - mupper) <= i <= Z.min (j + mlower) (n - 1)) ->
       band_data (dqr_J r) !! (i, j) = band_data J !! (i, j)) /\
    band_size (dqr_J r) = band_size J /\ band_mu (dqr_J r) = band_mu J /\
    band_ml (dqr_J r) = band_ml J /\ band_smu (dqr_J r) = band_smu J /\
    (exists lm', kin_lmem (dqr_kin_mem r) = Some lm' /\
       b_nje lm' = b_nje lm /\ b_last_flag lm' = b_last_flag lm /\
       b_jac lm' = b_jac lm /\ b_J_data lm' = b_J_data lm) /\
    (forall y, y <> utemp -> y <> futemp -> dqr_store r !! y = st !! y).
Proof.
  intros Hlm Hin Hut Hltd Hft.
  destruct Hdistinct as (D1 & D2 & D3 & D4 & D5 & D6 & D7).
  destruct (KINBandDQJac_run n mupper mlower u fu futemp utemp km ud sd fud
              Hn Hml Hmu Hlen_u Hlen_s Hlen_f HF D1 D2 D3 D4 D5 D6 D7
              J st lm td fd0 Hlm Hin Hut Hltd Hft)
    as (r & Hrun & Hflag & Hl & _ & _ & _ & Hfr & HJ).
  destruct (KINBandDQJac_kin_mem _ _ _ _ _ _ _ _ _ _ _ Hrun)
    as (_ & _ & _ & Hs1 & Hs2 & Hs3 & Hs4).
  exists r. split; [assumption|]. split; [assumption|]. split.
  - intros i j Hout. rewrite HJ. unfold in_band.
    destruct ((0 <=? j) && (j <? n) &&
              ((Z.max 0 (j - mupper) <=? i) &&
               (i <=? Z.min (j + mlower) (n - 1)))) eqn:E; [|reflexivity].
    exfalso. apply Hout.
    rewrite !andb_true_iff in E. destruct E as [[E1 E2] [E3 E4]].
    apply Z.leb_le in E1, E3, E4. apply Z.ltb_lt in E2. lia.
  - repeat (split; [assumption|]). split; [|assumption].
    eexists. split; [exact Hl|]. repeat split; reflexivity.
Qed.

Lemma length_perturbed g :
  Z.of_nat (length (perturbed (kin_sqrt_relfunc km) mupper mlower ud sd g)) = n.
Proof. unfold perturbed. rewrite length_imap. assumption. Qed.

Lemma length_perturbed_one j :
  Z.of_nat (length (perturbed_one (kin_sqrt_relfunc km) ud sd j)) = n.
Proof. unfold perturbed_one. rewrite length_imap. assumption. Qed.

(** X23.  Grouping the columns costs nothing in accuracy for a residual
    with the declared band structure: when component [i] of [F] reads only
    the columns [i - mlower .. i + mupper], the entry the routine stores in
    row [i] of column [j] is the difference quotient for column [j]
    perturbed alone, the other perturbed columns of its group lying
    outside what row [i] reads. *)
Theorem KINBandDQJac_grouping_is_exact (J : BandMat R) (st : vstore R)
    (lm : KINBandMemRec R) (td fd0 : list R) :
  band_local (kin_func km) n mupper mlower ->
  kin_lmem km = Some lm ->
  holds_inputs u fu (kin_uscale km) ud sd fud st ->
  st !! utemp = Some td -> Z.of_nat (length td) = n ->
  st !! futemp = Some fd0 ->
  exists r,
    KINBandDQJac n mupper mlower J u fu km futemp utemp st = Some r /\
    forall i j, 0 <= j < n ->
      Z.max 0 (j - mupper) <= i <= Z.min (j + mlower) (n - 1) ->
      band_data (dqr_J r) !! (i, j) =
      Some (Rmul (Rdiv ONE (inc_spec (kin_sqrt_relfunc km) ud sd j))
              (Rsub (vnth (kin_func km
                             (perturbed_one (kin_sqrt_relfunc km) ud sd j)) i)
                    (vnth fud i))).
Proof.
  intros Hloc Hlm Hin Hut Hltd Hft.
  destruct Hdistinct as (D1 & D2 & D3 & D4 & D5 & D6 & D7).
  destruct (KINBandDQJac_run n mupper mlower u fu futemp utemp km ud sd fud
              Hn Hml Hmu Hlen_u Hlen_s Hlen_f HF D1 D2 D3 D4 D5 D6 D7
              J st lm td fd0 Hlm Hin Hut Hltd Hft)
    as (r & Hrun & _ & _ & _ & _ & _ & _ & HJ).
  exists r. split; [assumption|]. intros i j Hj Hi.
  rewrite HJ. unfold in_band.
  replace ((0 <=? j) && (j <? n) &&
           ((Z.max 0 (j - mupper) <=? i) && (i <=? Z.min (j + mlower) (n - 1))))
    with true
    by (symmetry; rewrite !andb_true_iff, !Z.leb_le, Z.ltb_lt; lia).
  unfold dq_entry. do 3 f_equal.
  apply Hloc; [apply length_perturbed | apply length_perturbed_one | lia |].
  intros k Hk Hband.
  unfold perturbed, perturbed_one.
  rewrite !vnth_imap by lia. rewrite Z2Nat.id by lia.
  destruct (k =? j) eqn:Ekj.
  - apply Z.eqb_eq in Ekj. subst k. rewrite Z.eqb_refl. reflexivity.
  - apply Z.eqb_neq in Ekj.
    destruct (k mod w =? j mod w) eqn:Em; [|reflexivity].
    apply Z.eqb_eq in Em. exfalso. apply Ekj.
    destruct (Z.le_gt_cases j k).
    + apply (mod_same_window w j k); [lia | congruence | lia].
    + symmetry. apply (mod_same_window w k j); [lia | congruence | lia].
Qed.
End DQ_More.

(** ** Runs of the remaining band-solver routines in binary64 *)

Section KINBAND_Extra_Runs.
Local Open Scope float_scope.

(** [KINBand] with [N = 5] and [mupper = mlower = 1] on a bare solver
    memory: 5 * (2 + 1 + 2 + 2) reals, with a [long int] of 32 bits. *)
Lemma KINBand_enables_getters_witness :
  KINBand (λ km, km) (Some kin_mem_bare) alloc_ok 5 1 1
    = (KINBAND_SUCCESS, Some kin_mem5) /\
  KINBandGetWorkSpace (2 ^ 31 - 1) (Some kin_mem5)
    = Some (KINBAND_SUCCESS, Some (35%Z, 5%Z)) /\
  KINBandGetLastFlag (Some kin_mem5) = (KINBAND_SUCCESS, Some KINBAND_SUCCESS) /\
  KINBandGetNumJacEvals (Some kin_mem_bare) = (KINBAND_LMEM_NULL, None).
Proof.
  assert (Hrun : KINBand (λ km, km) (Some kin_mem_bare) alloc_ok 5 1 1
                 = (KINBAND_SUCCESS, Some kin_mem5)) by reflexivity.
  destruct (KINBand_enables_getters (2 ^ 31 - 1) (λ km, km) kin_mem_bare
              alloc_ok 5 1 1 (Some kin_mem5)) as (Hnull & Hok).
  destruct (Hok Hrun) as (Hws & _ & _ & _ & Hlf & _).
  destruct (Hnull eq_refl) as (_ & Hnje & _).
  split; [exact Hrun|]. split; [apply Hws; vm_compute; discriminate|].
  split; assumption.
Defined.

Lemma KINBandInit_restores_default_jac_witness :
  kin_lmem kin_mem10 = Some (band_rec 10 1 1 2) /\
  exists km1 km2 m2,
    KINBandSetJacFn (Some kin_mem10) JAC_NULL JDATA_user
      = (KINBAND_SUCCESS, Some km1) /\
    KINBandInit km1 = Some (0%Z, km2) /\ kin_lmem km2 = Some m2 /\
    b_jac m2 = JAC_KINBandDQJac /\ b_J_data m2 = JDATA_kinmem.
Proof.
  split; [reflexivity|].
  destruct (KINBandInit_restores_default_jac kin_mem10 (band_rec 10 1 1 2)
              JDATA_user eq_refl) as (_ & Hnull & _).
  exact Hnull.
Defined.

(** Attach, set a routine of the user, unset it, initialize, set up and
    solve, in dimension 3: the difference-quotient routine is back and is
    paired with the solver memory. *)
Lemma dq_routine_always_gets_kin_mem_witness :
  let qs := [Kb_KINBand alloc_ok 3 0 0; Kb_SetJacFn JAC_user JDATA_user;
             Kb_SetJacFn JAC_NULL JDATA_user; Kb_Init; Kb_Setup;
             Kb_Solve id_x id_b] in
  kin_lfree kin_mem_bare = None /\ kin_lmem kin_mem_bare = None /\
  Forall (λ q, forall d, q <> Kb_SetJacFn JAC_KINBandDQJac d) qs /\
  exists km st m,
    kb_serve_all (λ km, km) jac_noop kin_vecs (kin_mem_bare, store3) qs
      = Some (km, st) /\
    kin_lmem km = Some m /\ b_jac m = JAC_KINBandDQJac /\
    b_J_data m = JDATA_kinmem.
Proof.
  intros qs.
  assert (Hall : Forall (λ q : kb_request float,
                   forall d, q <> Kb_SetJacFn JAC_KINBandDQJac d) qs)
    by (repeat constructor; discriminate).
  pose (s := default (kin_mem_bare, store3)
               (kb_serve_all (λ km, km) jac_noop kin_vecs
                  (kin_mem_bare, store3) qs)).
  pose (m := default (band_rec 0 0 0 0) (kin_lmem s.1)).
  assert (Hrun : kb_serve_all (λ km, km) jac_noop kin_vecs
                   (kin_mem_bare, store3) qs = Some (s.1, s.2))
    by (vm_compute; reflexivity).
  assert (Hm : kin_lmem s.1 = Some m) by (vm_compute; reflexivity).
  assert (Hj : b_jac m = JAC_KINBandDQJac) by (vm_compute; reflexivity).
  split; [reflexivity|]. split; [reflexivity|]. split; [exact Hall|].
  exists s.1, s.2, m. split; [exact Hrun|]. split; [exact Hm|].
  split; [exact Hj|].
  exact (dq_routine_always_gets_kin_mem (λ km, km) jac_noop kin_vecs qs
           kin_mem_bare store3 s.1 s.2 eq_refl eq_refl Hall Hrun m Hm Hj).
Defined.

(** Setup, solve, setup in dimension 3 with bandwidth zero: two Jacobian
    evaluations of one residual call each. *)
Lemma counters_count_setups_witness :
  let qs := [Kb_Setup; Kb_Solve id_x id_b; Kb_Setup] in
  kin_lmem state3.1 = Some rec3 /\ b_jac rec3 = JAC_KINBandDQJac /\
  Forall (λ q : kb_request float,
            q = Kb_Setup \/ exists x b, q = Kb_Solve x b) qs /\
  exists km st m,
    kb_serve_all (λ km, km) jac_noop kin_vecs state3 qs = Some (km, st) /\
    kin_lmem km = Some m /\ b_nje m = 2%Z /\ b_nfeB m = 2%Z.
Proof.
  intros qs.
  assert (Hall : Forall (λ q : kb_request float,
                   q = Kb_Setup \/ exists x b, q = Kb_Solve x b) qs)
    by (repeat constructor; eauto).
  pose (s := default state3
               (kb_serve_all (λ km, km) jac_noop kin_vecs state3 qs)).
  assert (Hrun : kb_serve_all (λ km, km) jac_noop kin_vecs
                   (state3.1, state3.2) qs = Some (s.1, s.2))
    by (vm_compute; reflexivity).
  destruct (counters_count_setups (λ km, km) jac_noop kin_vecs qs
              state3.1 state3.2 rec3 s.1 s.2 eq_refl eq_refl Hall Hrun)
    as (m & Hm & Hnje & Hnfe).
  split; [reflexivity|]. split; [reflexivity|]. split; [exact Hall|].
  exists s.1, s.2, m. split; [exact Hrun|]. split; [exact Hm|].
  split; [exact Hnje | exact Hnfe].
Defined.

(** Setup in dimension 3 with bandwidth zero on [F(v) = v]: one residual
    call, a complete factorization. *)
Lemma KINBandSetup_dq_builds_and_factors_witness :
  (kin_lmem state3.1 = Some rec3 /\ b_jac rec3 = JAC_KINBandDQJac /\
   b_J_data rec3 = JDATA_kinmem /\ b_J rec3 = Some J3 /\
   b_pivots rec3 = Some [0; 0; 0]%Z /\
   holds_inputs id_u id_fu (kin_uscale state3.1) [1; 2; 4] [1; 1; 1]
     [1; 2; 4] state3.2 /\
   state3.2 !! id_tmp2 = Some [0; 0; 0] /\
   state3.2 !! id_tmp1 = Some [0; 0; 0]) /\
  exists r,
    KINBandSetup jac_noop state3.1 kin_vecs state3.2 = Some r /\
    kb_ret r = 0%Z /\ length (kb_evals r) = 1%nat /\
    kb_store r !! id_tmp2 = Some [1; 2; 4].
Proof.
  assert (Hin : holds_inputs id_u id_fu (kin_uscale state3.1) [1; 2; 4]
                  [1; 1; 1] [1; 2; 4] state3.2)
    by (repeat split; reflexivity).
  split; [repeat split; reflexivity|].
  destruct (KINBandSetup_dq_builds_and_factors jac_noop state3.1 rec3
              kin_vecs J3 [0; 0; 0]%Z [1; 2; 4] [1; 1; 1] [1; 2; 4]
              [0; 0; 0] [0; 0; 0] state3.2
              eq_refl eq_refl eq_refl eq_refl eq_refl
              ltac:(discriminate) ltac:(discriminate) ltac:(discriminate)
              eq_refl eq_refl eq_refl eq_refl (λ x Hx, Hx)
              ltac:(repeat split; discriminate) Hin eq_refl eq_refl)
    as (r & d & Hrun & Hd & Hret & _ & Hev & _ & _ & Hvt2).
  exists r. split; [exact Hrun|]. split; [|split; [exact Hev | exact Hvt2]].
  assert (Hr : Some (kb_ret r) = Some 0%Z).
  { change (Some (kb_ret r)) with (kb_ret <$> Some r). rewrite <- Hrun.
    vm_compute. reflexivity. }
  injection Hr as Hr. exact Hr.
Defined.

(** The solve after that setup: [x] becomes [(2, 4, 8)] and [b] becomes
    [(2, 16, 72)]. *)
Lemma KINBandSolve_overwrites_rhs_witness :
  (kin_lmem state3_setup.1 = Some rec3_setup /\
   state3_setup.2 !! id_x = Some [0; 0; 0] /\
   state3_setup.2 !! id_b = Some [2; 4; 8] /\
   state3_setup.2 !! id_fscale = Some [1; 2; 3] /\
   state3_setup.2 !! id_fu = Some [1; 2; 4]) /\
  exists r,
    KINBandSolve state3_setup.1 kin_vecs id_x id_b state3_setup.2 = Some r /\
    ks_ret r = 0%Z /\
    ks_store r !! id_x = Some [2; 4; 8] /\
    ks_store r !! id_b = Some [2; 16; 72] /\
    ks_sfdotJp r = 322.
Proof.
  assert (Hl : kin_lmem state3_setup.1 = Some rec3_setup)
    by (vm_compute; reflexivity).
  assert (Hsx : state3_setup.2 !! id_x = Some [0; 0; 0])
    by (vm_compute; reflexivity).
  assert (Hsb : state3_setup.2 !! id_b = Some [2; 4; 8])
    by (vm_compute; reflexivity).
  assert (Hsf : state3_setup.2 !! id_fscale = Some [1; 2; 3])
    by (vm_compute; reflexivity).
  assert (Hsv : state3_setup.2 !! id_fu = Some [1; 2; 4])
    by (vm_compute; reflexivity).
  split; [auto|].
  pose (J := default J3 (b_J rec3_setup)).
  assert (HJ : b_J rec3_setup = Some J) by (vm_compute; reflexivity).
  assert (Hp : b_pivots rec3_setup = Some [0; 1; 2]%Z)
    by (vm_compute; reflexivity).
  assert (Hd : id_x <> id_b /\ id_x <> kin_fscale kin_vecs /\
               id_x <> kin_fval kin_vecs /\ id_b <> kin_fscale kin_vecs /\
               id_b <> kin_fval kin_vecs)
    by (unfold id_x, id_b; simpl; unfold id_fscale, id_fu; lia).
  destruct (KINBandSolve_overwrites_rhs state3_setup.1 rec3_setup kin_vecs
              J [0; 1; 2]%Z id_x id_b [0; 0; 0] [2; 4; 8] [1; 2; 3]
              [1; 2; 4] state3_setup.2 Hl HJ Hp Hsx Hsb eq_refl Hsf Hsv Hd)
    as (r & Hrun & Hret & _ & Hx & Hb & _ & Hdot & _).
  exists r. split; [exact Hrun|]. split; [exact Hret|].
  split; [rewrite Hx; vm_compute; reflexivity|].
  split; [rewrite Hb; vm_compute; reflexivity|].
  rewrite Hdot. vm_compute. reflexivity.
Defined.

Lemma tridiag_band_local : band_local tridiag 10 1 1.
Proof.
  intros a b i Ha Hb Hi Hagree.
  assert (Hnd : forall (l : list float) k, nth_double l k = vnth l k).
  { intros l k. unfold nth_double, vnth, vget.
    destruct (k <? 0)%Z; [reflexivity|]. rewrite nth_lookup. reflexivity. }
  assert (Hout : forall (l : list float) k,
            Z.of_nat (length l) = 10%Z -> ~ (0 <= k < 10)%Z -> vnth l k = 0).
  { intros l k Hl Hk. unfold vnth, vget.
    destruct (k <? 0)%Z eqn:E; [reflexivity|].
    apply Z.ltb_ge in E.
    rewrite (proj2 (lookup_ge_None l (Z.to_nat k))) by lia. reflexivity. }
  assert (Hsame : forall k, (i - 1 <= k <= i + 1)%Z -> vnth a k = vnth b k).
  { intros k Hk. destruct (Z_le_gt_dec 0 k) as [H0|H0].
    - destruct (Z_lt_ge_dec k 10) as [H1|H1].
      + apply Hagree; lia.
      + rewrite !Hout by lia. reflexivity.
    - rewrite !Hout by lia. reflexivity. }
  unfold tridiag. rewrite !vnth_imap by lia.
  rewrite Z2Nat.id by lia. rewrite !Hnd.
  rewrite (Hsame i), (Hsame (i - 1)%Z), (Hsame (i + 1)%Z) by lia.
  reflexivity.
Qed.

(** Dimension 10 with [ml = mu = 1] on the tridiagonal residual. *)
Lemma KINBandDQJac_writes_only_band_witness :
  (kin_lmem kin_mem10 = Some (band_rec 10 1 1 2) /\
   holds_inputs id_u id_fu (kin_uscale kin_mem10) ones10 ones10
     (tridiag ones10) store10 /\
   store10 !! id_tmp2 = Some zeros10 /\ store10 !! id_tmp1 = Some zeros10) /\
  exists r,
    KINBandDQJac 10 1 1 J10 id_u id_fu kin_mem10 id_tmp1 id_tmp2 store10
      = Some r /\
    dqr_flag r = 0%Z /\
    band_data (dqr_J r) !! (3%Z, 0%Z) = None /\
    band_data (dqr_J r) !! (0%Z, 10%Z) = None /\
    dqr_store r !! id_uscale = Some ones10.
Proof.
  assert (HF : forall x, Z.of_nat (length x) = 10%Z ->
                         Z.of_nat (length (kin_func kin_mem10 x)) = 10%Z).
  { intros x Hx. simpl. rewrite length_tridiag. exact Hx. }
  assert (Hin : holds_inputs id_u id_fu (kin_uscale kin_mem10) ones10 ones10
                  (tridiag ones10) store10) by (repeat split; reflexivity).
  split; [repeat split; reflexivity|].
  destruct (KINBandDQJac_writes_only_band 10 1 1 id_u id_fu id_tmp1 id_tmp2
              kin_mem10 ones10 ones10 (tridiag ones10)
              ltac:(lia) ltac:(lia) ltac:(lia) eq_refl eq_refl eq_refl HF
              ltac:(repeat split; discriminate)
              J10 store10 (band_rec 10 1 1 2) zeros10 zeros10
              eq_refl Hin eq_refl eq_refl eq_refl)
    as (r & Hrun & Hflag & Hout & _ & _ & _ & _ & _ & Hfr).
  exists r. split; [exact Hrun|]. split; [exact Hflag|].
  split; [rewrite Hout by lia; reflexivity|].
  split; [rewrite Hout by lia; reflexivity|].
  rewrite Hfr by discriminate. reflexivity.
Defined.

Lemma KINBandDQJac_grouping_is_exact_witness :
  (band_local (kin_func kin_mem10) 10 1 1 /\
   kin_lmem kin_mem10 = Some (band_rec 10 1 1 2) /\
   holds_inputs id_u id_fu (kin_uscale kin_mem10) ones10 ones10
     (tridiag ones10) store10 /\
   store10 !! id_tmp2 = Some zeros10 /\ store10 !! id_tmp1 = Some zeros10) /\
  exists r,
    KINBandDQJac 10 1 1 J10 id_u id_fu kin_mem10 id_tmp1 id_tmp2 store10
      = Some r /\
    band_data (dqr_J r) !! (4%Z, 3%Z) =
      Some (Rmul (Rdiv ONE (inc_spec (kin_sqrt_relfunc kin_mem10) ones10
                              ones10 3))
              (Rsub (vnth (tridiag (perturbed_one (kin_sqrt_relfunc kin_mem10)
                                      ones10 ones10 3)) 4)
                    (vnth (tridiag ones10) 4))).
Proof.
  assert (HF : forall x, Z.of_nat (length x) = 10%Z ->
                         Z.of_nat (length (kin_func kin_mem10 x)) = 10%Z).
  { intros x Hx. simpl. rewrite length_tridiag. exact Hx. }
  assert (Hin : holds_inputs id_u id_fu (kin_uscale kin_mem10) ones10 ones10
                  (tridiag ones10) store10) by (repeat split; reflexivity).
  split; [split; [exact tridiag_band_local | repeat split; reflexivity]|].
  destruct (KINBandDQJac_grouping_is_exact 10 1 1 id_u id_fu id_tmp1 id_tmp2
              kin_mem10 ones10 ones10 (tridiag ones10)
              ltac:(lia) ltac:(lia) ltac:(lia) eq_refl eq_refl eq_refl HF
              ltac:(repeat split; discriminate)
              J10 store10 (band_rec 10 1 1 2) zeros10 zeros10
              tridiag_band_local eq_refl Hin eq_refl eq_refl eq_refl)
    as (r & Hrun & HJ).
  exists r. split; [exact Hrun|]. apply HJ; lia.
Defined.

(** [KINBand] on a block with stale counters: they are reported as found
    until [KINBandInit] runs. *)
Lemma KINBand_counters_wait_for_init_witness :
  KINBand (λ km, km) (Some kin_mem_bare) alloc_stale 5 1 1
    = (KINBAND_SUCCESS, Some kin_mem5_stale) /\
  KINBandGetNumJacEvals (Some kin_mem5_stale) = (KINBAND_SUCCESS, Some 17%Z) /\
  KINBandGetNumFuncEvals (Some kin_mem5_stale) = (KINBAND_SUCCESS, Some 99%Z) /\
  exists km2, KINBandInit kin_mem5_stale = Some (0%Z, km2) /\
    KINBandGetNumJacEvals (Some km2) = (KINBAND_SUCCESS, Some 0%Z) /\
    KINBandGetNumFuncEvals (Some km2) = (KINBAND_SUCCESS, Some 0%Z).
Proof.
  assert (Hrun : KINBand (λ km, km) (Some kin_mem_bare) alloc_stale 5 1 1
                 = (KINBAND_SUCCESS, Some kin_mem5_stale)) by reflexivity.
  destruct (KINBand_counters_wait_for_init (λ km, km) kin_mem_bare
              alloc_stale 5 1 1 kin_mem5_stale Hrun)
    as (_ & _ & _ & _ & (fresh & Hfresh & Hnje & Hnfe)
        & (km2 & Hinit & H0 & H1 & _)).
  injection Hfresh as <-.
  split; [exact Hrun|]. split; [exact Hnje|]. split; [exact Hnfe|].
  exists km2. split; [exact Hinit|]. split; [exact H0 | exact H1].
Defined.

(** A routine of the user that leaves the zeroed matrix and reports a
    failure, and one that reports success: the same setup, which returns 1
    because the factorization meets a zero pivot in the first column. *)
Lemma KINBandSetup_drops_jac_return_witness :
  (kin_lmem kin_mem3_user = Some rec3_user /\ b_jac rec3_user = JAC_user /\
   b_J rec3_user = Some J3 /\ b_pivots rec3_user = Some [0; 0; 0]%Z) /\
  KINBandSetup jac_noop kin_mem3_user kin_vecs store3
    = KINBandSetup jac_noop_ok kin_mem3_user kin_vecs store3 /\
  exists r m',
    KINBandSetup jac_noop kin_mem3_user kin_vecs store3 = Some r /\
    kb_ret r = 1%Z /\ kin_lmem (kb_kin_mem r) = Some m' /\
    b_last_flag m' = 1%Z /\ b_nje m' = 1%Z /\ b_nfeB m' = 0%Z.
Proof.
  split; [repeat split; reflexivity|].
  destruct (KINBandSetup_drops_jac_return jac_noop kin_vecs jac_noop_ok
              kin_mem3_user rec3_user J3 [0; 0; 0]%Z store3
              eq_refl eq_refl eq_refl eq_refl
              (λ N mu ml J0 u fu t1 t2 st0, conj eq_refl eq_refl))
    as (Hsame & r & m' & Hrun & Hret & _ & _ & Hm' & Hlf & Hnje & Hnfe).
  split; [exact Hsame|].
  exists r, m'. split; [exact Hrun|].
  split; [exact Hret|]. split; [exact Hm'|]. split; [exact Hlf|].
  split; [exact Hnje | exact Hnfe].
Defined.
End KINBAND_Extra_Runs.
